(** * love-nacl: the Pepper input bridge and the GLES2 shader manager

    A shallow embedding of [src/modules/window/ppapi/Input.cpp] (namespace
    [love::window::ppapi]) and of the shader translation unit that follows it
    in the same file (namespace [love::graphics::gles2], class [Shader]),
    with the properties of the specification proved about the embedding.

    Conventions.
    - [uint32_t] and [GLuint] values are [N]; [int] and [GLint] values are [Z].
    - [std::vector] and C arrays are lists, read with [!!] and written with
      [<[i:=x]>]; an access outside the bounds is undefined behaviour and is
      written out wherever the code does not exclude it.
    - [std::map] keyed by strings is [gmap string].
    - Globals are the fields of one record that every function threads. *)

From Stdlib Require Import ZArith NArith Lia Ascii String.
From stdpp Require Import base option list strings gmap fin_maps.

Local Open Scope Z_scope.

(* ===================================================================== *)
(** * Part I: namespace love::window::ppapi                               *)
(* ===================================================================== *)

Module ppapi.

(** ** Declarations of Input.h *)

(** Modelled from the spec: Input.h is not among the sources.  The event is
    "a tagged union over Mouse, Wheel, Key, Character"; the enumerators are
    the ones Input.cpp names. *)
Inductive InputType := INPUT_MOUSE | INPUT_WHEEL | INPUT_KEY | INPUT_CHARACTER.

(** Modelled from the spec: mouse sub-type "down/up/move/enter/leave". *)
Inductive MouseEventType :=
  MOUSE_DOWN | MOUSE_UP | MOUSE_MOVE | MOUSE_ENTER | MOUSE_LEAVE.

(** Modelled from the spec: the button enum.  [IsMouseButtonPressed] rejects
    [button <= MOUSE_NONE] and [button >= MOUSE_BUTTON_MAX], so [MOUSE_NONE]
    is the least enumerator and [MOUSE_BUTTON_MAX] the count. *)
Inductive MouseButton := MOUSE_NONE | MOUSE_LEFT | MOUSE_MIDDLE | MOUSE_RIGHT.

Definition MouseButton_value (b : MouseButton) : nat :=
  match b with
  | MOUSE_NONE => 0 | MOUSE_LEFT => 1 | MOUSE_MIDDLE => 2 | MOUSE_RIGHT => 3
  end%nat.

Definition MOUSE_BUTTON_MAX : nat := 4.

(** Modelled from the spec: key sub-type "raw-down/down/up". *)
Inductive KeyEventType := RAW_KEY_DOWN | KEY_DOWN | KEY_UP.

(** A [float] is only ever copied by the bridge: it is carried as its bit
    pattern. *)
Definition float := N.

Record MouseEvent := {
  mouse_type : MouseEventType;
  mouse_button : MouseButton;
  mouse_x : Z;
  mouse_y : Z;
  mouse_movement_x : Z;
  mouse_movement_y : Z }.

Record WheelEvent := {
  wheel_delta_x : float;
  wheel_delta_y : float;
  wheel_ticks_x : float;
  wheel_ticks_y : float;
  wheel_scroll_by_page : bool }.

Record KeyEvent := {
  key_type : KeyEventType;
  key_code : N }.

(** Modelled from the spec: "fixed-capacity text buffer (at most 4 bytes +
    terminator)", that is [char text[5]]; the list holds the bytes of the
    array. *)
Record CharacterEvent := {
  character_text : list ascii }.

Definition CHARACTER_TEXT_CAPACITY : nat := 5.

Record InputEvent := {
  type : InputType;
  modifiers : N;
  mouse : MouseEvent;
  wheel : WheelEvent;
  key : KeyEvent;
  character : CharacterEvent }.

(** Field assignments [out_event->f = v]. *)
Definition set_type (v : InputType) (e : InputEvent) : InputEvent :=
  {| type := v; modifiers := modifiers e; mouse := mouse e; wheel := wheel e;
     key := key e; character := character e |}.
Definition set_modifiers (v : N) (e : InputEvent) : InputEvent :=
  {| type := type e; modifiers := v; mouse := mouse e; wheel := wheel e;
     key := key e; character := character e |}.
Definition set_mouse (v : MouseEvent) (e : InputEvent) : InputEvent :=
  {| type := type e; modifiers := modifiers e; mouse := v; wheel := wheel e;
     key := key e; character := character e |}.
Definition set_wheel (v : WheelEvent) (e : InputEvent) : InputEvent :=
  {| type := type e; modifiers := modifiers e; mouse := mouse e; wheel := v;
     key := key e; character := character e |}.
Definition set_key (v : KeyEvent) (e : InputEvent) : InputEvent :=
  {| type := type e; modifiers := modifiers e; mouse := mouse e; wheel := wheel e;
     key := v; character := character e |}.
Definition set_character (v : CharacterEvent) (e : InputEvent) : InputEvent :=
  {| type := type e; modifiers := modifiers e; mouse := mouse e; wheel := wheel e;
     key := key e; character := v |}.

Definition set_mouse_type (v : MouseEventType) (e : InputEvent) : InputEvent :=
  set_mouse {| mouse_type := v; mouse_button := mouse_button (mouse e);
               mouse_x := mouse_x (mouse e); mouse_y := mouse_y (mouse e);
               mouse_movement_x := mouse_movement_x (mouse e);
               mouse_movement_y := mouse_movement_y (mouse e) |} e.
Definition set_key_type (v : KeyEventType) (e : InputEvent) : InputEvent :=
  set_key {| key_type := v; key_code := key_code (key e) |} e.
Definition set_key_code (v : N) (e : InputEvent) : InputEvent :=
  set_key {| key_type := key_type (key e); key_code := v |} e.

(** ** The host event (pp::InputEvent and its typed views) *)

(** The ten event types [ConvertEvent] has a case for, and one constructor
    for every other enumerator of the host API, for which the switch has no
    case. *)
Inductive PP_InputEvent_Type :=
  | PP_INPUTEVENT_TYPE_MOUSEDOWN
  | PP_INPUTEVENT_TYPE_MOUSEUP
  | PP_INPUTEVENT_TYPE_MOUSEMOVE
  | PP_INPUTEVENT_TYPE_MOUSEENTER
  | PP_INPUTEVENT_TYPE_MOUSELEAVE
  | PP_INPUTEVENT_TYPE_WHEEL
  | PP_INPUTEVENT_TYPE_RAWKEYDOWN
  | PP_INPUTEVENT_TYPE_KEYDOWN
  | PP_INPUTEVENT_TYPE_KEYUP
  | PP_INPUTEVENT_TYPE_CHAR
  | PP_INPUTEVENT_TYPE_UNHANDLED.

Inductive PP_InputEvent_MouseButton :=
  | PP_INPUTEVENT_MOUSEBUTTON_NONE
  | PP_INPUTEVENT_MOUSEBUTTON_LEFT
  | PP_INPUTEVENT_MOUSEBUTTON_MIDDLE
  | PP_INPUTEVENT_MOUSEBUTTON_RIGHT.

(** What the accessors of [pp::InputEvent], [pp::MouseInputEvent],
    [pp::WheelInputEvent] and [pp::KeyboardInputEvent] answer for one host
    event.  [GetCharacterText] is the [std::string] of
    [GetCharacterText().AsString()]. *)
Record pp_InputEvent := {
  GetType : PP_InputEvent_Type;
  GetModifiers : N;
  GetPosition : Z * Z;
  GetMovement : Z * Z;
  GetButton : PP_InputEvent_MouseButton;
  GetDelta : float * float;
  GetTicks : float * float;
  GetScrollByPage : bool;
  GetKeyCode : N;
  GetCharacterText : string }.

(** ** strncpy *)

(** The [n] bytes that [strncpy(dst, src, n)] writes: the bytes of the C
    string [src] up to its terminator, at most [n] of them, then NUL bytes
    until [n] bytes are written.  No terminator is written when the C string
    has [n] bytes or more.  [src] is the content of a [std::string], whose
    [c_str()] ends at the first NUL byte. *)
Fixpoint strncpy_written (src : list ascii) (n : nat) : list ascii :=
  match n with
  | O => []
  | S n' =>
      match src with
      | [] => zero :: strncpy_written [] n'
      | c :: src' =>
          if Ascii.eqb c zero then zero :: strncpy_written [] n'
          else c :: strncpy_written src' n'
      end
  end.

(** [strncpy(dst, src, n)] on the array [dst]: the first [n] bytes are
    overwritten, the rest of the array stays.  (The array has at least [n]
    bytes wherever the bridge calls it; a shorter one would be overrun.) *)
Definition strncpy (dst : list ascii) (src : string) (n : nat) : list ascii :=
  strncpy_written (list_ascii_of_string src) n ++ drop n dst.

(** ** ConvertEvent *)

(** [ConvertEvent(in_event, out_event)].  [out_event] is written field by
    field, so the function takes what [*out_event] held before and returns
    what it holds after.  The local [type] is declared without initialiser
    and is assigned by the first switch only for the ten handled host types:
    [type0] is the indeterminate value it has otherwise. *)
Definition ConvertEvent (in_event : pp_InputEvent) (type0 : InputType)
    (out_event : InputEvent) : InputEvent :=
  let '(type, out_event) :=
    match GetType in_event with
    | PP_INPUTEVENT_TYPE_MOUSEDOWN => (INPUT_MOUSE, set_mouse_type MOUSE_DOWN out_event)
    | PP_INPUTEVENT_TYPE_MOUSEUP => (INPUT_MOUSE, set_mouse_type MOUSE_UP out_event)
    | PP_INPUTEVENT_TYPE_MOUSEMOVE => (INPUT_MOUSE, set_mouse_type MOUSE_MOVE out_event)
    | PP_INPUTEVENT_TYPE_MOUSEENTER => (INPUT_MOUSE, set_mouse_type MOUSE_ENTER out_event)
    | PP_INPUTEVENT_TYPE_MOUSELEAVE => (INPUT_MOUSE, set_mouse_type MOUSE_LEAVE out_event)
    | PP_INPUTEVENT_TYPE_WHEEL => (INPUT_WHEEL, out_event)
    | PP_INPUTEVENT_TYPE_RAWKEYDOWN => (INPUT_KEY, set_key_type RAW_KEY_DOWN out_event)
    | PP_INPUTEVENT_TYPE_KEYDOWN => (INPUT_KEY, set_key_type KEY_DOWN out_event)
    | PP_INPUTEVENT_TYPE_KEYUP => (INPUT_KEY, set_key_type KEY_UP out_event)
    | PP_INPUTEVENT_TYPE_CHAR => (INPUT_CHARACTER, out_event)
    | PP_INPUTEVENT_TYPE_UNHANDLED => (type0, out_event)
    end in
  let out_event := set_type type out_event in
  let out_event := set_modifiers (GetModifiers in_event) out_event in
  match type with
  | INPUT_MOUSE =>
      set_mouse
        {| mouse_type := mouse_type (mouse out_event);
           mouse_button :=
             match GetButton in_event with
             | PP_INPUTEVENT_MOUSEBUTTON_NONE => MOUSE_NONE
             | PP_INPUTEVENT_MOUSEBUTTON_LEFT => MOUSE_LEFT
             | PP_INPUTEVENT_MOUSEBUTTON_MIDDLE => MOUSE_MIDDLE
             | PP_INPUTEVENT_MOUSEBUTTON_RIGHT => MOUSE_RIGHT
             end;
           mouse_x := fst (GetPosition in_event);
           mouse_y := snd (GetPosition in_event);
           mouse_movement_x := fst (GetMovement in_event);
           mouse_movement_y := snd (GetMovement in_event) |} out_event
  | INPUT_WHEEL =>
      set_wheel
        {| wheel_delta_x := fst (GetDelta in_event);
           wheel_delta_y := snd (GetDelta in_event);
           wheel_ticks_x := fst (GetTicks in_event);
           wheel_ticks_y := snd (GetTicks in_event);
           wheel_scroll_by_page := GetScrollByPage in_event |} out_event
  | INPUT_KEY => set_key_code (GetKeyCode in_event) out_event
  | INPUT_CHARACTER =>
      set_character
        {| character_text :=
             strncpy (character_text (character out_event))
                     (GetCharacterText in_event) 5 |} out_event
  end.

(** ** The event queue and the persistent state *)

Section InputState.

(** [KEY_CODE_MAX] is a constant of Input.h, which is not among the sources:
    the bridge is modelled for any value of it. *)
Variable KEY_CODE_MAX : N.

(** The globals of Input.cpp.  The mutex and the condition variable guard
    the queue and hold no data; calls are modelled one at a time. *)
Record Globals := {
  g_InputEventQueue : list InputEvent;
  g_MouseX : Z;
  g_MouseY : Z;
  g_MouseButton : list bool;
  g_Keys : list bool }.

(** Objects of static storage are zero-initialised. *)
Definition initial_Globals : Globals :=
  {| g_InputEventQueue := [];
     g_MouseX := 0;
     g_MouseY := 0;
     g_MouseButton := replicate MOUSE_BUTTON_MAX false;
     g_Keys := replicate (N.to_nat KEY_CODE_MAX) false |}.

Definition set_queue (q : list InputEvent) (g : Globals) : Globals :=
  {| g_InputEventQueue := q; g_MouseX := g_MouseX g; g_MouseY := g_MouseY g;
     g_MouseButton := g_MouseButton g; g_Keys := g_Keys g |}.
Definition set_mouse_position (x y : Z) (g : Globals) : Globals :=
  {| g_InputEventQueue := g_InputEventQueue g; g_MouseX := x; g_MouseY := y;
     g_MouseButton := g_MouseButton g; g_Keys := g_Keys g |}.
Definition set_mouse_button (b : MouseButton) (v : bool) (g : Globals) : Globals :=
  {| g_InputEventQueue := g_InputEventQueue g; g_MouseX := g_MouseX g;
     g_MouseY := g_MouseY g;
     g_MouseButton := <[MouseButton_value b := v]> (g_MouseButton g);
     g_Keys := g_Keys g |}.
Definition set_key_state (code : N) (v : bool) (g : Globals) : Globals :=
  {| g_InputEventQueue := g_InputEventQueue g; g_MouseX := g_MouseX g;
     g_MouseY := g_MouseY g; g_MouseButton := g_MouseButton g;
     g_Keys := <[N.to_nat code := v]> (g_Keys g) |}.

Definition GetMouseX (g : Globals) : Z := g_MouseX g.
Definition GetMouseY (g : Globals) : Z := g_MouseY g.

Definition IsMouseButtonPressed (button : MouseButton) (g : Globals) : bool :=
  if (MouseButton_value button <=? MouseButton_value MOUSE_NONE)%nat
     || (MOUSE_BUTTON_MAX <=? MouseButton_value button)%nat
  then false
  else default false (g_MouseButton g !! MouseButton_value button).

Definition IsKeyPressed (code : N) (g : Globals) : bool :=
  if (KEY_CODE_MAX <=? code)%N then false
  else default false (g_Keys g !! N.to_nat code).

Definition UpdateInputState (event : InputEvent) (g : Globals) : Globals :=
  match type event with
  | INPUT_MOUSE =>
      let g := set_mouse_position (mouse_x (mouse event)) (mouse_y (mouse event)) g in
      match mouse_type (mouse event) with
      | MOUSE_DOWN => set_mouse_button (mouse_button (mouse event)) true g
      | MOUSE_UP => set_mouse_button (mouse_button (mouse event)) false g
      | _ => g
      end
  | INPUT_KEY =>
      match key_type (key event) with
      | KEY_DOWN =>
          if (key_code (key event) <? KEY_CODE_MAX)%N
          then set_key_state (key_code (key event)) true g else g
      | KEY_UP =>
          if (key_code (key event) <? KEY_CODE_MAX)%N
          then set_key_state (key_code (key event)) false g else g
      | _ => g
      end
  | _ => g
  end.

(** What the storage of an automatic variable holds before it is assigned:
    the local [type] of [ConvertEvent] and the local [converted_event] of
    [EnqueueEvent]. *)
Record Indeterminate := {
  indeterminate_type : InputType;
  indeterminate_event : InputEvent }.

(** The event [EnqueueEvent] converts the host event to. *)
Definition converted (event : pp_InputEvent) (stack : Indeterminate) : InputEvent :=
  ConvertEvent event (indeterminate_type stack) (indeterminate_event stack).

Definition EnqueueEvent (event : pp_InputEvent) (stack : Indeterminate)
    (g : Globals) : Globals :=
  let converted_event := converted event stack in
  let g := UpdateInputState converted_event g in
  set_queue (g_InputEventQueue g ++ [converted_event]) g.

(** [DequeueEvent(out_event)]: the returned flag, what [*out_event] holds
    afterwards, and the globals. *)
Definition DequeueEvent (out_event : InputEvent) (g : Globals)
    : bool * InputEvent * Globals :=
  match g_InputEventQueue g with
  | [] => (false, out_event, g)
  | front :: rest => (true, front, set_queue rest g)
  end.

(** A value-initialised [InputEvent], what [std::vector::resize] appends. *)
Definition InputEvent_zero : InputEvent :=
  {| type := INPUT_MOUSE; modifiers := 0%N;
     mouse := {| mouse_type := MOUSE_DOWN; mouse_button := MOUSE_NONE;
                 mouse_x := 0; mouse_y := 0;
                 mouse_movement_x := 0; mouse_movement_y := 0 |};
     wheel := {| wheel_delta_x := 0%N; wheel_delta_y := 0%N;
                 wheel_ticks_x := 0%N; wheel_ticks_y := 0%N;
                 wheel_scroll_by_page := false |};
     key := {| key_type := RAW_KEY_DOWN; key_code := 0%N |};
     character := {| character_text := replicate CHARACTER_TEXT_CAPACITY zero |} |}.

(** [v.resize(n)]: truncates, or appends value-initialised elements. *)
Definition vector_resize (n : nat) (v : list InputEvent) : list InputEvent :=
  take n v ++ replicate (n - length v) InputEvent_zero.

(** [std::copy(first, last, dst.begin())]: overwrites the leading elements
    of [dst], which has room for them wherever the bridge calls it. *)
Definition std_copy (src dst : list InputEvent) : list InputEvent :=
  src ++ drop (length src) dst.

(** [DequeueAllEvents(out_events)]: what [*out_events] holds afterwards, and
    the globals. *)
Definition DequeueAllEvents (out_events : list InputEvent) (g : Globals)
    : list InputEvent * Globals :=
  let out_events := vector_resize (length (g_InputEventQueue g)) out_events in
  let out_events := std_copy (g_InputEventQueue g) out_events in
  (out_events, set_queue [] g).

(** The calls a client makes, for runs of the bridge. *)
Inductive Call :=
  | CallEnqueueEvent (event : pp_InputEvent) (stack : Indeterminate)
  | CallDequeueEvent (out_event : InputEvent)
  | CallDequeueAllEvents (out_events : list InputEvent).

Definition call (c : Call) (g : Globals) : Globals :=
  match c with
  | CallEnqueueEvent event stack => EnqueueEvent event stack g
  | CallDequeueEvent out_event => snd (DequeueEvent out_event g)
  | CallDequeueAllEvents out_events => snd (DequeueAllEvents out_events g)
  end.

(** The globals after a run of calls, first call first. *)
Definition run (cs : list Call) (g : Globals) : Globals :=
  foldl (fun g c => call c g) g cs.

(** The events a run enqueues, in the order of the calls. *)
Fixpoint enqueued (cs : list Call) : list InputEvent :=
  match cs with
  | [] => []
  | CallEnqueueEvent event stack :: cs => converted event stack :: enqueued cs
  | _ :: cs => enqueued cs
  end.

(** [n] calls of [DequeueEvent] in a row: the flags and events they return,
    and the globals after the last. *)
Fixpoint DequeueEvent_times (n : nat) (out_event : InputEvent) (g : Globals)
    : list (bool * InputEvent) * Globals :=
  match n with
  | O => ([], g)
  | S n' =>
      let '(has_event, out_event, g) := DequeueEvent out_event g in
      let '(results, g) := DequeueEvent_times n' out_event g in
      ((has_event, out_event) :: results, g)
  end.

(** The arrays keep their sizes. *)
Definition sized (g : Globals) : Prop :=
  length (g_Keys g) = N.to_nat KEY_CODE_MAX /\
  length (g_MouseButton g) = MOUSE_BUTTON_MAX.

(** The events a call hands to its caller: the event [DequeueEvent] stores
    in [*out_event] when it returns true, and the events [DequeueAllEvents]
    leaves in [*out_events]. *)
Definition handed_over (c : Call) (g : Globals) : list InputEvent :=
  match c with
  | CallEnqueueEvent _ _ => []
  | CallDequeueEvent out_event =>
      let '(has_event, out_event, _) := DequeueEvent out_event g in
      if has_event then [out_event] else []
  | CallDequeueAllEvents out_events => fst (DequeueAllEvents out_events g)
  end.

(** The events a run of calls hands to its callers, in the order of the
    calls. *)
Fixpoint dequeued (cs : list Call) (g : Globals) : list InputEvent :=
  match cs with
  | [] => []
  | c :: cs' => handed_over c g ++ dequeued cs' (call c g)
  end.

End InputState.

(** ** Vocabulary of the properties *)

(** [e] is a down or up event of the key [code]. *)
Definition key_down_up (code : N) (e : InputEvent) : bool :=
  match type e, key_type (key e) with
  | INPUT_KEY, (KEY_DOWN | KEY_UP) => (key_code (key e) =? code)%N
  | _, _ => false
  end.

(** [e] is a down or up event of the mouse button [button]. *)
Definition button_down_up (button : MouseButton) (e : InputEvent) : bool :=
  match type e, mouse_type (mouse e) with
  | INPUT_MOUSE, (MOUSE_DOWN | MOUSE_UP) =>
      bool_decide (MouseButton_value (mouse_button (mouse e)) = MouseButton_value button)
  | _, _ => false
  end.

Definition is_mouse (e : InputEvent) : bool :=
  match type e with INPUT_MOUSE => true | _ => false end.

Definition is_key_down (e : InputEvent) : bool :=
  match key_type (key e) with KEY_DOWN => true | _ => false end.

Definition is_mouse_down (e : InputEvent) : bool :=
  match mouse_type (mouse e) with MOUSE_DOWN => true | _ => false end.

(** [e] is the most recent event of [events] that satisfies [p]. *)
Definition most_recent (p : InputEvent -> bool) (events : list InputEvent)
    (e : InputEvent) : Prop :=
  exists earlier later,
    events = earlier ++ e :: later /\ p e = true /\
    Forall (fun e' => p e' = false) later.

(** No event of [events] satisfies [p]. *)
Definition never (p : InputEvent -> bool) (events : list InputEvent) : Prop :=
  Forall (fun e' => p e' = false) events.

(** The length of the C string held in [bytes]: the bytes before the first
    NUL. *)
Fixpoint strlen (bytes : list ascii) : nat :=
  match bytes with
  | [] => O
  | c :: bytes' => if Ascii.eqb c zero then O else S (strlen bytes')
  end.

(** ** Example inputs *)

(** A host event of the given type, key code, button, position and text. *)
Definition host_event (t : PP_InputEvent_Type) (code : N)
    (button : PP_InputEvent_MouseButton) (position : Z * Z) (text : string)
    : pp_InputEvent :=
  {| GetType := t; GetModifiers := 0%N; GetPosition := position;
     GetMovement := (0, 0); GetButton := button;
     GetDelta := (0%N, 0%N); GetTicks := (0%N, 0%N);
     GetScrollByPage := false; GetKeyCode := code;
     GetCharacterText := text |}.

(** A character event whose text has five bytes. *)
Definition char_abcde : pp_InputEvent :=
  host_event PP_INPUTEVENT_TYPE_CHAR 0%N PP_INPUTEVENT_MOUSEBUTTON_NONE (0, 0)
    "abcde".

(** Automatic storage that happens to hold zeroes. *)
Definition zeroed_stack : Indeterminate :=
  {| indeterminate_type := INPUT_MOUSE; indeterminate_event := InputEvent_zero |}.

(** Automatic storage that happens to hold the tag [INPUT_KEY] and the key
    sub-type [KEY_DOWN]. *)
Definition key_down_stack : Indeterminate :=
  {| indeterminate_type := INPUT_KEY;
     indeterminate_event := set_key_type KEY_DOWN InputEvent_zero |}.

(** The key 65 goes down, the event is dequeued, then the left button goes
    down at (3, 4). *)
Definition example_calls : list Call :=
  [CallEnqueueEvent
     (host_event PP_INPUTEVENT_TYPE_KEYDOWN 65%N PP_INPUTEVENT_MOUSEBUTTON_NONE
        (0, 0) EmptyString) zeroed_stack;
   CallDequeueEvent InputEvent_zero;
   CallEnqueueEvent
     (host_event PP_INPUTEVENT_TYPE_MOUSEDOWN 0%N PP_INPUTEVENT_MOUSEBUTTON_LEFT
        (3, 4) EmptyString) zeroed_stack].

End ppapi.

(* ===================================================================== *)
(** * Part II: namespace love::graphics::gles2, class Shader              *)
(* ===================================================================== *)

Module gles2.

(** ** Declarations of Shader.h, Context.h and the GL headers *)

(** Modelled from the spec: Shader.h is not among the sources.  The stages
    are "vertex, pixel/fragment"; [compileCode] has a [default] branch for
    any other value of the enum, which [TYPE_MAX_ENUM] stands for. *)
Inductive ShaderType := TYPE_VERTEX | TYPE_PIXEL | TYPE_MAX_ENUM.

#[global] Instance ShaderType_eq_dec : EqDecision ShaderType.
Proof. solve_decision. Defined.

Definition ShaderType_value (t : ShaderType) : nat :=
  match t with TYPE_VERTEX => 0 | TYPE_PIXEL => 1 | TYPE_MAX_ENUM => 2 end%nat.

Definition ShaderType_of_value (n : nat) : ShaderType :=
  match n with O => TYPE_VERTEX | S O => TYPE_PIXEL | _ => TYPE_MAX_ENUM end.

#[global] Instance ShaderType_countable : Countable ShaderType.
Proof.
  apply (inj_countable' ShaderType_value ShaderType_of_value).
  by intros [].
Defined.

(** [Shader::ShaderSources] is [std::map<ShaderType, std::string>]. *)
Abbreviation ShaderSources := (gmap ShaderType string).

(** The keys of a [ShaderSources] in the order an iterator visits them. *)
Definition ShaderType_ascending : list ShaderType :=
  [TYPE_VERTEX; TYPE_PIXEL; TYPE_MAX_ENUM].

(** Modelled from the spec: the "generic-vertex-attribute binding slots
    (position/color/texcoord)" of Context.h. *)
Inductive VertexAttribType := ATTRIB_VERTEX | ATTRIB_COLOR | ATTRIB_TEXCOORD.

Inductive GLenum_shader := GL_VERTEX_SHADER | GL_FRAGMENT_SHADER.

Inductive GLenum_error := GL_NO_ERROR | GL_INVALID_ENUM | GL_OTHER_ERROR.

(** [love::Exception(fmt, ...)]: the format string and its arguments. *)
Inductive Arg := ArgInt (z : Z) | ArgStr (s : string).

Record Exception := {
  what_format : string;
  what_args : list Arg }.

(** The commands the shader issues to the GL driver and to the rendering
    context ([bindTextureToUnit], [setActiveTextureUnit]).  Queries are not
    commands: their answers are in [Driver]. *)
Inductive GLCall :=
  | glCreateShader (glshadertype : GLenum_shader)
  | glShaderSource (shaderid : N) (src : string)
  | glCompileShader (shaderid : N)
  | glDeleteShader (shaderid : N)
  | glCreateProgram
  | glAttachShader (program shaderid : N)
  | glBindAttribLocation (program : N) (index : Z) (name : string)
  | glLinkProgram (program : N)
  | glDeleteProgram (program : N)
  | glUseProgram (program : N)
  | glUniform1fv (location count : Z) (vec : list N)
  | glUniform2fv (location count : Z) (vec : list N)
  | glUniform3fv (location count : Z) (vec : list N)
  | glUniform4fv (location count : Z) (vec : list N)
  | glUniformMatrix2fv (location count : Z) (m : list N)
  | glUniformMatrix3fv (location count : Z) (m : list N)
  | glUniformMatrix4fv (location count : Z) (m : list N)
  | glUniform1i (location v : Z)
  | bindTextureToUnit (texture : N) (textureunit : Z) (restoreprev : bool)
  | setActiveTextureUnit (textureunit : Z).

(** What the driver and the context answer during one call of a method. *)
Record Driver := {
  answer_glCreateShader : GLenum_shader -> N;
  answer_glGetError : GLenum_error;
  answer_COMPILE_STATUS : N -> bool;
  answer_ShaderInfoLog : N -> string;
  answer_glCreateProgram : N;
  answer_LINK_STATUS : N -> bool;
  answer_ProgramInfoLog : N -> string;
  answer_glGetUniformLocation : N -> string -> Z;
  answer_getVertexAttribID : VertexAttribType -> Z;
  answer_isGenericVertexAttrib : VertexAttribType -> bool }.

(** ** The objects *)

(** The data members of a [Shader]. *)
Record Shader := {
  shaderSources : ShaderSources;
  program : N;
  uniforms : gmap string Z;
  textureUnitPool : gmap string Z;
  activeTextureUnits : list N;
  vertexAttribNames : list (VertexAttribType * string) }.

Definition set_shaderSources (v : ShaderSources) (s : Shader) : Shader :=
  {| shaderSources := v; program := program s; uniforms := uniforms s;
     textureUnitPool := textureUnitPool s;
     activeTextureUnits := activeTextureUnits s;
     vertexAttribNames := vertexAttribNames s |}.
Definition set_program (v : N) (s : Shader) : Shader :=
  {| shaderSources := shaderSources s; program := v; uniforms := uniforms s;
     textureUnitPool := textureUnitPool s;
     activeTextureUnits := activeTextureUnits s;
     vertexAttribNames := vertexAttribNames s |}.
Definition set_uniforms (v : gmap string Z) (s : Shader) : Shader :=
  {| shaderSources := shaderSources s; program := program s; uniforms := v;
     textureUnitPool := textureUnitPool s;
     activeTextureUnits := activeTextureUnits s;
     vertexAttribNames := vertexAttribNames s |}.
Definition set_textureUnitPool (v : gmap string Z) (s : Shader) : Shader :=
  {| shaderSources := shaderSources s; program := program s;
     uniforms := uniforms s; textureUnitPool := v;
     activeTextureUnits := activeTextureUnits s;
     vertexAttribNames := vertexAttribNames s |}.
Definition set_activeTextureUnits (v : list N) (s : Shader) : Shader :=
  {| shaderSources := shaderSources s; program := program s;
     uniforms := uniforms s; textureUnitPool := textureUnitPool s;
     activeTextureUnits := v;
     vertexAttribNames := vertexAttribNames s |}.
Definition set_vertexAttribNames (v : list (VertexAttribType * string))
    (s : Shader) : Shader :=
  {| shaderSources := shaderSources s; program := program s;
     uniforms := uniforms s; textureUnitPool := textureUnitPool s;
     activeTextureUnits := activeTextureUnits s;
     vertexAttribNames := v |}.

(** The process: the [Shader] objects alive, by address; the static members
    of [Shader]; what the context reports as its number of texture units (a
    count: small and not negative, so that subtracting one from it does not
    overflow); and the commands issued so far, oldest first. *)
Record World := {
  objects : gmap nat Shader;
  currentShader : option nat;
  defaultShader : option nat;
  defaultSources : ShaderSources;
  maxTextureUnits : nat;
  textureCounters : list Z;
  getNumTextureUnits : Z;
  issued : list GLCall }.

Definition set_objects (v : gmap nat Shader) (w : World) : World :=
  {| objects := v; currentShader := currentShader w;
     defaultShader := defaultShader w; defaultSources := defaultSources w;
     maxTextureUnits := maxTextureUnits w;
     textureCounters := textureCounters w;
     getNumTextureUnits := getNumTextureUnits w; issued := issued w |}.
Definition set_currentShader (v : option nat) (w : World) : World :=
  {| objects := objects w; currentShader := v;
     defaultShader := defaultShader w; defaultSources := defaultSources w;
     maxTextureUnits := maxTextureUnits w;
     textureCounters := textureCounters w;
     getNumTextureUnits := getNumTextureUnits w; issued := issued w |}.
Definition set_defaultShader (v : option nat) (w : World) : World :=
  {| objects := objects w; currentShader := currentShader w;
     defaultShader := v; defaultSources := defaultSources w;
     maxTextureUnits := maxTextureUnits w;
     textureCounters := textureCounters w;
     getNumTextureUnits := getNumTextureUnits w; issued := issued w |}.
Definition set_defaultSources (v : ShaderSources) (w : World) : World :=
  {| objects := objects w; currentShader := currentShader w;
     defaultShader := defaultShader w; defaultSources := v;
     maxTextureUnits := maxTextureUnits w;
     textureCounters := textureCounters w;
     getNumTextureUnits := getNumTextureUnits w; issued := issued w |}.
Definition set_maxTextureUnits (v : nat) (w : World) : World :=
  {| objects := objects w; currentShader := currentShader w;
     defaultShader := defaultShader w; defaultSources := defaultSources w;
     maxTextureUnits := v;
     textureCounters := textureCounters w;
     getNumTextureUnits := getNumTextureUnits w; issued := issued w |}.
Definition set_textureCounters (v : list Z) (w : World) : World :=
  {| objects := objects w; currentShader := currentShader w;
     defaultShader := defaultShader w; defaultSources := defaultSources w;
     maxTextureUnits := maxTextureUnits w;
     textureCounters := v;
     getNumTextureUnits := getNumTextureUnits w; issued := issued w |}.
Definition set_issued (v : list GLCall) (w : World) : World :=
  {| objects := objects w; currentShader := currentShader w;
     defaultShader := defaultShader w; defaultSources := defaultSources w;
     maxTextureUnits := maxTextureUnits w;
     textureCounters := textureCounters w;
     getNumTextureUnits := getNumTextureUnits w; issued := v |}.

(** The process at start-up: no object, the statics as their definitions
    initialise them, nothing issued. *)
Definition initial_World (numTextureUnits : Z) : World :=
  {| objects := ∅; currentShader := None; defaultShader := None;
     defaultSources := ∅; maxTextureUnits := 0; textureCounters := [];
     getNumTextureUnits := numTextureUnits; issued := [] |}.

(** ** Outcomes of a call *)

(** A call returns, throws a [love::Exception], or has undefined behaviour
    (a member access through a pointer to no object, a vector access outside
    its bounds, a signed overflow). *)
Inductive Result (A : Type) :=
  | Ok (a : A) (w : World)
  | Throw (e : Exception) (w : World)
  | Undefined.
Arguments Ok {A} a w.
Arguments Throw {A} e w.
Arguments Undefined {A}.

Definition M (A : Type) : Type := World -> Result A.

#[global] Instance M_ret : MRet M := fun A a w => Ok a w.
#[global] Instance M_bind : MBind M := fun A B k m w =>
  match m w with
  | Ok a w => k a w
  | Throw e w => Throw e w
  | Undefined => Undefined
  end.

Definition throw {A} (fmt : string) (args : list Arg) : M A :=
  fun w => Throw {| what_format := fmt; what_args := args |} w.
Definition undefined {A} : M A := fun _ => Undefined.
Definition gets {A} (f : World -> A) : M A := fun w => Ok (f w) w.
Definition modify (f : World -> World) : M unit := fun w => Ok tt (f w).
Definition when (b : bool) (m : M unit) : M unit := if b then m else mret tt.

(** A value that exists only when the behaviour is defined. *)
Definition defined {A} (o : option A) : M A :=
  match o with Some a => mret a | None => undefined end.

(** [*this], and an assignment to members of [*this]. *)
Definition deref (this : nat) : M Shader :=
  fun w => defined (objects w !! this) w.
Definition assign (this : nat) (f : Shader -> Shader) : M unit :=
  s ← deref this; modify (fun w => set_objects (<[this := f s]> (objects w)) w).

Definition emit (c : GLCall) : M unit :=
  modify (fun w => set_issued (issued w ++ [c]) w).
Definition emits (cs : list GLCall) : M unit :=
  modify (fun w => set_issued (issued w ++ cs) w).

(** ** int and std::vector *)

Definition INT_MIN : Z := - 2 ^ 31.
Definition INT_MAX : Z := 2 ^ 31 - 1.

(** An [int] result; none when it overflows. *)
Definition int (z : Z) : option Z :=
  if (INT_MIN <=? z) && (z <=? INT_MAX) then Some z else None.

(** [v[i]] for an [int] index converted to [size_t]; none outside the
    bounds. *)
Definition vector_at {A} (v : list A) (i : Z) : option A :=
  if i <? 0 then None else v !! Z.to_nat i.

(** [std::find(v.begin(), v.end(), x)] as the distance of the result from
    [v.begin()]; the distance of [v.end()] when no element equals [x]. *)
Fixpoint std_find {A} `{EqDecision A} (v : list A) (x : A) : nat :=
  match v with
  | [] => O
  | y :: v' => if decide (y = x) then O else S (std_find v' x)
  end.

(** ** Shader::attach, Shader::detach and the TemporaryAttacher *)

(** The body of the loop of [attach] from index [i] on: one
    [bindTextureToUnit] per unit the shader has a texture recorded for. *)
Fixpoint rebind_from (i : nat) (active : list N) : list GLCall :=
  match active with
  | [] => []
  | texture :: active' =>
      (if (0 <? texture)%N
       then [bindTextureToUnit texture (Z.of_nat i + 1) false] else [])
      ++ rebind_from (S i) active'
  end.

Definition attach (this : nat) (temporary : bool) : M unit :=
  s ← deref this;
  cur ← gets currentShader;
  when (bool_decide (cur ≠ Some this)) (emit (glUseProgram (program s)));;
  modify (set_currentShader (Some this));;
  when (negb temporary)
    (emits (rebind_from 0 (activeTextureUnits s));;
     emit (setActiveTextureUnit 0)).

Definition detach : M unit :=
  dflt ← gets defaultShader;
  match dflt with
  | Some d => attach d false
  | None => emit (glUseProgram 0);; modify (set_currentShader None)
  end.

(** [~TemporaryAttacher()]. *)
Definition TemporaryAttacher_dtor (prevShader : option nat) : M unit :=
  match prevShader with
  | Some p => attach p false
  | None => detach
  end.

(** A function body that declares [TemporaryAttacher attacher(shader)] first:
    the constructor runs, then the body, then the destructor, also when the
    body throws. *)
Definition with_TemporaryAttacher {A} (shader : nat) (body : M A) : M A :=
  fun w =>
    let prevShader := currentShader w in
    match attach shader true w with
    | Ok _ w =>
        match body w with
        | Ok a w => (TemporaryAttacher_dtor prevShader;; mret a) w
        | Throw e w =>
            match TemporaryAttacher_dtor prevShader w with
            | Ok _ w => Throw e w
            | _ => Undefined
            end
        | Undefined => Undefined
        end
    | Throw e w => Throw e w
    | Undefined => Undefined
    end.

(** ** Uniform locations and texture units *)

Definition getUniformLocation (this : nat) (name : string) (unsafe : bool)
    (drv : Driver) : M Z :=
  s ← deref this;
  let query : M Z :=
    let location := answer_glGetUniformLocation drv (program s) name in
    if (location =? -1) && negb unsafe
    then throw "Cannot get location of shader variable `%s'.
A common error is to define but not use the variable." [ArgStr name]
    else
      assign this (fun s => set_uniforms (<[name := location]> (uniforms s)) s);;
      mret location in
  match uniforms s !! name with
  | Some location =>
      if negb (location =? -1) || unsafe then mret location else query
  | None => query
  end.

Definition getTextureUnit (this : nat) (name : string) : M Z :=
  s ← deref this;
  match textureUnitPool s !! name with
  | Some textureunit => mret textureunit
  | None =>
      counters ← gets textureCounters;
      let nextfreeunit := std_find counters 0 in
      textureunit ←
        (if bool_decide (nextfreeunit ≠ length counters)
         then mret (Z.of_nat nextfreeunit + 1)
         else
           let nexttexunit := std_find (activeTextureUnits s) 0%N in
           if bool_decide (nexttexunit = length (activeTextureUnits s))
           then throw "No more texture units available for shader." []
           else mret (Z.of_nat nexttexunit + 1));
      assign this (fun s =>
        set_textureUnitPool (<[name := textureunit]> (textureUnitPool s)) s);;
      mret textureunit
  end.

(** The body of [checkSetUniformError] is compiled out ([#if 0]). *)
Definition checkSetUniformError : M unit := mret tt.

Definition hasUniform (this : nat) (name : string) (drv : Driver) : M bool :=
  location ← getUniformLocation this name true drv;
  mret (0 <=? location).

(** ** Sending values *)

Definition sendFloat (this : nat) (name : string) (size : Z) (vec : list N)
    (count : Z) (drv : Driver) : M unit :=
  with_TemporaryAttacher this (
    location ← getUniformLocation this name false drv;
    if (size <? 1) || (4 <? size)
    then throw "Invalid variable size: %d (expected 1-4)." [ArgInt size]
    else
      emit (if size =? 4 then glUniform4fv location count vec
            else if size =? 3 then glUniform3fv location count vec
            else if size =? 2 then glUniform2fv location count vec
            else glUniform1fv location count vec);;
      checkSetUniformError).

Definition sendMatrix (this : nat) (name : string) (size : Z) (m : list N)
    (count : Z) (drv : Driver) : M unit :=
  with_TemporaryAttacher this (
    location ← getUniformLocation this name false drv;
    if (size <? 2) || (4 <? size)
    then throw "Invalid matrix size: %dx%d (can only set 2x2, 3x3 or 4x4 matrices)."
               [ArgInt size; ArgInt size]
    else
      emit (if size =? 4 then glUniformMatrix4fv location count m
            else if size =? 3 then glUniformMatrix3fv location count m
            else glUniformMatrix2fv location count m);;
      checkSetUniformError).

Definition sendTexture (this : nat) (name : string) (texture : N)
    (drv : Driver) : M unit :=
  with_TemporaryAttacher this (
    location ← getUniformLocation this name false drv;
    textureunit ← getTextureUnit this name;
    emit (bindTextureToUnit texture textureunit false);;
    emit (glUniform1i location textureunit);;
    emit (setActiveTextureUnit 0);;
    checkSetUniformError;;
    s ← deref this;
    bound ← defined (vector_at (activeTextureUnits s) (textureunit - 1));
    when (bool_decide (bound = 0%N))
      (counters ← gets textureCounters;
       counter ← defined (vector_at counters (textureunit - 1));
       counter ← defined (int (counter + 1));
       modify (set_textureCounters
                 (<[Z.to_nat (textureunit - 1) := counter]> counters)));;
    assign this (fun s =>
      set_activeTextureUnits
        (<[Z.to_nat (textureunit - 1) := texture]> (activeTextureUnits s)) s)).

(** [sendImage] and [sendCanvas] pass [getTextureName()] of their argument. *)
Definition sendImage (this : nat) (name : string) (image_getTextureName : N)
    (drv : Driver) : M unit :=
  sendTexture this name image_getTextureName drv.

Definition sendCanvas (this : nat) (name : string) (canvas_getTextureName : N)
    (drv : Driver) : M unit :=
  sendTexture this name canvas_getTextureName drv.

(** ** Compiling, linking, loading and unloading *)

Definition compileCode (type : ShaderType) (code : string) (drv : Driver)
    : M N :=
  let compile (glshadertype : GLenum_shader) (shadertypename : string) : M N :=
    (* [while (glGetError() != GL_NO_ERROR);] empties the error queue *)
    emit (glCreateShader glshadertype);;
    let shaderid := answer_glCreateShader drv glshadertype in
    if (shaderid =? 0)%N then
      match answer_glGetError drv with
      | GL_INVALID_ENUM =>
          throw "Cannot create %s shader object: %s shaders not supported."
                [ArgStr shadertypename; ArgStr shadertypename]
      | _ => throw "Cannot create %s shader object." [ArgStr shadertypename]
      end
    else
      emit (glShaderSource shaderid code);;
      emit (glCompileShader shaderid);;
      if negb (answer_COMPILE_STATUS drv shaderid) then
        emit (glDeleteShader shaderid);;
        throw "Cannot compile %s shader code:
%s" [ArgStr shadertypename; ArgStr (answer_ShaderInfoLog drv shaderid)]
      else mret shaderid in
  match type with
  | TYPE_VERTEX => compile GL_VERTEX_SHADER "vertex"
  | TYPE_PIXEL => compile GL_FRAGMENT_SHADER "pixel"
  | _ => throw "Cannot create shader object: unknown shader type." []
  end.

Definition getWarnings (this : nat) (drv : Driver) : M string :=
  s ← deref this;
  mret (answer_ProgramInfoLog drv (program s)).

Definition bindVertexAttribs (this : nat) (drv : Driver) : M unit :=
  s ← deref this;
  if (program s =? 0)%N then mret tt
  else
    emits (flat_map (fun '(attrib, name) =>
             let glattrib := answer_getVertexAttribID drv attrib in
             if (0 <=? glattrib) && answer_isGenericVertexAttrib drv attrib
             then [glBindAttribLocation (program s) glattrib name] else [])
           (vertexAttribNames s)).

Definition createProgram (this : nat) (shaderids : list N) (drv : Driver)
    : M unit :=
  emit glCreateProgram;;
  let program := answer_glCreateProgram drv in
  assign this (set_program program);;
  if (program =? 0)%N then throw "Cannot create shader program object." []
  else
    emits (map (glAttachShader program) shaderids);;
    bindVertexAttribs this drv;;
    emit (glLinkProgram program);;
    emits (map glDeleteShader shaderids);;
    if negb (answer_LINK_STATUS drv program) then
      warnings ← getWarnings this drv;
      emit (glDeleteProgram program);;
      throw "Cannot link shader program object:
%s" [ArgStr warnings]
    else mret tt.

(** The loop of [loadVolatile] over the sources still to compile. *)
Fixpoint compile_sources (sources : list (ShaderType * string)) (drv : Driver)
    : M (list N) :=
  match sources with
  | [] => mret []
  | (type, code) :: sources' =>
      shaderid ← compileCode type code drv;
      shaderids ← compile_sources sources' drv;
      mret (shaderid :: shaderids)
  end.

(** The entries of a [ShaderSources] from [begin()] to [end()]. *)
Definition entries (sources : ShaderSources) : list (ShaderType * string) :=
  omap (fun type => pair type <$> sources !! type) ShaderType_ascending.

Definition loadVolatile (this : nat) (drv : Driver) : M bool :=
  max ← gets maxTextureUnits;
  assign this (set_activeTextureUnits (replicate max 0%N));;
  s ← deref this;
  shaderids ← compile_sources (entries (shaderSources s)) drv;
  if bool_decide (shaderids = [])
  then throw "Cannot create shader: no valid source code!" []
  else
    createProgram this shaderids drv;;
    cur ← gets currentShader;
    when (bool_decide (cur = Some this))
      (modify (set_currentShader None);; attach this false);;
    mret true.

(** The loop of [unloadVolatile] from index [i] on; none when it accesses
    [textureCounters] outside its bounds or overflows. *)
Fixpoint release_from (i : nat) (active : list N) (counters : list Z)
    : option (list Z) :=
  match active with
  | [] => Some counters
  | texture :: active' =>
      if (0 <? texture)%N then
        counter ← counters !! i;
        counter ← int (counter - 1);
        release_from (S i) active' (<[i := Z.max counter 0]> counters)
      else release_from (S i) active' counters
  end.

Definition unloadVolatile (this : nat) : M unit :=
  s ← deref this;
  cur ← gets currentShader;
  when (bool_decide (cur = Some this)) (emit (glUseProgram 0));;
  when (bool_decide (program s ≠ 0%N)) (emit (glDeleteProgram (program s)));;
  assign this (set_program 0%N);;
  counters ← gets textureCounters;
  counters ← defined (release_from 0 (activeTextureUnits s) counters);
  modify (set_textureCounters counters);;
  max ← gets maxTextureUnits;
  assign this (set_activeTextureUnits (replicate max 0%N));;
  assign this (set_uniforms ∅).

(** ** Construction and destruction *)

Definition checkCodeCompleteness (this : nat) : M unit :=
  s ← deref this;
  defaults ← gets defaultSources;
  match shaderSources s !! TYPE_VERTEX with
  | None =>
      match defaults !! TYPE_VERTEX with
      | Some code =>
          assign this (fun s =>
            set_shaderSources (<[TYPE_VERTEX := code]> (shaderSources s)) s)
      | None => throw "Cannot create shader: no default vertex shader code!" []
      end
  | Some _ => mret tt
  end;;
  s ← deref this;
  match shaderSources s !! TYPE_PIXEL with
  | None =>
      match defaults !! TYPE_PIXEL with
      | Some code =>
          assign this (fun s =>
            set_shaderSources (<[TYPE_PIXEL := code]> (shaderSources s)) s)
      | None => throw "Cannot create shader: no default pixel shader code!" []
      end
  | Some _ => mret tt
  end.

Definition setDefaultSources (sources : ShaderSources) : M unit :=
  if bool_decide (sources !! TYPE_VERTEX = None)
     || bool_decide (sources !! TYPE_PIXEL = None)
  then throw "Default shader sources need both vertex and pixel code." []
  else modify (set_defaultSources sources).

(** The members as the initialiser list and the default constructors leave
    them. *)
Definition Shader_members (sources : ShaderSources) : Shader :=
  {| shaderSources := sources; program := 0; uniforms := ∅;
     textureUnitPool := ∅; activeTextureUnits := [];
     vertexAttribNames := [] |}.

(** The body of the constructor. *)
Definition Shader_body (this : nat) (drv : Driver) : M unit :=
  s ← deref this;
  if bool_decide (shaderSources s = ∅)
  then throw "Cannot create shader: no source code!" []
  else
    n ← gets getNumTextureUnits;
    modify (set_maxTextureUnits (Z.to_nat (Z.max (n - 1) 0)));;
    max ← gets maxTextureUnits;
    counters ← gets textureCounters;
    when (length counters <? max)%nat
      (modify (set_textureCounters
                 (counters ++ replicate (max - length counters) 0)));;
    assign this (set_vertexAttribNames
      [(ATTRIB_VERTEX, "VertexPosition"); (ATTRIB_COLOR, "VertexColor");
       (ATTRIB_TEXCOORD, "VertexTexCoord")]);;
    checkCodeCompleteness this;;
    loadVolatile this drv;;
    mret tt.

(** [new (this) Shader(sources)]: the object is built in the storage at
    [this], which holds no object.  When the constructor throws, the members
    built so far are destroyed and no object exists. *)
Definition Shader_new (this : nat) (sources : ShaderSources) (drv : Driver)
    : M unit :=
  fun w =>
    match objects w !! this with
    | Some _ => Undefined
    | None =>
        let w := set_objects (<[this := Shader_members sources]> (objects w)) w in
        match Shader_body this drv w with
        | Ok _ w => Ok tt w
        | Throw e w => Throw e (set_objects (delete this (objects w)) w)
        | Undefined => Undefined
        end
    end.

(** [delete this]: the destructor, then the object is gone. *)
Definition Shader_delete (this : nat) : M unit :=
  _ ← deref this;
  cur ← gets currentShader;
  when (bool_decide (cur = Some this)) detach;;
  unloadVolatile this;;
  modify (fun w => set_objects (delete this (objects w)) w).

(** ** Static queries *)

(** [s.find(c)]: the position of the first [c] in [s]; none for [npos]. *)
Fixpoint string_find (c : ascii) (s : string) : option nat :=
  match s with
  | EmptyString => None
  | String c' s' => if Ascii.eqb c' c then Some O else S <$> string_find c s'
  end.

(** [getGLSLVersion()].  [answer_glGetString] is what
    [glGetString(GL_SHADING_LANGUAGE_VERSION)] answers: none for a null
    pointer, otherwise the C string it points to.  [substr(0, npos)] is the
    whole string. *)
Definition getGLSLVersion (answer_glGetString : option string) : string :=
  match answer_glGetString with
  | None => "0.0"
  | Some versionstring =>
      match string_find " " versionstring with
      | Some minorendpos => substring 0 minorendpos versionstring
      | None => versionstring
      end
  end.

Definition isSupported : bool := true.

(** ** Runs *)

(** The calls a client of the class makes.  [defaultShader] is a public
    static member that the graphics module assigns. *)
Inductive Call :=
  | CallNew (this : nat) (sources : ShaderSources) (drv : Driver)
  | CallDelete (this : nat)
  | CallLoadVolatile (this : nat) (drv : Driver)
  | CallUnloadVolatile (this : nat)
  | CallAttach (this : nat) (temporary : bool)
  | CallDetach
  | CallSendFloat (this : nat) (name : string) (size : Z) (vec : list N)
      (count : Z) (drv : Driver)
  | CallSendMatrix (this : nat) (name : string) (size : Z) (m : list N)
      (count : Z) (drv : Driver)
  | CallSendTexture (this : nat) (name : string) (texture : N) (drv : Driver)
  | CallGetTextureUnit (this : nat) (name : string)
  | CallHasUniform (this : nat) (name : string) (drv : Driver)
  | CallSetDefaultSources (sources : ShaderSources)
  | CallAssignDefaultShader (shader : option nat).

Definition forget {A} (m : M A) : M unit := m;; mret tt.

Definition call (c : Call) : M unit :=
  match c with
  | CallNew this sources drv => Shader_new this sources drv
  | CallDelete this => Shader_delete this
  | CallLoadVolatile this drv => forget (loadVolatile this drv)
  | CallUnloadVolatile this => unloadVolatile this
  | CallAttach this temporary => attach this temporary
  | CallDetach => detach
  | CallSendFloat this name size vec count drv =>
      sendFloat this name size vec count drv
  | CallSendMatrix this name size m count drv =>
      sendMatrix this name size m count drv
  | CallSendTexture this name texture drv => sendTexture this name texture drv
  | CallGetTextureUnit this name => forget (getTextureUnit this name)
  | CallHasUniform this name drv => forget (hasUniform this name drv)
  | CallSetDefaultSources sources => setDefaultSources sources
  | CallAssignDefaultShader shader => modify (set_defaultShader shader)
  end.

(** The state a call leaves, whether it returns or throws; none when its
    behaviour is undefined. *)
Definition after {A} (r : Result A) : option World :=
  match r with
  | Ok _ w => Some w
  | Throw _ w => Some w
  | Undefined => None
  end.

(** The states a process can be in: those that runs of calls with defined
    behaviour lead to from start-up. *)
Inductive reachable (numTextureUnits : Z) : World -> Prop :=
  | reachable_initial : reachable numTextureUnits (initial_World numTextureUnits)
  | reachable_call c w w' :
      reachable numTextureUnits w ->
      after (call c w) = Some w' ->
      reachable numTextureUnits w'.

(** The program the driver has in use: the argument of the last
    [glUseProgram] issued. *)
Fixpoint program_in_use (calls : list GLCall) : option N :=
  match calls with
  | [] => None
  | c :: calls' =>
      match program_in_use calls' with
      | Some p => Some p
      | None => match c with glUseProgram p => Some p | _ => None end
      end
  end.

(** ** Vocabulary of the properties *)

(** The state a run of calls leaves, first call first; none when the
    behaviour of one of them is undefined. *)
Fixpoint run (cs : list Call) (w : World) : option World :=
  match cs with
  | [] => Some w
  | c :: cs' => w' ← after (call c w); run cs' w'
  end.

(** The per-unit binding record and the name-to-unit assignment of every
    object alive. *)
Definition records (w : World) : gmap nat (list N) :=
  activeTextureUnits <$> objects w.
Definition pools (w : World) : gmap nat (gmap string Z) :=
  textureUnitPool <$> objects w.

(** The sources of every object alive. *)
Definition sources_of (w : World) : gmap nat ShaderSources :=
  shaderSources <$> objects w.

(** The record [active] holds a texture at index [i]. *)
Definition holds (i : nat) (active : list N) : Prop :=
  exists texture, active !! i = Some texture /\ texture <> 0%N.

#[global] Instance holds_dec i active : Decision (holds i active).
Proof.
  unfold holds. destruct (active !! i) as [texture|] eqn:E.
  - destruct (decide (texture = 0%N)) as [->|Hne].
    + right. by intros (t & [= <-] & ?).
    + left. by exists texture.
  - right. by intros (t & [=] & ?).
Defined.

(** The number of objects alive whose record holds a texture at index [i]. *)
Definition users (i : nat) (rs : gmap nat (list N)) : nat :=
  size (filter (fun kv => holds i kv.2) rs).

(** [i] is the lowest index at which [v] holds [x]. *)
Definition lowest {A} (x : A) (v : list A) (i : nat) : Prop :=
  v !! i = Some x /\ forall j, (j < i)%nat -> v !! j <> Some x.

(** [textureunit] is the unit the algorithm of [getTextureUnit] selects for
    [name]: the unit already assigned to the name; otherwise one more than
    the lowest index of a zero in the global counters; otherwise, when no
    counter is zero, one more than the lowest index of a zero in the
    shader's own record. *)
Definition chosen (pool : gmap string Z) (counters : list Z) (active : list N)
    (name : string) (textureunit : Z) : Prop :=
  match pool !! name with
  | Some assigned => textureunit = assigned
  | None =>
      exists i, textureunit = Z.of_nat i + 1 /\
        (lowest 0 counters i \/ ((0 ∉ counters) /\ lowest 0%N active i))
  end.

(** The maximum the constructor computes from what the context reports. *)
Definition units_of (numTextureUnits : Z) : nat :=
  Z.to_nat (Z.max (numTextureUnits - 1) 0).

(** The driver compiles both stages, creates the program and links it. *)
Definition accepts (drv : Driver) : Prop :=
  answer_glCreateShader drv GL_VERTEX_SHADER <> 0%N /\
  answer_glCreateShader drv GL_FRAGMENT_SHADER <> 0%N /\
  answer_COMPILE_STATUS drv (answer_glCreateShader drv GL_VERTEX_SHADER) = true /\
  answer_COMPILE_STATUS drv (answer_glCreateShader drv GL_FRAGMENT_SHADER) = true /\
  answer_glCreateProgram drv <> 0%N /\
  answer_LINK_STATUS drv (answer_glCreateProgram drv) = true.

(** The name resolves to a location in the shader: a location is cached for
    it, or the driver reports one. *)
Definition resolves (s : Shader) (name : string) (drv : Driver) : Prop :=
  (exists location, uniforms s !! name = Some location /\ location <> -1) \/
  answer_glGetUniformLocation drv (program s) name <> -1.

(** [currentShader] and [defaultShader] are null or point to objects. *)
Definition pointers_valid (w : World) : Prop :=
  (forall p, currentShader w = Some p -> is_Some (objects w !! p)) /\
  (forall p, defaultShader w = Some p -> is_Some (objects w !! p)).

(** A call of [setDefaultSources] that registers its argument. *)
Definition registers (c : Call) : Prop :=
  match c with
  | CallSetDefaultSources sources =>
      is_Some (sources !! TYPE_VERTEX) /\ is_Some (sources !! TYPE_PIXEL)
  | _ => False
  end.

(** What holds of the statics and of every object alive in every state of
    the process (see [reachable_consistent]). *)
Record consistent (numTextureUnits : Z) (w : World) : Prop := {
  consistent_num : getNumTextureUnits w = numTextureUnits;
  consistent_max :
    maxTextureUnits w = units_of numTextureUnits \/
    (maxTextureUnits w = O /\ records w = ∅);
  consistent_counters : length (textureCounters w) = maxTextureUnits w;
  consistent_int : Forall (fun c => 0 <= c <= INT_MAX) (textureCounters w);
  consistent_records : forall this active,
    records w !! this = Some active -> length active = maxTextureUnits w;
  consistent_pools : forall this pool name textureunit,
    pools w !! this = Some pool -> pool !! name = Some textureunit ->
    1 <= textureunit <= Z.of_nat (maxTextureUnits w);
  consistent_sources : forall this sources,
    sources_of w !! this = Some sources ->
    is_Some (sources !! TYPE_VERTEX) /\
    is_Some (sources !! TYPE_PIXEL) /\
    sources !! TYPE_MAX_ENUM = None;
  consistent_users : forall i counter,
    textureCounters w !! i = Some counter ->
    Z.of_nat (users i (records w)) <= counter }.

(** ** Example inputs *)

(** A driver that compiles and links everything and reports location 0 for
    every uniform. *)
Definition example_driver : Driver :=
  {| answer_glCreateShader := fun glshadertype =>
       match glshadertype with
       | GL_VERTEX_SHADER => 1%N
       | GL_FRAGMENT_SHADER => 2%N
       end;
     answer_glGetError := GL_NO_ERROR;
     answer_COMPILE_STATUS := fun _ => true;
     answer_ShaderInfoLog := fun _ => EmptyString;
     answer_glCreateProgram := 3%N;
     answer_LINK_STATUS := fun _ => true;
     answer_ProgramInfoLog := fun _ => EmptyString;
     answer_glGetUniformLocation := fun _ _ => 0;
     answer_getVertexAttribID := fun _ => 0;
     answer_isGenericVertexAttrib := fun _ => true |}.

Definition example_sources : ShaderSources :=
  <[TYPE_PIXEL := "p"]> {[TYPE_VERTEX := "v"]}.

(** The state a run leaves from start-up with a context of three texture
    units (two besides unit 0); start-up itself should the run be
    undefined. *)
Definition state_after (cs : list Call) : World :=
  default (initial_World 3) (run cs (initial_World 3)).

(** The object at an address; an object without sources when there is
    none. *)
Definition object_at (this : nat) (w : World) : Shader :=
  default (Shader_members ∅) (objects w !! this).

(** One shader is constructed. *)
Definition one_shader : list Call :=
  [CallNew 0 example_sources example_driver].

(** One shader is constructed and is sent the texture 7. *)
Definition one_bound_shader : list Call :=
  [CallNew 0 example_sources example_driver;
   CallSendTexture 0 "tex" 7 example_driver].

(** Two shaders are constructed. *)
Definition two_shaders : list Call :=
  [CallNew 0 example_sources example_driver;
   CallNew 1 example_sources example_driver].

(** One shader is constructed and is sent the texture handle 0 twice, for
    the same name. *)
Definition empty_handle_twice : list Call :=
  [CallNew 0 example_sources example_driver;
   CallSendTexture 0 "tex" 0 example_driver;
   CallSendTexture 0 "tex" 0 example_driver].

(** ** Relations between states and closed forms of the states the methods
    leave, used to state the theorems of Part IV *)

(** [m] relates by [R] the state it is called in and the state it leaves,
    whether it returns or throws. *)
Definition preserves {A} (R : relation World) (m : M A) : Prop :=
  forall w w', after (m w) = Some w' -> R w w'.

(** The two states have the same objects alive, with the same binding
    records, unit assignments and sources, and the same counters. *)
Definition same_core (w w' : World) : Prop :=
  records w' = records w /\
  pools w' = pools w /\
  sources_of w' = sources_of w /\
  textureCounters w' = textureCounters w /\
  maxTextureUnits w' = maxTextureUnits w /\
  getNumTextureUnits w' = getNumTextureUnits w.

(** The two states differ at most in [currentShader] and in the commands
    issued. *)
Definition same_data (w w' : World) : Prop :=
  objects w' = objects w /\
  defaultShader w' = defaultShader w /\
  defaultSources w' = defaultSources w /\
  textureCounters w' = textureCounters w /\
  maxTextureUnits w' = maxTextureUnits w /\
  getNumTextureUnits w' = getNumTextureUnits w.

(** The state in which the uniform cache of the object [this], which is
    [s], has become [cache]. *)
Definition with_uniforms (this : nat) (s : Shader) (cache : gmap string Z)
    (w : World) : World :=
  set_objects (<[this := set_uniforms cache s]> (objects w)) w.

(** The state in which the object [this], which is [s], has [textureunit]
    assigned to [name]. *)
Definition with_unit (this : nat) (s : Shader) (name : string) (textureunit : Z)
    (w : World) : World :=
  set_objects
    (<[this := set_textureUnitPool (<[name := textureunit]> (textureUnitPool s)) s]>
       (objects w)) w.

(** The state [unloadVolatile] leaves for the object [this], which is [s],
    when its loop leaves [counters]. *)
Definition unloaded (this : nat) (s : Shader) (counters : list Z) (w : World)
    : World :=
  set_objects
    (<[this := set_uniforms ∅
                 (set_activeTextureUnits (replicate (maxTextureUnits w) 0%N)
                    (set_program 0%N s))]> (objects w))
    (set_textureCounters counters
       (set_issued
          (issued w
           ++ (if bool_decide (currentShader w = Some this)
               then [glUseProgram 0] else [])
           ++ (if bool_decide (program s <> 0%N)
               then [glDeleteProgram (program s)] else []))
          w)).

(** The sources once the stage [type] is filled in from the defaults; none
    when the stage is missing from both. *)
Definition fill (type : ShaderType) (defaults sources : ShaderSources)
    : option ShaderSources :=
  match sources !! type with
  | Some _ => Some sources
  | None => (fun code => <[type := code]> sources) <$> defaults !! type
  end.

(** The state in which the sources of the object [this], which is [s], have
    become [sources]. *)
Definition with_sources (this : nat) (s : Shader) (sources : ShaderSources)
    (w : World) : World :=
  set_objects (<[this := set_shaderSources sources s]> (objects w)) w.

(** The statics once the constructor has set [maxTextureUnits] and resized
    the counters. *)
Definition resized (w : World) : World :=
  set_textureCounters
    (if (length (textureCounters w) <? units_of (getNumTextureUnits w))%nat
     then textureCounters w
          ++ replicate (units_of (getNumTextureUnits w) - length (textureCounters w)) 0
     else textureCounters w)
    (set_maxTextureUnits (units_of (getNumTextureUnits w)) w).

(** The members when the constructor reaches [checkCodeCompleteness]. *)
Definition constructing (sources : ShaderSources) : Shader :=
  set_vertexAttribNames
    [(ATTRIB_VERTEX, "VertexPosition"); (ATTRIB_COLOR, "VertexColor");
     (ATTRIB_TEXCOORD, "VertexTexCoord")] (Shader_members sources).

(** The two states have the same objects apart from [this], and the same
    statics of the bookkeeping. *)
Definition same_others (this : nat) (w w' : World) : Prop :=
  delete this (objects w') = delete this (objects w) /\
  textureCounters w' = textureCounters w /\
  maxTextureUnits w' = maxTextureUnits w /\
  getNumTextureUnits w' = getNumTextureUnits w.

(** The two states have the same objects apart from [this]. *)
Definition untouched (this : nat) (w w' : World) : Prop :=
  delete this (objects w') = delete this (objects w).

(** The object a call is made on. *)
Definition target (c : Call) : option nat :=
  match c with
  | CallNew this _ _ | CallDelete this | CallLoadVolatile this _
  | CallUnloadVolatile this | CallAttach this _
  | CallSendFloat this _ _ _ _ _ | CallSendMatrix this _ _ _ _ _
  | CallSendTexture this _ _ _ | CallGetTextureUnit this _
  | CallHasUniform this _ _ => Some this
  | CallDetach | CallSetDefaultSources _ | CallAssignDefaultShader _ => None
  end.

(** The object [this] has [textureunit] assigned to [name]. *)
Definition assigned (this : nat) (name : string) (textureunit : Z) (w : World)
    : Prop :=
  exists pool, pools w !! this = Some pool /\ pool !! name = Some textureunit.

(** The commands issued in [w'] extend those issued in [w]. *)
Definition issued_grows (w w' : World) : Prop :=
  exists cs, issued w' = issued w ++ cs.

(** The body keeps the objects alive and [defaultShader]. *)
Definition keeps_alive (w w' : World) : Prop :=
  (forall p, is_Some (objects w !! p) -> is_Some (objects w' !! p)) /\
  defaultShader w' = defaultShader w.

(** The driver call for each vector size. *)
Definition glUniformfv (size : Z) : Z -> Z -> list N -> GLCall :=
  match size with
  | 1 => glUniform1fv
  | 2 => glUniform2fv
  | 3 => glUniform3fv
  | _ => glUniform4fv
  end.

(** The driver call for each matrix size. *)
Definition glUniformMatrixfv (size : Z) : Z -> Z -> list N -> GLCall :=
  match size with
  | 2 => glUniformMatrix2fv
  | 3 => glUniformMatrix3fv
  | _ => glUniformMatrix4fv
  end.

(** [currentShader] is the same in the two states unless it pointed to
    [this]. *)
Definition current_unless (this : nat) (w w' : World) : Prop :=
  currentShader w' = currentShader w \/ currentShader w = Some this.

(** The registered default sources are the same in the two states. *)
Definition same_defaults (w w' : World) : Prop :=
  defaultSources w' = defaultSources w.

(** [defaultShader] is the same in the two states. *)
Definition same_defaultShader (w w' : World) : Prop :=
  defaultShader w' = defaultShader w.

(** Every object alive has the same [program] in the two states. *)
Definition same_programs (w w' : World) : Prop :=
  program <$> objects w' = program <$> objects w.

(** The calls that send the textures of [sends], in order, to the names
    paired with them. *)
Definition send_textures (this : nat) (drv : Driver) (sends : list (string * N))
    : list Call :=
  map (fun send => CallSendTexture this send.1 send.2 drv) sends.

(** The shader that is current once a [TemporaryAttacher] built in [w] is
    destroyed: the one that was current, or, when none was, the default
    shader. *)
Definition restored (w : World) : option nat :=
  match currentShader w with
  | Some prevShader => Some prevShader
  | None => defaultShader w
  end.

(** A driver that knows no uniform. *)
Definition driver_without_uniforms : Driver :=
  {| answer_glCreateShader := answer_glCreateShader example_driver;
     answer_glGetError := GL_NO_ERROR;
     answer_COMPILE_STATUS := fun _ => true;
     answer_ShaderInfoLog := fun _ => EmptyString;
     answer_glCreateProgram := 3%N;
     answer_LINK_STATUS := fun _ => true;
     answer_ProgramInfoLog := fun _ => EmptyString;
     answer_glGetUniformLocation := fun _ _ => -1;
     answer_getVertexAttribID := fun _ => 0;
     answer_isGenericVertexAttrib := fun _ => true |}.

(** A driver that compiles the vertex stage and rejects the pixel stage. *)
Definition driver_rejecting_pixel : Driver :=
  {| answer_glCreateShader := answer_glCreateShader example_driver;
     answer_glGetError := GL_NO_ERROR;
     answer_COMPILE_STATUS := fun shaderid => (shaderid =? 1)%N;
     answer_ShaderInfoLog := fun _ => "syntax error";
     answer_glCreateProgram := 3%N;
     answer_LINK_STATUS := fun _ => true;
     answer_ProgramInfoLog := fun _ => EmptyString;
     answer_glGetUniformLocation := fun _ _ => 0;
     answer_getVertexAttribID := fun _ => 0;
     answer_isGenericVertexAttrib := fun _ => true |}.

(** A driver that compiles both stages and fails to link them. *)
Definition driver_failing_link : Driver :=
  {| answer_glCreateShader := answer_glCreateShader example_driver;
     answer_glGetError := GL_NO_ERROR;
     answer_COMPILE_STATUS := fun _ => true;
     answer_ShaderInfoLog := fun _ => EmptyString;
     answer_glCreateProgram := 3%N;
     answer_LINK_STATUS := fun _ => false;
     answer_ProgramInfoLog := fun _ => "link error";
     answer_glGetUniformLocation := fun _ _ => 0;
     answer_getVertexAttribID := fun _ => 0;
     answer_isGenericVertexAttrib := fun _ => true |}.

(** One shader is constructed and is sent a texture for each of the two
    units. *)
Definition one_full_shader : list Call :=
  [CallNew 0 example_sources example_driver;
   CallSendTexture 0 "a" 7 example_driver;
   CallSendTexture 0 "b" 8 example_driver].

(** After that, a second shader is constructed. *)
Definition full_and_new : list Call :=
  one_full_shader ++ [CallNew 1 example_sources example_driver].

(** The state after the construction of one shader in a context that
    reports a single texture unit. *)
Definition state_without_units : World :=
  default (initial_World 1) (run one_shader (initial_World 1)).

End gles2.

(* ===================================================================== *)
(** * Part III: properties of the input bridge                            *)
(* ===================================================================== *)

Section InputBridge.

Import ppapi.

Variable KEY_CODE_MAX : N.

#[local] Abbreviation EnqueueEvent := (ppapi.EnqueueEvent KEY_CODE_MAX).
#[local] Abbreviation UpdateInputState := (ppapi.UpdateInputState KEY_CODE_MAX).
#[local] Abbreviation IsKeyPressed := (ppapi.IsKeyPressed KEY_CODE_MAX).
#[local] Abbreviation call := (ppapi.call KEY_CODE_MAX).
#[local] Abbreviation run := (ppapi.run KEY_CODE_MAX).
#[local] Abbreviation initial_Globals := (ppapi.initial_Globals KEY_CODE_MAX).
#[local] Abbreviation sized := (ppapi.sized KEY_CODE_MAX).

(** *** The queue *)

Lemma UpdateInputState_queue event g :
  g_InputEventQueue (UpdateInputState event g) = g_InputEventQueue g.
Proof.
  unfold ppapi.UpdateInputState.
  destruct (type event); try done.
  - by destruct (mouse_type (mouse event)).
  - destruct (key_type (key event)); try done;
      by destruct (_ <? _)%N.
Qed.

Lemma EnqueueEvent_queue event stack g :
  g_InputEventQueue (EnqueueEvent event stack g)
  = g_InputEventQueue g ++ [converted event stack].
Proof.
  unfold ppapi.EnqueueEvent. cbn. by rewrite UpdateInputState_queue.
Qed.

(** A run of enqueues appends the converted events in the order of the
    calls. *)
Lemma run_enqueue_queue (events : list (pp_InputEvent * Indeterminate)) g :
  g_InputEventQueue
    (run (map (fun '(e, st) => CallEnqueueEvent e st) events) g)
  = g_InputEventQueue g ++ map (fun '(e, st) => converted e st) events.
Proof.
  revert g. induction events as [|[e st] events IH]; intros g; cbn.
  - by rewrite app_nil_r.
  - unfold ppapi.run in IH. rewrite IH, EnqueueEvent_queue.
    by rewrite <- app_assoc.
Qed.

Lemma vector_resize_length n v : length (vector_resize n v) = n.
Proof.
  unfold vector_resize. rewrite length_app, length_take, length_replicate. lia.
Qed.

Lemma std_copy_all src dst : length dst = length src -> std_copy src dst = src.
Proof.
  intros H. unfold std_copy. rewrite drop_ge by lia. apply app_nil_r.
Qed.

Lemma DequeueAllEvents_spec out_events g :
  DequeueAllEvents out_events g = (g_InputEventQueue g, set_queue [] g).
Proof.
  unfold DequeueAllEvents. f_equal.
  apply std_copy_all, vector_resize_length.
Qed.

Lemma DequeueEvent_times_all (q : list InputEvent) out_event g :
  g_InputEventQueue g = q ->
  DequeueEvent_times (length q) out_event g
  = (map (pair true) q, set_queue [] g).
Proof.
  revert out_event g. induction q as [|e q IH]; intros out_event g Hq; cbn.
  - f_equal. destruct g; cbn in *; by subst.
  - unfold DequeueEvent. rewrite Hq.
    rewrite (IH e (set_queue q g)) by done.
    by destruct g.
Qed.

(** C5.  Enqueue any events, on top of whatever the queue holds.  Then
    [DequeueAllEvents] returns the events the queue held followed by the
    enqueued ones, in the order of the calls, whatever [out_events] held, and
    leaves the queue empty; as many calls of [DequeueEvent] as there are
    events return them one by one in that same order, each with the flag
    set, and leave the queue empty; and [DequeueEvent], in any state, returns
    false exactly when the queue is empty, and then leaves [*out_event] and
    the globals as they are.  At start-up the queue holds nothing, so the
    events returned are exactly the enqueued ones. *)
Theorem queue_is_fifo (events : list (pp_InputEvent * Indeterminate)) (g0 : Globals) :
  let g := run (map (fun '(e, st) => CallEnqueueEvent e st) events) g0 in
  let pending :=
    g_InputEventQueue g0 ++ map (fun '(e, st) => converted e st) events in
  g_InputEventQueue initial_Globals = [] /\
  (forall out_events,
     fst (DequeueAllEvents out_events g) = pending /\
     g_InputEventQueue (snd (DequeueAllEvents out_events g)) = []) /\
  (forall out_event,
     fst (DequeueEvent_times (length pending) out_event g)
     = map (pair true) pending /\
     g_InputEventQueue (snd (DequeueEvent_times (length pending) out_event g)) = []) /\
  (forall out_event g',
     (fst (fst (DequeueEvent out_event g')) = false <-> g_InputEventQueue g' = []) /\
     (g_InputEventQueue g' = [] -> DequeueEvent out_event g' = (false, out_event, g'))).
Proof.
  intros g pending.
  assert (Hq : g_InputEventQueue g = pending) by apply run_enqueue_queue.
  split; [done|]. split; [|split].
  - intros out_events. by rewrite DequeueAllEvents_spec.
  - intros out_event. by rewrite (DequeueEvent_times_all pending).
  - intros out_event g'. unfold DequeueEvent.
    destruct (g_InputEventQueue g'); cbn; split; (split || idtac); done.
Qed.

(** *** The persistent state *)

Lemma initial_Globals_sized : sized initial_Globals.
Proof. split; cbn; by rewrite ?length_replicate. Qed.

Lemma UpdateInputState_sized event g : sized g -> sized (UpdateInputState event g).
Proof.
  intros [Hk Hb]. unfold ppapi.UpdateInputState.
  destruct (type event); try done.
  - destruct (mouse_type (mouse event)); split; cbn;
      by rewrite ?length_insert.
  - destruct (key_type (key event)); try done;
      destruct (_ <? _)%N; split; cbn; by rewrite ?length_insert.
Qed.

Lemma call_sized c g : sized g -> sized (call c g).
Proof.
  intros Hg. destruct c as [event stack|out_event|out_events]; cbn.
  - by apply UpdateInputState_sized.
  - unfold DequeueEvent. by destruct (g_InputEventQueue g).
  - done.
Qed.

Lemma run_cons c cs g : run (c :: cs) g = run cs (call c g).
Proof. done. Qed.

Lemma run_app cs1 cs2 g : run (cs1 ++ cs2) g = run cs2 (run cs1 g).
Proof. apply foldl_app. Qed.

(** What one conversion-and-update does to the answer of each query. *)
Lemma UpdateInputState_key code event g :
  sized g -> (code < KEY_CODE_MAX)%N ->
  IsKeyPressed code (UpdateInputState event g)
  = if key_down_up code event then is_key_down event else IsKeyPressed code g.
Proof.
  intros [Hk _] Hcode.
  unfold ppapi.IsKeyPressed, ppapi.UpdateInputState, key_down_up, is_key_down.
  destruct (N.leb_spec KEY_CODE_MAX code) as [|_]; [lia|].
  destruct (type event); try done.
  - by destruct (mouse_type (mouse event)).
  - destruct (key_type (key event)); try done.
    all: destruct (N.ltb_spec (key_code (key event)) KEY_CODE_MAX) as [Hlt|Hge].
    all: destruct (N.eqb_spec (key_code (key event)) code) as [Heq|Hne].
    all: cbn; try done; try lia.
    + rewrite Heq, list_lookup_insert_eq; [done|lia].
    + rewrite list_lookup_insert_ne; [done|lia].
    + rewrite Heq, list_lookup_insert_eq; [done|lia].
    + rewrite list_lookup_insert_ne; [done|lia].
Qed.

Lemma UpdateInputState_button button event g :
  sized g -> button <> MOUSE_NONE ->
  IsMouseButtonPressed button (UpdateInputState event g)
  = if button_down_up button event then is_mouse_down event
    else IsMouseButtonPressed button g.
Proof.
  intros [_ Hb] Hbutton.
  unfold IsMouseButtonPressed, ppapi.UpdateInputState, button_down_up,
    is_mouse_down.
  assert (Hrange : (1 <= MouseButton_value button < MOUSE_BUTTON_MAX)%nat)
    by (unfold MOUSE_BUTTON_MAX; destruct button; [congruence|cbn; lia..]).
  destruct (Nat.leb_spec (MouseButton_value button) (MouseButton_value MOUSE_NONE))
    as [Hle|_]; [cbn in Hle; lia|].
  destruct (Nat.leb_spec MOUSE_BUTTON_MAX (MouseButton_value button))
    as [Hle|_]; [lia|]. cbn [orb].
  destruct (type event); try done.
  - destruct (mouse_type (mouse event)); try done.
    all: cbn; case_bool_decide as Heq.
    + rewrite Heq, list_lookup_insert_eq; [done|lia].
    + rewrite list_lookup_insert_ne; done.
    + rewrite Heq, list_lookup_insert_eq; [done|lia].
    + rewrite list_lookup_insert_ne; done.
  - destruct (key_type (key event)); try done; by destruct (_ <? _)%N.
Qed.

Lemma UpdateInputState_position event g :
  GetMouseX (UpdateInputState event g)
  = (if is_mouse event then mouse_x (mouse event) else GetMouseX g) /\
  GetMouseY (UpdateInputState event g)
  = (if is_mouse event then mouse_y (mouse event) else GetMouseY g).
Proof.
  unfold ppapi.UpdateInputState, is_mouse, GetMouseX, GetMouseY.
  destruct (type event); try done.
  - by destruct (mouse_type (mouse event)).
  - destruct (key_type (key event)); try done; by destruct (_ <? _)%N.
Qed.

(** A query [q] whose answer each enqueued event [e] either sets to [v e]
    (when [p e]) or leaves alone, and that the dequeues leave alone, answers
    after a run what the most recent event with [p] set, and what it
    answered before the run when there is none. *)
Section MostRecent.

Context {A : Type} (q : Globals -> A) (p : InputEvent -> bool) (v : InputEvent -> A).

Hypothesis q_update : forall event g, sized g ->
  q (UpdateInputState event g) = if p event then v event else q g.
Hypothesis q_queue : forall queue g, q (set_queue queue g) = q g.

Lemma q_call c g : sized g ->
  q (call c g)
  = match c with
    | CallEnqueueEvent event stack =>
        if p (converted event stack) then v (converted event stack) else q g
    | _ => q g
    end.
Proof.
  intros Hg. destruct c as [event stack|out_event|out_events]; cbn.
  - unfold ppapi.EnqueueEvent. by rewrite q_queue, q_update.
  - unfold DequeueEvent. destruct (g_InputEventQueue g); cbn; [done|].
    apply q_queue.
  - apply q_queue.
Qed.

Lemma q_run_never cs g :
  sized g -> never p (enqueued cs) -> q (run cs g) = q g.
Proof.
  revert g. induction cs as [|c cs IH]; intros g Hg Hnever; [done|].
  rewrite run_cons, IH.
  - rewrite q_call by done. destruct c; try done.
    cbn in Hnever. apply Forall_cons in Hnever as [-> _]. done.
  - by apply call_sized.
  - destruct c; try done. cbn in Hnever. by apply Forall_cons in Hnever as [_ ?].
Qed.

Lemma enqueued_split cs earlier e later :
  enqueued cs = earlier ++ e :: later ->
  exists cs1 event stack cs2,
    cs = cs1 ++ CallEnqueueEvent event stack :: cs2 /\
    converted event stack = e /\ enqueued cs2 = later.
Proof.
  revert earlier. induction cs as [|c cs IH]; intros earlier Heq.
  - by destruct earlier.
  - destruct c as [event stack|out_event|out_events]; cbn in Heq.
    + destruct earlier as [|e0 earlier]; cbn in Heq.
      * injection Heq as <- <-. by exists [], event, stack, cs.
      * injection Heq as <- Heq.
        destruct (IH _ Heq) as (cs1 & event' & stack' & cs2 & -> & <- & <-).
        by exists (CallEnqueueEvent event stack :: cs1), event', stack', cs2.
    + destruct (IH _ Heq) as (cs1 & event' & stack' & cs2 & -> & <- & <-).
      by exists (CallDequeueEvent out_event :: cs1), event', stack', cs2.
    + destruct (IH _ Heq) as (cs1 & event' & stack' & cs2 & -> & <- & <-).
      by exists (CallDequeueAllEvents out_events :: cs1), event', stack', cs2.
Qed.

Lemma run_sized cs g : sized g -> sized (run cs g).
Proof.
  revert g. induction cs as [|c cs IH]; intros g Hg; [done|].
  rewrite run_cons. apply IH. by apply call_sized.
Qed.

Lemma q_run_most_recent cs g e :
  sized g -> most_recent p (enqueued cs) e -> q (run cs g) = v e.
Proof.
  intros Hg (earlier & later & Heq & Hp & Hlater).
  destruct (enqueued_split _ _ _ _ Heq)
    as (cs1 & event & stack & cs2 & -> & <- & <-).
  rewrite run_app, run_cons.
  assert (Hg1 : sized (run cs1 g)) by by apply run_sized.
  rewrite q_run_never; [|by apply call_sized|done].
  rewrite q_call by done. by rewrite Hp.
Qed.

End MostRecent.

(** C6.  After any run of calls from start-up (enqueues, with dequeues and
    drains anywhere among them, so in particular right after each enqueue),
    with [events] the events enqueued so far in the order of the calls:
    [IsKeyPressed code], for a key code below [KEY_CODE_MAX], tells whether
    the most recent down or up event of that key was a down event, and is
    false when there was none; [IsMouseButtonPressed button], for the left,
    middle and right buttons, tells the same of the most recent down or up
    event of that button; [GetMouseX] and [GetMouseY] are the position of
    the most recent mouse event, and 0 when there was none. *)
Theorem state_reflects_most_recent_event (cs : list Call) :
  let g := run cs initial_Globals in
  let events := enqueued cs in
  (forall code, (code < KEY_CODE_MAX)%N ->
     (forall e, most_recent (key_down_up code) events e ->
                IsKeyPressed code g = is_key_down e) /\
     (never (key_down_up code) events -> IsKeyPressed code g = false)) /\
  (forall button, button <> MOUSE_NONE ->
     (forall e, most_recent (button_down_up button) events e ->
                IsMouseButtonPressed button g = is_mouse_down e) /\
     (never (button_down_up button) events ->
      IsMouseButtonPressed button g = false)) /\
  (forall e, most_recent is_mouse events e ->
     GetMouseX g = mouse_x (mouse e) /\ GetMouseY g = mouse_y (mouse e)) /\
  (never is_mouse events -> GetMouseX g = 0 /\ GetMouseY g = 0).
Proof.
  intros g events. subst g events. pose proof initial_Globals_sized as H0.
  split; [|split; [|split]].
  - intros code Hcode. split.
    + intros e He.
      apply (q_run_most_recent (IsKeyPressed code) (key_down_up code) is_key_down);
        try done.
      intros. by apply UpdateInputState_key.
    + intros Hnever.
      rewrite (q_run_never (IsKeyPressed code) (key_down_up code) is_key_down);
        try done.
      * unfold ppapi.IsKeyPressed. cbn. destruct (_ <=? _)%N; [done|].
        destruct (replicate _ _ !! _) eqn:E; [|done].
        by apply lookup_replicate in E as [-> _].
      * intros. by apply UpdateInputState_key.
  - intros button Hbutton. split.
    + intros e He.
      apply (q_run_most_recent (IsMouseButtonPressed button)
               (button_down_up button) is_mouse_down); try done.
      intros. by apply UpdateInputState_button.
    + intros Hnever.
      rewrite (q_run_never (IsMouseButtonPressed button)
                 (button_down_up button) is_mouse_down); try done.
      * by destruct button.
      * intros. by apply UpdateInputState_button.
  - intros e He. split.
    + apply (q_run_most_recent GetMouseX is_mouse (fun e => mouse_x (mouse e)));
        try done.
      intros. apply UpdateInputState_position.
    + apply (q_run_most_recent GetMouseY is_mouse (fun e => mouse_y (mouse e)));
        try done.
      intros. apply UpdateInputState_position.
  - intros Hnever. split.
    + rewrite (q_run_never GetMouseX is_mouse (fun e => mouse_x (mouse e)));
        try done.
      intros. apply UpdateInputState_position.
    + rewrite (q_run_never GetMouseY is_mouse (fun e => mouse_y (mouse e)));
        try done.
      intros. apply UpdateInputState_position.
Qed.

End InputBridge.

(** The persistent state on [example_calls], with 256 key codes: the three
    properties at the key 65, the left button and the position. *)
Lemma state_reflects_most_recent_event_witness :
  ppapi.IsKeyPressed 256 65 (ppapi.run 256 ppapi.example_calls (ppapi.initial_Globals 256))
  = true /\
  ppapi.IsMouseButtonPressed ppapi.MOUSE_LEFT
    (ppapi.run 256 ppapi.example_calls (ppapi.initial_Globals 256)) = true /\
  ppapi.GetMouseX (ppapi.run 256 ppapi.example_calls (ppapi.initial_Globals 256)) = 3.
Proof.
  destruct (state_reflects_most_recent_event 256 ppapi.example_calls)
    as (Hkey & Hbutton & Hposition & _).
  split; [|split].
  - destruct (Hkey 65%N) as [H _]; [reflexivity|].
    apply (H (ppapi.converted
                (ppapi.host_event ppapi.PP_INPUTEVENT_TYPE_KEYDOWN 65
                   ppapi.PP_INPUTEVENT_MOUSEBUTTON_NONE (0, 0) EmptyString)
                ppapi.zeroed_stack)).
    eexists [], [_]. split; [reflexivity|]. split; [reflexivity|].
    repeat constructor.
  - destruct (Hbutton ppapi.MOUSE_LEFT) as [H _]; [discriminate|].
    apply (H (ppapi.converted
                (ppapi.host_event ppapi.PP_INPUTEVENT_TYPE_MOUSEDOWN 0
                   ppapi.PP_INPUTEVENT_MOUSEBUTTON_LEFT (3, 4) EmptyString)
                ppapi.zeroed_stack)).
    eexists [_], []. split; [reflexivity|]. split; [reflexivity|].
    constructor.
  - destruct (Hposition (ppapi.converted
                (ppapi.host_event ppapi.PP_INPUTEVENT_TYPE_MOUSEDOWN 0
                   ppapi.PP_INPUTEVENT_MOUSEBUTTON_LEFT (3, 4) EmptyString)
                ppapi.zeroed_stack)) as [H _]; [|exact H].
    eexists [_], []. split; [reflexivity|]. split; [reflexivity|].
    constructor.
Defined.

(** *** The text of a character event *)

Section CharacterText.

Import ppapi.

(** [strncpy] writes exactly [n] bytes: the C string, cut at [n] bytes, and
    NUL bytes after it. *)
Lemma strncpy_written_spec src : forall n,
  strncpy_written src n
  = take (min n (strlen src)) src ++ replicate (n - strlen src) zero.
Proof.
  induction src as [|c src IH]; intros n; cbn [strlen].
  - rewrite Nat.min_0_r, Nat.sub_0_r. cbn.
    induction n as [|n IHn]; cbn; [done|]. by rewrite IHn.
  - destruct n as [|n]; [done|]. cbn [strncpy_written].
    destruct (Ascii.eqb c zero) eqn:E.
    + rewrite Nat.min_0_r, Nat.sub_0_r. cbn. f_equal.
      clear. induction n as [|n IHn]; cbn; [done|]. by rewrite IHn.
    + cbn. f_equal. apply IH.
Qed.

Lemma strlen_take_no_NUL src : forall k,
  (k <= strlen src)%nat -> zero ∉ take k src.
Proof.
  induction src as [|c src IH]; intros k Hk; cbn in *.
  - rewrite take_nil. apply not_elem_of_nil.
  - destruct k as [|k]; [apply not_elem_of_nil|].
    destruct (Ascii.eqb c zero) eqn:E; [lia|]. cbn.
    apply not_elem_of_cons. split.
    + intros <-. by rewrite Ascii.eqb_refl in E.
    + apply IH. lia.
Qed.

(** The bytes written hold a terminator exactly when the C string is shorter
    than the count: a text of up to four bytes leaves the five-byte buffer
    terminated, a longer one does not. *)
Lemma strncpy_terminated src n :
  zero ∈ strncpy_written src n <-> (strlen src < n)%nat.
Proof.
  rewrite strncpy_written_spec, elem_of_app. split.
  - intros [Hin|Hin].
    + exfalso. revert Hin. apply strlen_take_no_NUL. lia.
    + apply elem_of_replicate in Hin as [_ ?]. lia.
  - intros Hlt. right. apply elem_of_replicate. split; [done|lia].
Qed.

(** C9, at the failing input.  For the character event whose text is
    "abcde", whatever [*out_event] and the local [type] held before, the
    first five bytes of the text field are a, b, c, d, e: none of them is
    the terminator. *)
Theorem ConvertEvent_text_not_terminated type0 out_event :
  take CHARACTER_TEXT_CAPACITY
    (character_text (character (ConvertEvent char_abcde type0 out_event)))
  = list_ascii_of_string "abcde" /\
  zero ∉ take CHARACTER_TEXT_CAPACITY
           (character_text (character (ConvertEvent char_abcde type0 out_event))).
Proof.
  assert (Htext :
    take CHARACTER_TEXT_CAPACITY
      (character_text (character (ConvertEvent char_abcde type0 out_event)))
    = list_ascii_of_string "abcde") by reflexivity.
  split; [done|]. rewrite Htext. cbn.
  repeat (apply not_elem_of_cons; split; [discriminate|]).
  apply not_elem_of_nil.
Qed.

(** For a character event whose text, up to its first NUL byte, has at most
    four bytes, the first five bytes of the text field are that text followed
    by NUL bytes. *)
Lemma ConvertEvent_text_terminated in_event type0 out_event :
  GetType in_event = PP_INPUTEVENT_TYPE_CHAR ->
  (strlen (list_ascii_of_string (GetCharacterText in_event)) <= 4)%nat ->
  take CHARACTER_TEXT_CAPACITY
    (character_text (character (ConvertEvent in_event type0 out_event)))
  = take (strlen (list_ascii_of_string (GetCharacterText in_event)))
      (list_ascii_of_string (GetCharacterText in_event))
    ++ replicate
         (5 - strlen (list_ascii_of_string (GetCharacterText in_event))) zero.
Proof.
  intros Htype Hlen. unfold ConvertEvent. rewrite Htype.
  cbn -[strncpy take]. unfold strncpy. rewrite strncpy_written_spec.
  rewrite take_app_length'; [by rewrite Nat.min_r by lia|].
  rewrite length_app, length_take, length_replicate.
  unfold CHARACTER_TEXT_CAPACITY.
  assert (strlen (list_ascii_of_string (GetCharacterText in_event))
          <= length (list_ascii_of_string (GetCharacterText in_event)))%nat.
  { generalize (list_ascii_of_string (GetCharacterText in_event)).
    induction l as [|c l IH]; cbn; [done|]. destruct (Ascii.eqb c zero); lia. }
  lia.
Qed.

End CharacterText.

(* ===================================================================== *)
(** * Part IV: properties of the shader manager                           *)
(* ===================================================================== *)

Section ShaderManager.

Import gles2.

(** *** Running the monad *)

Lemma bind_Ok {A B} (m : M A) (k : A -> M B) w a w1 :
  m w = Ok a w1 -> (m ≫= k) w = k a w1.
Proof. unfold mbind, M_bind. by intros ->. Qed.

Lemma bind_Throw {A B} (m : M A) (k : A -> M B) w e w1 :
  m w = Throw e w1 -> (m ≫= k) w = Throw e w1.
Proof. unfold mbind, M_bind. by intros ->. Qed.

Lemma bind_Undefined {A B} (m : M A) (k : A -> M B) w :
  m w = Undefined -> (m ≫= k) w = Undefined.
Proof. unfold mbind, M_bind. by intros ->. Qed.

Lemma deref_Ok this s w : objects w !! this = Some s -> deref this w = Ok s w.
Proof. unfold deref. by intros ->. Qed.

Lemma assign_Ok this f s w :
  objects w !! this = Some s ->
  assign this f w = Ok tt (set_objects (<[this := f s]> (objects w)) w).
Proof. intros H. unfold assign. by rewrite (bind_Ok _ _ _ _ _ (deref_Ok _ _ _ H)). Qed.

(** Unfolds the monad on a state. *)
Ltac run_monad :=
  repeat first
    [ progress cbn [mbind mret M_bind M_ret after]
    | progress unfold mbind, M_bind, mret, M_ret, gets, modify, when, defined,
        undefined, throw, emit, emits, deref, assign, forget ].

Ltac run_monad_in H :=
  repeat first
    [ progress cbn [mbind mret M_bind M_ret after] in H
    | progress unfold mbind, M_bind, mret, M_ret, gets, modify, when, defined,
        undefined, throw, emit, emits, deref, assign, forget,
        checkSetUniformError in H ].

(** *** Relations that calls preserve *)

Section Preserves.

Context (R : relation World) `{!Reflexive R} `{!Transitive R}.

Lemma preserves_ret {A} (a : A) : preserves R (mret a).
Proof. intros w w' [= <-]. done. Qed.

Lemma preserves_throw {A} fmt args : preserves R (@throw A fmt args).
Proof. intros w w' [= <-]. done. Qed.

Lemma preserves_undefined {A} : preserves R (@undefined A).
Proof. by intros w w' [=]. Qed.

Lemma preserves_gets {A} (f : World -> A) : preserves R (gets f).
Proof. intros w w' [= <-]. done. Qed.

Lemma preserves_defined {A} (o : option A) : preserves R (defined o).
Proof. destruct o; [apply preserves_ret | apply preserves_undefined]. Qed.

Lemma preserves_deref this : preserves R (deref this).
Proof. intros w w'. unfold deref. apply preserves_defined. Qed.

Lemma preserves_modify f : (forall w, R w (f w)) -> preserves R (modify f).
Proof. intros Hf w w' [= <-]. apply Hf. Qed.

Lemma preserves_bind {A B} (m : M A) (k : A -> M B) :
  preserves R m -> (forall a, preserves R (k a)) -> preserves R (m ≫= k).
Proof.
  intros Hm Hk w w'. unfold mbind, M_bind.
  destruct (m w) as [a w1|e w1|] eqn:E; cbn; [|intros [= <-]|done].
  - intros Hw'. transitivity w1.
    + apply Hm. by rewrite E.
    + by apply (Hk a).
  - apply Hm. by rewrite E.
Qed.

Lemma preserves_when b m : preserves R m -> preserves R (when b m).
Proof. destruct b; [done|]. intros _. apply preserves_ret. Qed.

Lemma preserves_emit c :
  (forall w cs, R w (set_issued (issued w ++ cs) w)) -> preserves R (emit c).
Proof. intros H. apply preserves_modify. intros w. apply H. Qed.

Lemma preserves_emits cs :
  (forall w cs, R w (set_issued (issued w ++ cs) w)) -> preserves R (emits cs).
Proof. intros H. apply preserves_modify. intros w. apply H. Qed.

Lemma preserves_assign this f :
  (forall w s, objects w !! this = Some s ->
               R w (set_objects (<[this := f s]> (objects w)) w)) ->
  preserves R (assign this f).
Proof.
  intros H w w'. unfold assign, deref, mbind, M_bind.
  destruct (objects w !! this) as [s|] eqn:E; cbn; [|done].
  intros [= <-]. by apply H.
Qed.

Lemma preserves_forget {A} (m : M A) : preserves R m -> preserves R (forget m).
Proof. intros H. apply preserves_bind; [done|]. intros _. apply preserves_ret. Qed.

Lemma preserves_with_TemporaryAttacher {A} shader (body : M A) :
  preserves R (attach shader true) ->
  (forall prev, preserves R (TemporaryAttacher_dtor prev)) ->
  preserves R body ->
  preserves R (with_TemporaryAttacher shader body).
Proof.
  intros Hattach Hdtor Hbody w w'. unfold with_TemporaryAttacher.
  destruct (attach shader true w) as [[] w1|e w1|] eqn:E1; cbn; [| |done].
  - assert (R w w1) by (apply Hattach; by rewrite E1).
    destruct (body w1) as [a w2|e w2|] eqn:E2; cbn; [| |done].
    + assert (R w1 w2) by (apply Hbody; by rewrite E2).
      unfold mbind, M_bind.
      destruct (TemporaryAttacher_dtor _ w2) as [[] w3|e w3|] eqn:E3;
        cbn; [| |done]; intros [= <-];
        (transitivity w1; [done|]); (transitivity w2; [done|]);
        apply (Hdtor (currentShader w)); by rewrite E3.
    + assert (R w1 w2) by (apply Hbody; by rewrite E2).
      destruct (TemporaryAttacher_dtor _ w2) as [[] w3|e3 w3|] eqn:E3;
        cbn; [|done|done]; intros [= <-].
      transitivity w1; [done|]. transitivity w2; [done|].
      apply (Hdtor (currentShader w)); by rewrite E3.
  - intros [= <-]. apply Hattach. by rewrite E1.
Qed.

End Preserves.

(** Takes a compound call apart, down to its assignments. *)
Ltac preserves_class :=
  lazymatch goal with
  | |- Reflexive _ => apply _
  | |- Transitive _ => apply _
  | |- forall _, preserves _ _ => intros ?
  | |- _ => idtac
  end.

Ltac preserves_step :=
  lazymatch goal with
  | |- preserves _ (_ ≫= _) => apply preserves_bind
  | |- preserves _ (mret _) => apply preserves_ret
  | |- preserves _ (throw _ _) => apply preserves_throw
  | |- preserves _ undefined => apply preserves_undefined
  | |- preserves _ (gets _) => apply preserves_gets
  | |- preserves _ (defined _) => apply preserves_defined
  | |- preserves _ (deref _) => apply preserves_deref
  | |- preserves _ (when _ _) => apply preserves_when
  | |- preserves _ (forget _) => apply preserves_forget
  | |- preserves _ (emit _) => apply preserves_emit
  | |- preserves _ (emits _) => apply preserves_emits
  | |- preserves _ (modify _) => apply preserves_modify
  | |- preserves _ (assign _ _) => apply preserves_assign
  | |- preserves _ (with_TemporaryAttacher _ _) =>
      apply preserves_with_TemporaryAttacher
  | |- preserves _ (if ?b then _ else _) => destruct b
  | |- preserves _ (match ?x with _ => _ end) => destruct x
  | |- preserves _ (let _ := _ in _) => cbv zeta
  end;
  preserves_class.

Ltac preserves_steps := repeat preserves_step.

(** *** Calls that leave the unit bookkeeping alone *)

#[local] Instance same_core_refl : Reflexive same_core.
Proof. by intros w. Qed.

#[local] Instance same_core_trans : Transitive same_core.
Proof.
  intros w1 w2 w3 (?&?&?&?&?&?) (?&?&?&?&?&?).
  repeat split; congruence.
Qed.

Lemma same_core_issued w cs : same_core w (set_issued cs w).
Proof. done. Qed.

Lemma same_core_currentShader w p : same_core w (set_currentShader p w).
Proof. done. Qed.

(** An assignment to members other than the record, the assignments and the
    sources. *)
Lemma same_core_assign (f : Shader -> Shader) this s w :
  (forall s, activeTextureUnits (f s) = activeTextureUnits s) ->
  (forall s, textureUnitPool (f s) = textureUnitPool s) ->
  (forall s, shaderSources (f s) = shaderSources s) ->
  objects w !! this = Some s ->
  same_core w (set_objects (<[this := f s]> (objects w)) w).
Proof.
  intros Hactive Hpool Hsources Hs. unfold same_core, records, pools, sources_of. cbn.
  rewrite !fmap_insert, Hactive, Hpool, Hsources.
  repeat split; apply insert_id; by rewrite lookup_fmap, Hs.
Qed.

Lemma attach_same_core this temporary : preserves same_core (attach this temporary).
Proof.
  unfold attach. preserves_steps; intros;
    first [apply same_core_issued | apply same_core_currentShader].
Qed.

Lemma detach_same_core : preserves same_core detach.
Proof.
  unfold detach. preserves_steps; intros;
    first [apply attach_same_core | apply same_core_issued
          | apply same_core_currentShader].
Qed.

Lemma TemporaryAttacher_dtor_same_core prev :
  preserves same_core (TemporaryAttacher_dtor prev).
Proof.
  destruct prev; [apply attach_same_core | apply detach_same_core].
Qed.

Lemma getUniformLocation_same_core this name unsafe drv :
  preserves same_core (getUniformLocation this name unsafe drv).
Proof.
  unfold getUniformLocation. preserves_steps.
  all: intros; by apply same_core_assign.
Qed.

Lemma hasUniform_same_core this name drv :
  preserves same_core (hasUniform this name drv).
Proof.
  unfold hasUniform. preserves_steps. apply getUniformLocation_same_core.
Qed.

Lemma sendFloat_same_core this name size vec count drv :
  preserves same_core (sendFloat this name size vec count drv).
Proof.
  unfold sendFloat, checkSetUniformError. preserves_steps; intros;
    first [ apply attach_same_core | apply TemporaryAttacher_dtor_same_core
          | apply getUniformLocation_same_core | apply same_core_issued ].
Qed.

Lemma sendMatrix_same_core this name size m count drv :
  preserves same_core (sendMatrix this name size m count drv).
Proof.
  unfold sendMatrix, checkSetUniformError. preserves_steps; intros;
    first [ apply attach_same_core | apply TemporaryAttacher_dtor_same_core
          | apply getUniformLocation_same_core | apply same_core_issued ].
Qed.

Lemma compileCode_same_core type code drv :
  preserves same_core (compileCode type code drv).
Proof.
  unfold compileCode. preserves_steps; intros; apply same_core_issued.
Qed.

Lemma compile_sources_same_core sources drv :
  preserves same_core (compile_sources sources drv).
Proof.
  induction sources as [|[type code] sources IH]; cbn [compile_sources];
    preserves_steps; first [apply compileCode_same_core | apply IH].
Qed.

Lemma createProgram_same_core this shaderids drv :
  preserves same_core (createProgram this shaderids drv).
Proof.
  unfold createProgram, bindVertexAttribs, getWarnings. preserves_steps.
  all: intros; first [ apply same_core_issued | by apply same_core_assign ].
Qed.

(** *** Calls that change only [currentShader] and the commands issued *)

#[local] Instance same_data_refl : Reflexive same_data.
Proof. by intros w. Qed.

#[local] Instance same_data_trans : Transitive same_data.
Proof.
  intros w1 w2 w3 (?&?&?&?&?&?) (?&?&?&?&?&?).
  repeat split; congruence.
Qed.

Lemma same_data_core w w' : same_data w w' -> same_core w w'.
Proof.
  intros (Ho&?&?&?&?&?). unfold same_core, records, pools, sources_of.
  by rewrite Ho.
Qed.

Lemma attach_same_data this temporary : preserves same_data (attach this temporary).
Proof. unfold attach. preserves_steps; by intros. Qed.

Lemma detach_same_data : preserves same_data detach.
Proof.
  unfold detach. preserves_steps; try by intros.
  apply attach_same_data.
Qed.

Lemma TemporaryAttacher_dtor_same_data prev :
  preserves same_data (TemporaryAttacher_dtor prev).
Proof.
  destruct prev; [apply attach_same_data | apply detach_same_data].
Qed.

(** [attach] returns whenever [this] points to an object, and never
    throws. *)
Lemma attach_returns this temporary w :
  is_Some (objects w !! this) ->
  exists w', attach this temporary w = Ok tt w' /\
             currentShader w' = Some this /\ same_data w w'.
Proof.
  intros [s Hs].
  assert (exists w', attach this temporary w = Ok tt w' /\
                     currentShader w' = Some this) as (w' & Hw' & Hcur).
  { unfold attach. rewrite (bind_Ok _ _ _ _ _ (deref_Ok _ _ _ Hs)).
    run_monad. destruct (bool_decide _), temporary; cbn; eauto. }
  exists w'. split_and!; try done.
  apply (attach_same_data this temporary w w'). by rewrite Hw'.
Qed.

Lemma attach_not_Throw this temporary w e w' :
  attach this temporary w <> Throw e w'.
Proof.
  unfold attach. run_monad.
  destruct (objects w !! this); [|done].
  by destruct (bool_decide _), temporary.
Qed.

Lemma detach_not_Throw w e w' : detach w <> Throw e w'.
Proof.
  unfold detach. run_monad.
  destruct (defaultShader w); [apply attach_not_Throw|done].
Qed.

Lemma TemporaryAttacher_dtor_not_Throw prev w e w' :
  TemporaryAttacher_dtor prev w <> Throw e w'.
Proof.
  destruct prev; [apply attach_not_Throw | apply detach_not_Throw].
Qed.

Lemma detach_returns w :
  (forall p, defaultShader w = Some p -> is_Some (objects w !! p)) ->
  exists w', detach w = Ok tt w' /\ currentShader w' = defaultShader w /\
             same_data w w'.
Proof.
  intros Hdflt. unfold detach. run_monad.
  destruct (defaultShader w) as [d|] eqn:E.
  - destruct (attach_returns d false w) as (w' & Hw' & ? & ?); [by apply Hdflt|].
    by exists w'.
  - eexists. repeat split.
Qed.

Lemma TemporaryAttacher_dtor_returns prev w :
  (forall p, defaultShader w = Some p -> is_Some (objects w !! p)) ->
  (forall p, prev = Some p -> is_Some (objects w !! p)) ->
  exists w', TemporaryAttacher_dtor prev w = Ok tt w' /\ same_data w w' /\
    currentShader w' = match prev with Some p => Some p | None => defaultShader w end.
Proof.
  intros Hvalid Hprev. destruct prev as [p|]; cbn.
  - destruct (attach_returns p false w) as (w' & ? & ? & ?); [by apply Hprev|].
    by exists w'.
  - destruct (detach_returns w) as (w' & ? & ? & ?); [done|]. by exists w'.
Qed.

(** What a body run under a [TemporaryAttacher] leaves: the attacher changes
    only [currentShader] and the commands issued, around the body. *)
Lemma with_TemporaryAttacher_inv {A} shader (body : M A) w (r : Result A) :
  with_TemporaryAttacher shader body w = r ->
  r = Undefined \/
  exists w1 w2 w',
    attach shader true w = Ok tt w1 /\ same_data w w1 /\
    TemporaryAttacher_dtor (currentShader w) w2 = Ok tt w' /\ same_data w2 w' /\
    ((exists a, body w1 = Ok a w2 /\ r = Ok a w') \/
     (exists e, body w1 = Throw e w2 /\ r = Throw e w')).
Proof.
  intros <-. unfold with_TemporaryAttacher.
  destruct (attach shader true w) as [[] w1|e w1|] eqn:E1; [| |by left].
  2: by destruct (attach_not_Throw _ _ _ _ _ E1).
  assert (same_data w w1) by (apply (attach_same_data shader true); by rewrite E1).
  destruct (body w1) as [a w2|e w2|] eqn:E2; [| |by left].
  - unfold mbind, M_bind.
    destruct (TemporaryAttacher_dtor _ w2) as [[] w3|e w3|] eqn:E3; [| |by left].
    2: by destruct (TemporaryAttacher_dtor_not_Throw _ _ _ _ E3).
    right. exists w1, w2, w3. split_and!; try done.
    + apply (TemporaryAttacher_dtor_same_data (currentShader w)). by rewrite E3.
    + left. by exists a.
  - destruct (TemporaryAttacher_dtor _ w2) as [[] w3|e3 w3|] eqn:E3; [| |by left].
    2: by left.
    right. exists w1, w2, w3. split_and!; try done.
    + apply (TemporaryAttacher_dtor_same_data (currentShader w)). by rewrite E3.
    + right. by exists e.
Qed.

(** *** std::find *)

Lemma std_find_le {A} `{EqDecision A} (v : list A) x :
  (std_find v x <= length v)%nat.
Proof. induction v as [|y v IH]; cbn; [lia|]. case_decide; lia. Qed.

Lemma std_find_found {A} `{EqDecision A} (v : list A) x :
  std_find v x <> length v -> lowest x v (std_find v x).
Proof.
  induction v as [|y v IH]; cbn; [done|].
  case_decide as Hy.
  - intros _. split; [by rewrite Hy|]. intros j Hj. lia.
  - intros Hne. destruct IH as [Hat Hbelow]; [lia|].
    split; [done|]. intros [|j] Hj; cbn; [congruence|].
    apply Hbelow. lia.
Qed.

Lemma std_find_end {A} `{EqDecision A} (v : list A) x :
  std_find v x = length v <-> x ∉ v.
Proof.
  induction v as [|y v IH]; cbn.
  - split; [intros _; apply not_elem_of_nil|done].
  - case_decide as Hy.
    + split; [done|]. intros Hnot. destruct Hnot. rewrite Hy. left.
    + rewrite not_elem_of_cons. split.
      * intros [= Hlen]. split; [congruence|]. by apply IH.
      * intros [_ Hnot]. f_equal. by apply IH.
Qed.

Lemma lowest_unique {A} (x : A) v i j : lowest x v i -> lowest x v j -> i = j.
Proof.
  intros [Hi Hbi] [Hj Hbj].
  destruct (Nat.lt_trichotomy i j) as [Hlt|[->|Hlt]]; [|done|].
  - by destruct (Hbj i Hlt).
  - by destruct (Hbi j Hlt).
Qed.

(** *** Inversion of the monad *)

Lemma bind_Ok_inv {A B} (m : M A) (k : A -> M B) w b w' :
  (m ≫= k) w = Ok b w' -> exists a w1, m w = Ok a w1 /\ k a w1 = Ok b w'.
Proof.
  unfold mbind, M_bind. destruct (m w) as [a w1| |]; [|done..].
  intros H. by exists a, w1.
Qed.

Lemma bind_after_inv {A B} (m : M A) (k : A -> M B) w w' :
  after ((m ≫= k) w) = Some w' ->
  (exists a w1, m w = Ok a w1 /\ after (k a w1) = Some w') \/
  (exists e, m w = Throw e w').
Proof.
  unfold mbind, M_bind. destruct (m w) as [a w1|e w1|]; [| |done].
  - intros H. left. by exists a, w1.
  - intros [= <-]. right. by exists e.
Qed.

(** *** getUniformLocation *)

Lemma with_uniforms_same this s w :
  objects w !! this = Some s -> with_uniforms this s (uniforms s) w = w.
Proof.
  intros Hs. unfold with_uniforms.
  replace (set_uniforms (uniforms s) s) with s by by destruct s.
  rewrite insert_id by done. by destruct w.
Qed.

Lemma getUniformLocation_cases this name unsafe drv w s :
  objects w !! this = Some s ->
  (exists location cache,
     getUniformLocation this name unsafe drv w
     = Ok location (with_uniforms this s cache w) /\
     (unsafe = false -> location <> -1)) \/
  (exists e, getUniformLocation this name unsafe drv w = Throw e w /\
             unsafe = false /\ ~ resolves s name drv).
Proof.
  intros Hs. unfold getUniformLocation.
  rewrite (bind_Ok _ _ _ _ _ (deref_Ok _ _ _ Hs)). cbv zeta.
  assert (Hquery :
    (answer_glGetUniformLocation drv (program s) name =? -1) && negb unsafe = false ->
    exists cache,
      (assign this (fun s' => set_uniforms
         (<[name := answer_glGetUniformLocation drv (program s) name]> (uniforms s')) s');;
       mret (answer_glGetUniformLocation drv (program s) name)) w
      = Ok (answer_glGetUniformLocation drv (program s) name)
           (with_uniforms this s cache w)).
  { intros _. rewrite (bind_Ok _ _ _ _ _ (assign_Ok _ _ _ _ Hs)). by eexists. }
  destruct (uniforms s !! name) as [location|] eqn:Hcache.
  - destruct (Z.eqb_spec location (-1)) as [->|Hne]; cbn [negb orb].
    + destruct unsafe; cbn [negb orb andb].
      * left. exists (-1), (uniforms s). by rewrite with_uniforms_same.
      * destruct (Z.eqb_spec (answer_glGetUniformLocation drv (program s) name) (-1))
          as [Heq|Hne]; cbn [andb].
        -- right. eexists. split_and!; [done..|].
           intros [(l & Hl & ?)|?]; [congruence|done].
        -- left. destruct Hquery as [cache ->]; [done|].
           by exists (answer_glGetUniformLocation drv (program s) name), cache.
    + left. exists location, (uniforms s). by rewrite with_uniforms_same.
  - destruct ((_ =? -1) && negb unsafe) eqn:E.
    + apply andb_prop in E as [Heq%Z.eqb_eq Hunsafe%negb_true_iff].
      right. eexists. split_and!; [done..|].
      intros [(l & Hl & ?)|?]; [congruence|done].
    + left. destruct Hquery as [cache ->]; [done|].
      exists (answer_glGetUniformLocation drv (program s) name), cache.
      split; [done|]. intros ->. cbn in E. by apply andb_false_iff in E as [?%Z.eqb_neq|].
Qed.

(** A name that resolves has a location. *)
Lemma getUniformLocation_resolves this name drv w s :
  objects w !! this = Some s -> resolves s name drv ->
  exists location cache,
    getUniformLocation this name false drv w
    = Ok location (with_uniforms this s cache w).
Proof.
  intros Hs Hres.
  destruct (getUniformLocation_cases this name false drv w s Hs)
    as [(location & cache & -> & _)|(e & _ & _ & Hnot)]; [|done].
  by exists location, cache.
Qed.

(** *** getTextureUnit *)

Lemma with_unit_same this s name textureunit w :
  objects w !! this = Some s -> textureUnitPool s !! name = Some textureunit ->
  with_unit this s name textureunit w = w.
Proof.
  intros Hs Hu. unfold with_unit. rewrite (insert_id (textureUnitPool s)) by done.
  replace (set_textureUnitPool (textureUnitPool s) s) with s by by destruct s.
  rewrite insert_id by done. by destruct w.
Qed.

(** [getTextureUnit] either returns the unit the algorithm selects, having
    recorded it for the name, or throws, and then changes nothing. *)
Lemma getTextureUnit_cases this name w s :
  objects w !! this = Some s ->
  (exists textureunit,
     getTextureUnit this name w = Ok textureunit (with_unit this s name textureunit w) /\
     chosen (textureUnitPool s) (textureCounters w) (activeTextureUnits s)
       name textureunit) \/
  (getTextureUnit this name w
   = Throw {| what_format := "No more texture units available for shader.";
              what_args := [] |} w /\
   textureUnitPool s !! name = None /\
   (0 ∉ textureCounters w) /\ (0%N ∉ activeTextureUnits s)).
Proof.
  intros Hs. unfold getTextureUnit, chosen.
  rewrite (bind_Ok _ _ _ _ _ (deref_Ok _ _ _ Hs)).
  destruct (textureUnitPool s !! name) as [assigned|] eqn:Hpool.
  - left. exists assigned. by rewrite with_unit_same.
  - run_monad. case_bool_decide as Hfree; cbn.
    + left. eexists. rewrite Hs. cbn. split; [done|].
      eexists. split; [done|]. left. by apply std_find_found.
    + apply std_find_end in Hfree.
      case_bool_decide as Hown; cbn.
      * right. split_and!; try done. by apply std_find_end.
      * left. eexists. rewrite Hs. cbn. split; [done|].
        eexists. split; [done|]. right. split; [done|]. by apply std_find_found.
Qed.

Lemma bind_Throw_inv {A B} (m : M A) (k : A -> M B) w e w' :
  (m ≫= k) w = Throw e w' ->
  m w = Throw e w' \/ exists a w1, m w = Ok a w1 /\ k a w1 = Throw e w'.
Proof.
  unfold mbind, M_bind. destruct (m w) as [a w1|e1 w1|]; [| |done].
  - intros H. right. by exists a, w1.
  - intros [= <- <-]. by left.
Qed.

(** *** sendTexture *)

(** [attach] and the destructor of the attacher only add to the commands
    issued. *)
Lemma preserves_issued_attach this temporary w w' :
  after (attach this temporary w) = Some w' ->
  exists cs, issued w' = issued w ++ cs.
Proof.
  unfold attach. run_monad. destruct (objects w !! this); [|done].
  cbn. destruct (bool_decide _), temporary; cbn; intros [= <-]; cbn;
    rewrite <- ?app_assoc; try (by eexists).
  all: exists []; by rewrite app_nil_r.
Qed.

Lemma preserves_issued_dtor prev w w' :
  after (TemporaryAttacher_dtor prev w) = Some w' ->
  exists cs, issued w' = issued w ++ cs.
Proof.
  destruct prev as [p|]; cbn; [apply preserves_issued_attach|].
  unfold detach. run_monad. destruct (defaultShader w) as [d|].
  - apply preserves_issued_attach.
  - intros [= <-]. by eexists.
Qed.


Lemma vector_at_Some {A} (v : list A) i x :
  vector_at v i = Some x <-> 0 <= i /\ v !! Z.to_nat i = Some x.
Proof.
  unfold vector_at. destruct (Z.ltb_spec i 0).
  - split; [done|]. intros [? _]. lia.
  - split; [intros; split; [lia|done]|]. by intros [_ ?].
Qed.

(** What [sendTexture] does to the unit bookkeeping when it returns: the
    record of the shader takes the texture at the unit selected for the name,
    the selection is recorded, and the counter of the unit goes up by one
    exactly when the record held no texture there. *)
Lemma sendTexture_Ok this name texture drv w w' s :
  objects w !! this = Some s ->
  sendTexture this name texture drv w = Ok tt w' ->
  exists textureunit bound,
    chosen (textureUnitPool s) (textureCounters w) (activeTextureUnits s)
      name textureunit /\
    1 <= textureunit /\
    activeTextureUnits s !! Z.to_nat (textureunit - 1) = Some bound /\
    records w'
    = <[this := <[Z.to_nat (textureunit - 1) := texture]> (activeTextureUnits s)]>
        (records w) /\
    pools w' = <[this := <[name := textureunit]> (textureUnitPool s)]> (pools w) /\
    sources_of w' = sources_of w /\
    maxTextureUnits w' = maxTextureUnits w /\
    getNumTextureUnits w' = getNumTextureUnits w /\
    defaultSources w' = defaultSources w /\
    (bound <> 0%N -> textureCounters w' = textureCounters w) /\
    (bound = 0%N ->
     exists counter,
       textureCounters w !! Z.to_nat (textureunit - 1) = Some counter /\
       counter + 1 <= INT_MAX /\
       textureCounters w'
       = <[Z.to_nat (textureunit - 1) := counter + 1]> (textureCounters w)) /\
    exists location before after_,
      issued w'
      = issued w ++ before
        ++ [bindTextureToUnit texture textureunit false;
            glUniform1i location textureunit; setActiveTextureUnit 0]
        ++ after_.
Proof.
  intros Hs H.
  destruct (with_TemporaryAttacher_inv _ _ _ _ H)
    as [?|(w1 & w2 & w3 & Hattach & Hw1 & Hdtor & Hw3
           & [(a & Hbody & Heq)|(e & _ & ?)])];
    try done.
  assert (exists before, issued w1 = issued w ++ before) as [before Hbefore].
  { apply (preserves_issued_attach this true). by rewrite Hattach. }
  assert (exists after_, issued w3 = issued w2 ++ after_) as [after_ Hafter].
  { apply (preserves_issued_dtor (currentShader w)). by rewrite Hdtor. }
  injection Heq as _ ->.
  destruct Hw1 as (Ho1 & _ & Hd1 & Hc1 & Hm1 & Hn1).
  destruct Hw3 as (Ho3 & _ & Hd3 & Hc3 & Hm3 & Hn3).
  assert (Hs1 : objects w1 !! this = Some s) by by rewrite Ho1.
  apply bind_Ok_inv in Hbody as (location & wu & Hloc & Hbody).
  destruct (getUniformLocation_cases this name false drv w1 s Hs1)
    as [(location' & cache & Hloc' & _)|(e & Hloc' & _)]; [|congruence].
  rewrite Hloc' in Hloc. injection Hloc as <- <-.
  apply bind_Ok_inv in Hbody as (textureunit0 & wt & Hunit & Hbody).
  set (su := set_uniforms cache s) in *.
  assert (Hsu : objects (with_uniforms this s cache w1) !! this = Some su)
    by apply lookup_insert_eq.
  destruct (getTextureUnit_cases this name _ su Hsu)
    as [(textureunit & Hunit' & Hchosen)|(Hunit' & _)]; [|congruence].
  rewrite Hunit' in Hunit. injection Hunit as <- <-.
  exists textureunit.
  unfold with_unit, with_uniforms in Hbody. run_monad_in Hbody. cbn in Hbody.
  rewrite lookup_insert_eq in Hbody. cbn in Hbody.
  destruct (vector_at (activeTextureUnits s) (textureunit - 1)) as [bound|] eqn:Hbound;
    [|done].
  apply vector_at_Some in Hbound as [Hpos Hbound].
  exists bound. cbn in Hbody.
  rewrite !insert_insert_eq in Hbody.
  assert (Hobjects :
    records w2 = <[this := <[Z.to_nat (textureunit - 1) := texture]> (activeTextureUnits s)]> (records w)
    /\ pools w2 = <[this := <[name := textureunit]> (textureUnitPool s)]> (pools w)
    /\ sources_of w2 = sources_of w
    /\ maxTextureUnits w2 = maxTextureUnits w
    /\ getNumTextureUnits w2 = getNumTextureUnits w
    /\ defaultSources w2 = defaultSources w
    /\ (bound <> 0%N -> textureCounters w2 = textureCounters w)
    /\ (bound = 0%N ->
        exists counter,
          textureCounters w !! Z.to_nat (textureunit - 1) = Some counter /\
          counter + 1 <= INT_MAX /\
          textureCounters w2
          = <[Z.to_nat (textureunit - 1) := counter + 1]> (textureCounters w))
    /\ issued w2
       = issued w1
         ++ [bindTextureToUnit texture textureunit false;
             glUniform1i location' textureunit; setActiveTextureUnit 0]).
  { unfold records, pools, sources_of.
    case_bool_decide as Hzero; cbn in Hbody.
    - destruct (vector_at (textureCounters w1) (textureunit - 1)) as [counter|] eqn:Hcounter;
        cbn in Hbody; [|done].
      apply vector_at_Some in Hcounter as [_ Hcounter].
      unfold int in Hbody.
      destruct (Z.leb_spec INT_MIN (counter + 1)); cbn in Hbody; [|done].
      destruct (Z.leb_spec (counter + 1) INT_MAX); cbn in Hbody; [|done].
      rewrite lookup_insert_eq in Hbody. cbn in Hbody.
      rewrite !insert_insert_eq in Hbody.
      injection Hbody as _ <-. cbn.
      rewrite !fmap_insert, Ho1, Hm1, Hn1, Hd1, Hc1. cbn.
      split_and!; try done.
      + rewrite (insert_id (shaderSources <$> objects w)); [done|].
        by rewrite lookup_fmap, Hs.
      + rewrite Hc1 in Hcounter. intros _. by exists counter.
      + by rewrite <- !app_assoc.
    - rewrite lookup_insert_eq in Hbody. cbn in Hbody.
      rewrite !insert_insert_eq in Hbody.
      injection Hbody as _ <-. cbn.
      rewrite !fmap_insert, Ho1, Hm1, Hn1, Hd1, Hc1. cbn.
      split_and!; try done.
      + rewrite (insert_id (shaderSources <$> objects w)); [done|].
        by rewrite lookup_fmap, Hs.
      + by rewrite <- !app_assoc. }
  destruct Hobjects as (?&?&?&?&?&?&Hnz&Hz&Hissued).
  unfold records, pools, sources_of in *. rewrite Ho3, Hm3, Hn3, Hd3, Hc3.
  split_and!; try done; [by rewrite <- Hc1 | lia |].
  exists location', before, after_.
  by rewrite Hafter, Hissued, Hbefore, <- !app_assoc.
Qed.

(** *** Counting the users of a unit *)

Lemma users_insert_fresh i this active (rs : gmap nat (list N)) :
  rs !! this = None ->
  users i (<[this := active]> rs)
  = (users i rs + if decide (holds i active) then 1 else 0)%nat.
Proof.
  intros Hfresh. unfold users. rewrite map_filter_insert. cbn.
  destruct (decide (holds i active)).
  - rewrite map_size_insert_None; [lia|].
    apply map_lookup_filter_None. by left.
  - rewrite delete_id by done. lia.
Qed.

Lemma users_delete i this active (rs : gmap nat (list N)) :
  rs !! this = Some active ->
  (users i (delete this rs) + if decide (holds i active) then 1 else 0)%nat
  = users i rs.
Proof.
  intros Hthis. unfold users. rewrite map_filter_delete.
  destruct (decide (holds i active)) as [Hholds|Hnot].
  - assert (Hin : filter (fun kv : nat * list N => holds i kv.2) rs !! this = Some active)
      by by apply map_lookup_filter_Some.
    rewrite map_size_delete, Hin.
    pose proof (map_size_ne_0_lookup_2 _ this (mk_is_Some _ _ Hin)). lia.
  - rewrite map_size_delete_None; [lia|].
    apply map_lookup_filter_None. right. intros active' Hactive'. cbn. congruence.
Qed.

Lemma users_insert i this old active (rs : gmap nat (list N)) :
  rs !! this = Some old ->
  (users i (<[this := active]> rs) + if decide (holds i old) then 1 else 0)%nat
  = (users i rs + if decide (holds i active) then 1 else 0)%nat.
Proof.
  intros Hthis. rewrite <- insert_delete_eq.
  rewrite users_insert_fresh by apply lookup_delete_eq.
  pose proof (users_delete i this old rs Hthis). lia.
Qed.

Lemma users_holder i this active (rs : gmap nat (list N)) :
  rs !! this = Some active -> holds i active -> (1 <= users i rs)%nat.
Proof.
  intros Hthis Hholds. pose proof (users_delete i this active rs Hthis) as H.
  rewrite decide_True in H by done. lia.
Qed.

Lemma users_empty i : users i ∅ = O.
Proof. unfold users. by rewrite map_filter_empty, map_size_empty. Qed.

Lemma holds_replicate i n : ~ holds i (replicate n 0%N).
Proof. intros (texture & [-> _]%lookup_replicate & ?). done. Qed.

Lemma holds_insert i j texture active :
  (j < length active)%nat ->
  holds i (<[j := texture]> active)
  <-> (i = j /\ texture <> 0%N) \/ (i <> j /\ holds i active).
Proof.
  intros Hj. unfold holds. destruct (decide (i = j)) as [->|Hne].
  - rewrite list_lookup_insert_eq by done. split.
    + intros (t & [= <-] & ?). by left.
    + intros [[_ ?]|[? _]]; [by exists texture|done].
  - rewrite list_lookup_insert_ne by done. split.
    + intros ?. by right.
    + by intros [[? _]|[_ ?]].
Qed.

(** *** The consistency of the bookkeeping is kept *)

Lemma records_lookup w this s :
  objects w !! this = Some s -> records w !! this = Some (activeTextureUnits s).
Proof. intros H. unfold records. by rewrite lookup_fmap, H. Qed.

Lemma pools_lookup w this s :
  objects w !! this = Some s -> pools w !! this = Some (textureUnitPool s).
Proof. intros H. unfold pools. by rewrite lookup_fmap, H. Qed.

Lemma sources_of_lookup w this s :
  objects w !! this = Some s -> sources_of w !! this = Some (shaderSources s).
Proof. intros H. unfold sources_of. by rewrite lookup_fmap, H. Qed.

Lemma consistent_same_core n w w' :
  same_core w w' -> consistent n w -> consistent n w'.
Proof.
  intros (Hr & Hp & Hs & Hc & Hm & Hn) [].
  fold (sources_of w') in Hs. fold (sources_of w) in Hs.
  split; rewrite ?Hr, ?Hp, ?Hs, ?Hc, ?Hm, ?Hn; done.
Qed.

(** The shape of every change to the bookkeeping of one object: its record
    is overwritten by one of the same length, its assignments by ones within
    the units, and the counters by ones of the same length that still bound
    the users. *)
Lemma consistent_update n w w' this old active pool :
  consistent n w ->
  records w !! this = Some old ->
  records w' = <[this := active]> (records w) ->
  length active = length old ->
  pools w' = <[this := pool]> (pools w) ->
  (forall name textureunit, pool !! name = Some textureunit ->
     1 <= textureunit <= Z.of_nat (maxTextureUnits w)) ->
  sources_of w' = sources_of w ->
  maxTextureUnits w' = maxTextureUnits w ->
  getNumTextureUnits w' = getNumTextureUnits w ->
  length (textureCounters w') = length (textureCounters w) ->
  Forall (fun c => 0 <= c <= INT_MAX) (textureCounters w') ->
  (forall i counter, textureCounters w' !! i = Some counter ->
     Z.of_nat (users i (<[this := active]> (records w))) <= counter) ->
  consistent n w'.
Proof.
  intros [] Hold Hr Hlen Hp Hpool Hs Hm Hn Hcl Hint Husers.
  split; rewrite ?Hr, ?Hp, ?Hs, ?Hm, ?Hn; try done.
  - destruct consistent_max0 as [?|[? Hempty]]; [by left|].
    by rewrite Hempty in Hold.
  - congruence.
  - intros this' active'. destruct (decide (this' = this)) as [->|Hne].
    + rewrite lookup_insert_eq. intros [= <-]. rewrite Hlen. eauto.
    + rewrite lookup_insert_ne by done. eauto.
  - intros this' pool' name textureunit.
    destruct (decide (this' = this)) as [->|Hne].
    + rewrite lookup_insert_eq. intros [= <-]. eauto.
    + rewrite lookup_insert_ne by done. eauto.
Qed.

Lemma chosen_in_range n w this s name textureunit :
  consistent n w -> objects w !! this = Some s ->
  chosen (textureUnitPool s) (textureCounters w) (activeTextureUnits s)
    name textureunit ->
  1 <= textureunit <= Z.of_nat (maxTextureUnits w).
Proof.
  intros Hw Hs. unfold chosen.
  destruct (textureUnitPool s !! name) as [assigned|] eqn:Hpool.
  - intros ->. eapply (consistent_pools _ _ Hw); [by apply pools_lookup|done].
  - intros (i & -> & [[Hi _]|[_ [Hi _]]]).
    + apply lookup_lt_Some in Hi. rewrite (consistent_counters _ _ Hw) in Hi. lia.
    + apply lookup_lt_Some in Hi.
      rewrite (consistent_records _ _ Hw this _ (records_lookup _ _ _ Hs)) in Hi. lia.
Qed.

Lemma getTextureUnit_consistent n this name w w' :
  consistent n w -> after (getTextureUnit this name w) = Some w' ->
  consistent n w'.
Proof.
  intros Hw Hafter.
  destruct (objects w !! this) as [s|] eqn:Hs.
  2: { unfold getTextureUnit, deref, mbind, M_bind in Hafter. by rewrite Hs in Hafter. }
  destruct (getTextureUnit_cases this name w s Hs)
    as [(textureunit & Heq & Hchosen)|(Heq & _)]; rewrite Heq in Hafter;
    injection Hafter as <-; [|done].
  pose proof (chosen_in_range _ _ _ _ _ _ Hw Hs Hchosen) as Hrange.
  apply (consistent_update n w _ this (activeTextureUnits s) (activeTextureUnits s)
           (<[name := textureunit]> (textureUnitPool s))); try done.
  - by apply records_lookup.
  - unfold with_unit, records. cbn. by rewrite fmap_insert.
  - unfold with_unit, pools. cbn. by rewrite fmap_insert.
  - intros name' u. destruct (decide (name' = name)) as [->|Hne].
    + rewrite lookup_insert_eq. by intros [= <-].
    + rewrite lookup_insert_ne by done.
      apply (consistent_pools _ _ Hw this). by apply pools_lookup.
  - unfold with_unit, sources_of. cbn. rewrite fmap_insert. cbn.
    apply insert_id. by rewrite lookup_fmap, Hs.
  - apply (consistent_int _ _ Hw).
  - intros i counter Hi. rewrite insert_id by by apply records_lookup.
    by apply (consistent_users _ _ Hw).
Qed.

Lemma sendTexture_Throw_same_core this name texture drv w e w' :
  sendTexture this name texture drv w = Throw e w' -> same_core w w'.
Proof.
  intros H.
  destruct (with_TemporaryAttacher_inv _ _ _ _ H)
    as [?|(w1 & w2 & w3 & Hattach & Hw1 & _ & Hw3 & [(a & _ & ?)|(e' & Hbody & Heq)])];
    try done.
  injection Heq as _ ->.
  transitivity w1; [by apply same_data_core|].
  transitivity w2; [|by apply same_data_core].
  destruct (objects w !! this) as [s|] eqn:Hs0.
  2: { unfold attach, deref, mbind, M_bind in Hattach. by rewrite Hs0 in Hattach. }
  assert (Hs : objects w1 !! this = Some s) by by destruct Hw1 as [-> _].
  apply bind_Throw_inv in Hbody as [Hloc|(location & wu & Hloc & Hbody)].
  - apply (getUniformLocation_same_core this name false drv). by rewrite Hloc.
  - transitivity wu.
    { apply (getUniformLocation_same_core this name false drv). by rewrite Hloc. }
    destruct (getUniformLocation_cases this name false drv w1 s Hs)
      as [(location' & cache & Hloc' & _)|(e'' & Hloc' & _)]; [|congruence].
    rewrite Hloc' in Hloc. injection Hloc as <- <-.
    apply bind_Throw_inv in Hbody as [Hunit|(textureunit & wt & Hunit & Hbody)].
    + assert (Hsu : objects (with_uniforms this s cache w1) !! this
                    = Some (set_uniforms cache s)) by apply lookup_insert_eq.
      destruct (getTextureUnit_cases this name _ _ Hsu)
        as [(textureunit & Heq & _)|(Heq & _)]; rewrite Heq in Hunit; [done|].
      by injection Hunit as _ <-.
    + exfalso. run_monad_in Hbody. cbn in Hbody.
      destruct (objects wt !! this); [|done]. cbn in Hbody.
      destruct (vector_at _ _); [|done]. cbn in Hbody.
      destruct (bool_decide _); cbn in Hbody.
      * destruct (vector_at _ _); [|done]. cbn in Hbody.
        destruct (int _); [|done]. cbn in Hbody.
        by destruct (objects wt !! this).
      * by destruct (objects wt !! this).
Qed.

Lemma sendTexture_consistent n this name texture drv w w' :
  consistent n w -> after (sendTexture this name texture drv w) = Some w' ->
  consistent n w'.
Proof.
  intros Hw Hafter.
  destruct (sendTexture this name texture drv w) as [[] w1|e w1|] eqn:E;
    [| |done]; injection Hafter as ->.
  2: { apply (consistent_same_core n w); [|done].
       by apply (sendTexture_Throw_same_core _ _ _ _ _ _ _ E). }
  destruct (objects w !! this) as [s|] eqn:Hs.
  2: { destruct (with_TemporaryAttacher_inv _ _ _ _ E)
         as [?|(w1 & _ & _ & Hattach & _)]; [done|].
       unfold attach, deref, mbind, M_bind in Hattach. by rewrite Hs in Hattach. }
  destruct (sendTexture_Ok _ _ _ _ _ _ _ Hs E)
    as (textureunit & bound & Hchosen & Hpos & Hbound & Hr & Hp & Hso & Hm & Hn
        & _ & Hnz & Hz & _).
  pose proof (chosen_in_range _ _ _ _ _ _ Hw Hs Hchosen) as Hrange.
  pose proof (records_lookup _ _ _ Hs) as Hrec.
  pose proof (lookup_lt_Some _ _ _ Hbound) as Hidx.
  set (idx := Z.to_nat (textureunit - 1)) in *.
  assert (Hcounters :
    length (textureCounters w') = length (textureCounters w) /\
    Forall (fun c => 0 <= c <= INT_MAX) (textureCounters w') /\
    forall i counter, textureCounters w' !! i = Some counter ->
      Z.of_nat (users i (<[this := <[idx := texture]> (activeTextureUnits s)]>
                           (records w))) <= counter).
  { destruct (decide (bound = 0%N)) as [->|Hbnz].
    - destruct (Hz eq_refl) as (c & Hc & Hmax & ->).
      pose proof (consistent_users _ _ Hw _ _ Hc) as Hu.
      split_and!.
      + by rewrite length_insert.
      + apply Forall_insert; [apply (consistent_int _ _ Hw)|].
        pose proof (consistent_int _ _ Hw) as Hint.
        rewrite Forall_lookup in Hint. specialize (Hint _ _ Hc). cbn in Hint. lia.
      + intros i counter.
        pose proof (users_insert i this _ (<[idx := texture]> (activeTextureUnits s))
                      _ Hrec) as Hui.
        destruct (decide (i = idx)) as [->|Hne].
        * rewrite list_lookup_insert_eq by by eapply lookup_lt_Some.
          intros [= <-]. repeat destruct (decide _) in Hui; lia.
        * rewrite list_lookup_insert_ne by done. intros Hi.
          pose proof (consistent_users _ _ Hw _ _ Hi).
          destruct (decide (holds i (activeTextureUnits s))) as [Hh|Hh];
            destruct (decide (holds i (<[idx := texture]> (activeTextureUnits s))))
              as [Hh'|Hh']; try lia.
          apply holds_insert in Hh' as [[? _]|[_ ?]]; done.
    - rewrite (Hnz Hbnz). split_and!; [done|apply (consistent_int _ _ Hw)|].
      intros i counter Hi.
      pose proof (consistent_users _ _ Hw _ _ Hi).
      pose proof (users_insert i this _ (<[idx := texture]> (activeTextureUnits s))
                    _ Hrec) as Hui.
      destruct (decide (holds i (activeTextureUnits s))) as [Hh|Hh];
        destruct (decide (holds i (<[idx := texture]> (activeTextureUnits s))))
          as [Hh'|Hh']; try lia.
      apply holds_insert in Hh' as [[-> _]|[_ ?]]; [|done..].
      destruct Hh. by exists bound. }
  destruct Hcounters as (Hcl & Hint & Husers).
  apply (consistent_update n w w' this (activeTextureUnits s)
           (<[idx := texture]> (activeTextureUnits s))
           (<[name := textureunit]> (textureUnitPool s))); try done.
  - by rewrite length_insert.
  - intros name' u. destruct (decide (name' = name)) as [->|Hne].
    + rewrite lookup_insert_eq. by intros [= <-].
    + rewrite lookup_insert_ne by done.
      apply (consistent_pools _ _ Hw this). by apply pools_lookup.
Qed.

(** *** unloadVolatile *)

(** The loop of [unloadVolatile], when the counters cover the record and are
    within [0, INT_MAX]: no access is out of bounds, nothing overflows, and
    the counter of index [j] becomes [max (c - 1) 0] when the record holds a
    texture for it and stays [c] when it does not. *)
Lemma release_from_spec active : forall i0 counters,
  (i0 + length active <= length counters)%nat ->
  Forall (fun c => 0 <= c <= INT_MAX) counters ->
  exists counters',
    release_from i0 active counters = Some counters' /\
    length counters' = length counters /\
    Forall (fun c => 0 <= c <= INT_MAX) counters' /\
    forall j c, counters !! j = Some c ->
      counters' !! j
      = Some (if decide ((i0 <= j)%nat /\ holds (j - i0) active)
              then Z.max (c - 1) 0 else c).
Proof.
  induction active as [|texture active IH]; intros i0 counters Hlen Hint.
  - exists counters. split_and!; try done. intros j c Hj.
    rewrite decide_False; [done|]. by intros [_ (t & ? & _)].
  - cbn [release_from length] in *.
    assert (Hrest : forall counters1,
      length counters1 = length counters ->
      Forall (fun c => 0 <= c <= INT_MAX) counters1 ->
      exists counters',
        release_from (S i0) active counters1 = Some counters' /\
        length counters' = length counters /\
        Forall (fun c => 0 <= c <= INT_MAX) counters' /\
        forall j c, counters1 !! j = Some c ->
          counters' !! j
          = Some (if decide ((S i0 <= j)%nat /\ holds (j - S i0) active)
                  then Z.max (c - 1) 0 else c)).
    { intros counters1 Hl1 Hi1.
      destruct (IH (S i0) counters1) as (counters' & ? & ? & ? & ?);
        [lia|done|].
      exists counters'. split_and!; try done. congruence. }
    assert (Hshift : forall j, (S i0 <= j)%nat ->
      holds (j - i0) (texture :: active) <-> holds (j - S i0) active).
    { intros j Hj. replace (j - i0)%nat with (S (j - S i0)) by lia. done. }
    destruct (N.ltb_spec 0 texture) as [Hpos|Hzero].
    + destruct (lookup_lt_is_Some_2 counters i0) as [c0 Hc0]; [lia|].
      rewrite Hc0. cbn.
      pose proof Hint as Hint'. rewrite Forall_lookup in Hint'.
      specialize (Hint' _ _ Hc0). cbn in Hint'.
      unfold int. unfold INT_MIN, INT_MAX in *.
      destruct (Z.leb_spec (- 2 ^ 31) (c0 - 1)); [|lia].
      destruct (Z.leb_spec (c0 - 1) (2 ^ 31 - 1)); [|lia]. cbn.
      destruct (Hrest (<[i0 := Z.max (c0 - 1) 0]> counters))
        as (counters' & Heq & Hl & Hi & Hat).
      { by rewrite length_insert. }
      { apply Forall_insert; [done|]. lia. }
      exists counters'. split_and!; try done.
      intros j c Hj. destruct (decide (j = i0)) as [->|Hne].
      * rewrite (Hat i0 (Z.max (c0 - 1) 0)).
        2: { apply list_lookup_insert_eq. by eapply lookup_lt_Some. }
        rewrite decide_False by lia.
        rewrite decide_True; [congruence|].
        split; [done|]. rewrite Nat.sub_diag. exists texture. split; [done|lia].
      * rewrite (Hat j c) by by rewrite list_lookup_insert_ne.
        f_equal. apply decide_ext. split.
        -- intros [Hle Hh]. split; [lia|]. by apply Hshift.
        -- intros [Hle Hh]. assert (S i0 <= j)%nat by lia.
           split; [done|]. by apply Hshift.
    + destruct (Hrest counters) as (counters' & Heq & Hl & Hi & Hat); [done..|].
      exists counters'. split_and!; try done.
      intros j c Hj. rewrite (Hat j c Hj). f_equal.
      destruct (decide (j = i0)) as [->|Hne].
      * rewrite decide_False by lia. rewrite decide_False; [done|].
        rewrite Nat.sub_diag. intros [_ (t & [= <-] & ?)]. lia.
      * apply decide_ext. split.
        -- intros [Hle Hh]. split; [lia|]. by apply Hshift.
        -- intros [Hle Hh]. assert (S i0 <= j)%nat by lia.
           split; [done|]. by apply Hshift.
Qed.

Lemma unloadVolatile_cases this w s :
  objects w !! this = Some s ->
  unloadVolatile this w
  = match release_from 0 (activeTextureUnits s) (textureCounters w) with
    | Some counters => Ok tt (unloaded this s counters w)
    | None => Undefined
    end.
Proof.
  intros Hs. unfold unloadVolatile, unloaded.
  rewrite (bind_Ok _ _ _ _ _ (deref_Ok _ _ _ Hs)).
  run_monad. cbn.
  destruct (bool_decide (currentShader w = Some this)),
    (bool_decide (program s <> 0%N)); cbn; rewrite Hs; cbn;
    destruct (release_from 0 (activeTextureUnits s) (textureCounters w));
    cbn; try done;
    rewrite ?lookup_insert_eq; cbn; rewrite ?lookup_insert_eq; cbn;
    rewrite ?insert_insert_eq, ?app_nil_r, <- ?app_assoc; done.
Qed.

(** In a consistent state [unloadVolatile] returns for every object. *)
Lemma unloadVolatile_returns n this w s :
  consistent n w -> objects w !! this = Some s ->
  exists counters,
    release_from 0 (activeTextureUnits s) (textureCounters w) = Some counters /\
    unloadVolatile this w = Ok tt (unloaded this s counters w) /\
    length counters = length (textureCounters w) /\
    Forall (fun c => 0 <= c <= INT_MAX) counters /\
    forall i c, textureCounters w !! i = Some c ->
      counters !! i
      = Some (if decide (holds i (activeTextureUnits s))
              then Z.max (c - 1) 0 else c).
Proof.
  intros Hw Hs.
  pose proof (consistent_records _ _ Hw this _ (records_lookup _ _ _ Hs)) as Hlen.
  destruct (release_from_spec (activeTextureUnits s) 0 (textureCounters w))
    as (counters & Heq & Hl & Hint & Hat).
  { rewrite (consistent_counters _ _ Hw). lia. }
  { apply (consistent_int _ _ Hw). }
  exists counters. rewrite (unloadVolatile_cases this w s Hs), Heq.
  split_and!; try done.
  intros i c Hi. rewrite (Hat i c Hi). f_equal. apply decide_ext.
  rewrite Nat.sub_0_r. split; [by intros [_ ?]|]. intros ?. split; [lia|done].
Qed.

Lemma unloadVolatile_consistent n this w w' :
  consistent n w -> after (unloadVolatile this w) = Some w' -> consistent n w'.
Proof.
  intros Hw Hafter.
  destruct (objects w !! this) as [s|] eqn:Hs.
  2: { unfold unloadVolatile, deref, mbind, M_bind in Hafter.
       by rewrite Hs in Hafter. }
  destruct (unloadVolatile_returns n this w s Hw Hs)
    as (counters & _ & Heq & Hl & Hint & Hat).
  rewrite Heq in Hafter. injection Hafter as <-.
  pose proof (records_lookup _ _ _ Hs) as Hrec.
  apply (consistent_update n w _ this (activeTextureUnits s)
           (replicate (maxTextureUnits w) 0%N) (textureUnitPool s)); try done.
  - unfold unloaded, records. cbn. by rewrite fmap_insert.
  - rewrite length_replicate. symmetry. by apply (consistent_records _ _ Hw this).
  - unfold unloaded, pools. cbn. by rewrite fmap_insert.
  - intros name u. apply (consistent_pools _ _ Hw this). by apply pools_lookup.
  - unfold unloaded, sources_of. cbn. rewrite fmap_insert. cbn.
    apply insert_id. by rewrite lookup_fmap, Hs.
  - intros i c' Hi. cbn in Hi.
    destruct (lookup_lt_is_Some_2 (textureCounters w) i) as [c Hc].
    { rewrite <- Hl. by eapply lookup_lt_Some. }
    rewrite (Hat i c Hc) in Hi. injection Hi as <-.
    pose proof (consistent_users _ _ Hw _ _ Hc) as Hu.
    pose proof (users_insert i this _ (replicate (maxTextureUnits w) 0%N) _ Hrec) as Hui.
    rewrite (decide_False (P := holds i (replicate _ _))) in Hui
      by apply holds_replicate.
    destruct (decide (holds i (activeTextureUnits s))); lia.
Qed.

(** *** Removing an object *)

Lemma users_delete_le i this (rs : gmap nat (list N)) :
  (users i (delete this rs) <= users i rs)%nat.
Proof.
  destruct (rs !! this) as [active|] eqn:E.
  - pose proof (users_delete i this active rs E). lia.
  - by rewrite delete_id.
Qed.

Lemma consistent_delete n this w :
  consistent n w -> consistent n (set_objects (delete this (objects w)) w).
Proof.
  intros [].
  assert (Hr : records (set_objects (delete this (objects w)) w)
               = delete this (records w)) by apply fmap_delete.
  assert (Hp : pools (set_objects (delete this (objects w)) w)
               = delete this (pools w)) by apply fmap_delete.
  assert (Hso : sources_of (set_objects (delete this (objects w)) w)
                = delete this (sources_of w)) by apply fmap_delete.
  split; rewrite ?Hr, ?Hp, ?Hso; cbn; try done.
  - destruct consistent_max0 as [?|[? Hempty]]; [by left|].
    right. by rewrite Hempty, delete_empty.
  - intros this' active [_ ?]%lookup_delete_Some. eauto.
  - intros this' pool name u [_ ?]%lookup_delete_Some. eauto.
  - intros this' sources [_ ?]%lookup_delete_Some. eauto.
  - intros i c Hi. pose proof (users_delete_le i this (records w)).
    specialize (consistent_users0 i c Hi). lia.
Qed.

(** *** loadVolatile *)

(** Whether it returns or throws, [loadVolatile] clears the binding record of
    the object and leaves the rest of the bookkeeping alone. *)
Lemma loadVolatile_after this drv w w' s :
  objects w !! this = Some s ->
  after (loadVolatile this drv w) = Some w' ->
  same_core
    (set_objects
       (<[this := set_activeTextureUnits (replicate (maxTextureUnits w) 0%N) s]>
          (objects w)) w) w'.
Proof.
  intros Hs. unfold loadVolatile.
  rewrite (bind_Ok _ _ w (maxTextureUnits w) w) by done.
  rewrite (bind_Ok _ _ _ _ _ (assign_Ok _ _ _ _ Hs)).
  match goal with
  | |- after (?m _) = _ -> _ => assert (Hrest : preserves same_core m)
  end.
  { preserves_steps; intros;
      first [ apply compile_sources_same_core | apply createProgram_same_core
            | apply attach_same_core | apply same_core_currentShader ]. }
  apply Hrest.
Qed.

Lemma loadVolatile_consistent n this drv w w' :
  consistent n w -> after (loadVolatile this drv w) = Some w' -> consistent n w'.
Proof.
  intros Hw Hafter.
  destruct (objects w !! this) as [s|] eqn:Hs.
  2: { unfold loadVolatile, assign, deref in Hafter. run_monad_in Hafter.
       by rewrite Hs in Hafter. }
  apply (consistent_same_core n _ _ (loadVolatile_after _ _ _ _ _ Hs Hafter)).
  pose proof (records_lookup _ _ _ Hs) as Hrec.
  apply (consistent_update n w _ this (activeTextureUnits s)
           (replicate (maxTextureUnits w) 0%N) (textureUnitPool s)); try done.
  - unfold records. cbn. by rewrite fmap_insert.
  - rewrite length_replicate. symmetry. by apply (consistent_records _ _ Hw this).
  - unfold pools. cbn. by rewrite fmap_insert.
  - intros name u. apply (consistent_pools _ _ Hw this). by apply pools_lookup.
  - unfold sources_of. cbn. rewrite fmap_insert. cbn.
    apply insert_id. by rewrite lookup_fmap, Hs.
  - apply (consistent_int _ _ Hw).
  - intros i c Hi. cbn in Hi.
    pose proof (consistent_users _ _ Hw _ _ Hi) as Hu.
    pose proof (users_insert i this _ (replicate (maxTextureUnits w) 0%N) _ Hrec) as Hui.
    rewrite (decide_False (P := holds i (replicate _ _))) in Hui
      by apply holds_replicate.
    destruct (decide (holds i (activeTextureUnits s))); lia.
Qed.

(** *** The destructor *)

Lemma Shader_delete_consistent n this w w' :
  consistent n w -> after (Shader_delete this w) = Some w' -> consistent n w'.
Proof.
  intros Hw. unfold Shader_delete.
  intros [(s & w0 & Hderef & Hafter)|(e & Hderef)]%bind_after_inv.
  2: { unfold deref in Hderef. by destruct (objects w !! this). }
  unfold deref in Hderef. destruct (objects w !! this) as [s'|] eqn:Hs; [|done].
  injection Hderef as <- <-.
  rewrite (bind_Ok _ _ w (currentShader w) w) in Hafter by done.
  apply bind_after_inv in Hafter as [([] & w1 & Hdetach & Hafter)|(e & Hdetach)].
  2: { unfold when in Hdetach. destruct (bool_decide _); [|done].
       by destruct (detach_not_Throw _ _ _ Hdetach). }
  assert (Hw1 : same_data w w1).
  { unfold when in Hdetach. destruct (bool_decide _); [|by injection Hdetach as <-].
    apply detach_same_data. by rewrite Hdetach. }
  assert (Hc1 : consistent n w1) by by eapply consistent_same_core, Hw; apply same_data_core.
  apply bind_after_inv in Hafter as [([] & w2 & Hunload & Hafter)|(e & Hunload)].
  - injection Hafter as <-. apply consistent_delete.
    apply (unloadVolatile_consistent n this w1); [done|]. by rewrite Hunload.
  - destruct Hw1 as (Ho1 & _).
    rewrite (unloadVolatile_cases this w1 s') in Hunload by by rewrite Ho1.
    by destruct (release_from _ _ _).
Qed.

(** *** checkCodeCompleteness *)

Lemma with_sources_same this s w :
  objects w !! this = Some s -> with_sources this s (shaderSources s) w = w.
Proof.
  intros Hs. unfold with_sources.
  replace (set_shaderSources (shaderSources s) s) with s by by destruct s.
  rewrite insert_id by done. by destruct w.
Qed.

Lemma fill_Some type defaults sources sources' :
  fill type defaults sources = Some sources' ->
  is_Some (sources' !! type) /\
  forall type', type' <> type -> sources' !! type' = sources !! type'.
Proof.
  unfold fill. destruct (sources !! type) as [code|] eqn:E.
  - intros [= <-]. by rewrite E.
  - destruct (defaults !! type) as [code|]; [|done]. intros [= <-].
    rewrite lookup_insert_eq. split; [done|]. intros type' Hne.
    by rewrite lookup_insert_ne.
Qed.

Lemma checkCodeCompleteness_cases this w s :
  objects w !! this = Some s ->
  checkCodeCompleteness this w
  = match fill TYPE_VERTEX (defaultSources w) (shaderSources s) with
    | None =>
        Throw {| what_format := "Cannot create shader: no default vertex shader code!";
                 what_args := [] |} w
    | Some sources1 =>
        match fill TYPE_PIXEL (defaultSources w) sources1 with
        | None =>
            Throw {| what_format := "Cannot create shader: no default pixel shader code!";
                     what_args := [] |} (with_sources this s sources1 w)
        | Some sources2 => Ok tt (with_sources this s sources2 w)
        end
    end.
Proof.
  intros Hs. unfold checkCodeCompleteness, fill.
  rewrite (bind_Ok _ _ _ _ _ (deref_Ok _ _ _ Hs)).
  rewrite (bind_Ok _ _ w (defaultSources w) w) by done.
  destruct (shaderSources s !! TYPE_VERTEX) as [v|] eqn:Hv.
  - rewrite (bind_Ok _ _ w tt w) by done.
    rewrite (bind_Ok _ _ _ _ _ (deref_Ok _ _ _ Hs)).
    destruct (shaderSources s !! TYPE_PIXEL) as [p|] eqn:Hp.
    + by rewrite with_sources_same.
    + destruct (defaultSources w !! TYPE_PIXEL) as [p|]; cbn.
      * by rewrite (assign_Ok _ _ _ _ Hs).
      * by rewrite with_sources_same.
  - destruct (defaultSources w !! TYPE_VERTEX) as [v|]; cbn; [|done].
    rewrite (bind_Ok _ _ _ _ _ (assign_Ok _ _ _ _ Hs)).
    run_monad. cbn. rewrite lookup_insert_eq. cbn.
    rewrite lookup_insert_ne by done.
    destruct (shaderSources s !! TYPE_PIXEL) as [p|] eqn:Hp; cbn; [done|].
    destruct (defaultSources w !! TYPE_PIXEL) as [p|]; cbn; [|done].
    rewrite lookup_insert_eq. cbn. unfold with_sources. cbn.
    by rewrite insert_insert_eq.
Qed.

(** *** loadVolatile returns only for vertex and pixel sources *)

Lemma compile_sources_Ok_types sources drv : forall w shaderids w',
  compile_sources sources drv w = Ok shaderids w' ->
  Forall (fun entry => entry.1 <> TYPE_MAX_ENUM) sources.
Proof.
  induction sources as [|[type code] sources IH]; intros w shaderids w' H; [done|].
  cbn [compile_sources] in H.
  apply bind_Ok_inv in H as (shaderid & w1 & Hcompile & H).
  apply bind_Ok_inv in H as (shaderids' & w2 & Hrest & _).
  constructor; [|by eapply IH].
  cbn. intros ->. done.
Qed.

Lemma entries_types (sources : ShaderSources) :
  Forall (fun entry => entry.1 <> TYPE_MAX_ENUM) (entries sources) ->
  sources !! TYPE_MAX_ENUM = None.
Proof.
  unfold entries, ShaderType_ascending. cbn.
  destruct (sources !! TYPE_VERTEX), (sources !! TYPE_PIXEL),
    (sources !! TYPE_MAX_ENUM); cbn; try done;
    intros H; repeat (apply Forall_cons in H as [? H]); done.
Qed.

Lemma loadVolatile_Ok_types this drv w b w' s :
  objects w !! this = Some s -> loadVolatile this drv w = Ok b w' ->
  shaderSources s !! TYPE_MAX_ENUM = None.
Proof.
  intros Hs. unfold loadVolatile.
  rewrite (bind_Ok _ _ w (maxTextureUnits w) w) by done.
  rewrite (bind_Ok _ _ _ _ _ (assign_Ok _ _ _ _ Hs)).
  erewrite bind_Ok; [|apply deref_Ok; apply lookup_insert_eq].
  intros (shaderids & w1 & Hcompile & _)%bind_Ok_inv.
  apply entries_types. by eapply compile_sources_Ok_types.
Qed.

(** *** The constructor *)

Lemma Shader_new_cases this sources drv w :
  objects w !! this = None ->
  Shader_new this sources drv w
  = if bool_decide (sources = ∅)
    then Throw {| what_format := "Cannot create shader: no source code!";
                  what_args := [] |} w
    else
      match (checkCodeCompleteness this;; loadVolatile this drv;; mret tt)
              (set_objects (<[this := constructing sources]> (objects w))
                 (resized w)) with
      | Ok _ w2 => Ok tt w2
      | Throw e w2 => Throw e (set_objects (delete this (objects w2)) w2)
      | Undefined => Undefined
      end.
Proof.
  intros Hfresh. unfold Shader_new, Shader_body. rewrite Hfresh.
  erewrite bind_Ok; [|apply deref_Ok; apply lookup_insert_eq].
  cbn [shaderSources Shader_members].
  case_bool_decide as Hempty.
  - cbn. f_equal. rewrite delete_insert_eq, delete_id by done. by destruct w.
  - run_monad. cbn -[Nat.ltb]. unfold resized, units_of. cbn -[Nat.ltb].
    match goal with
    | |- context [Nat.ltb ?a ?b] => destruct (Nat.ltb a b)
    end; cbn; rewrite lookup_insert_eq; cbn; rewrite insert_insert_eq; done.
Qed.

#[local] Instance same_others_refl this : Reflexive (same_others this).
Proof. by intros w. Qed.

#[local] Instance same_others_trans this : Transitive (same_others this).
Proof.
  intros w1 w2 w3 (?&?&?&?) (?&?&?&?). repeat split; congruence.
Qed.

Lemma same_data_others this w w' : same_data w w' -> same_others this w w'.
Proof. intros (Ho&_&_&?&?&?). unfold same_others. by rewrite Ho. Qed.

Lemma same_others_assign this f w s :
  objects w !! this = Some s ->
  same_others this w (set_objects (<[this := f s]> (objects w)) w).
Proof. intros _. unfold same_others. cbn. by rewrite delete_insert_eq. Qed.

Lemma attach_same_others this this' temporary :
  preserves (same_others this) (attach this' temporary).
Proof.
  intros w w' H. by apply same_data_others, (attach_same_data this' temporary).
Qed.

Lemma checkCodeCompleteness_same_others this :
  preserves (same_others this) (checkCodeCompleteness this).
Proof.
  unfold checkCodeCompleteness. preserves_steps; intros;
    by apply same_others_assign.
Qed.

Lemma compileCode_same_others this type code drv :
  preserves (same_others this) (compileCode type code drv).
Proof. unfold compileCode. preserves_steps; by intros. Qed.

Lemma compile_sources_same_others this sources drv :
  preserves (same_others this) (compile_sources sources drv).
Proof.
  induction sources as [|[type code] sources IH]; cbn [compile_sources];
    preserves_steps; first [apply compileCode_same_others | apply IH].
Qed.

Lemma loadVolatile_same_others this drv :
  preserves (same_others this) (loadVolatile this drv).
Proof.
  unfold loadVolatile, createProgram, bindVertexAttribs, getWarnings.
  preserves_steps; intros;
    first [ by apply same_others_assign | apply compile_sources_same_others
          | apply attach_same_others | done ].
Qed.

Lemma consistent_resized n w : consistent n w -> consistent n (resized w).
Proof.
  intros Hw. pose proof Hw as [].
  unfold resized. rewrite consistent_num0.
  destruct consistent_max0 as [Hmax|[Hmax Hempty]].
  - rewrite consistent_counters0, Hmax, Nat.ltb_irrefl.
    split; cbn; rewrite <- ?Hmax; try done. by left.
  - assert (Hnil : textureCounters w = []).
    { apply nil_length_inv. by rewrite consistent_counters0. }
    rewrite Hnil. cbn [length]. rewrite Nat.sub_0_r.
    assert (Hcounters :
      (if (0 <? units_of n)%nat then [] ++ replicate (units_of n) 0 else [])
      = replicate (units_of n) 0).
    { destruct (units_of n); done. }
    rewrite Hcounters.
    pose proof (fmap_empty_inv _ _ Hempty) as Hobjects.
    split; cbn; unfold records, pools, sources_of in *; cbn;
      rewrite ?Hobjects, ?fmap_empty; try done.
    + by left.
    + by rewrite length_replicate.
    + apply Forall_replicate. unfold INT_MAX. lia.
    + intros i c [-> _]%lookup_replicate. by rewrite users_empty.
Qed.

Lemma resized_max w : maxTextureUnits (resized w) = units_of (getNumTextureUnits w).
Proof. done. Qed.

(** A new object with a cleared record, no assignment and complete sources
    keeps the state consistent. *)
Lemma consistent_insert_fresh n w this s :
  consistent n w -> objects w !! this = None ->
  maxTextureUnits w = units_of n ->
  activeTextureUnits s = replicate (maxTextureUnits w) 0%N ->
  textureUnitPool s = ∅ ->
  is_Some (shaderSources s !! TYPE_VERTEX) ->
  is_Some (shaderSources s !! TYPE_PIXEL) ->
  shaderSources s !! TYPE_MAX_ENUM = None ->
  consistent n (set_objects (<[this := s]> (objects w)) w).
Proof.
  intros [] Hfresh Hmax Hactive Hpool Hv Hp Hm.
  assert (Hr : records (set_objects (<[this := s]> (objects w)) w)
               = <[this := activeTextureUnits s]> (records w)) by apply fmap_insert.
  assert (Hpo : pools (set_objects (<[this := s]> (objects w)) w)
               = <[this := textureUnitPool s]> (pools w)) by apply fmap_insert.
  assert (Hso : sources_of (set_objects (<[this := s]> (objects w)) w)
                = <[this := shaderSources s]> (sources_of w)) by apply fmap_insert.
  split; rewrite ?Hr, ?Hpo, ?Hso; cbn; try done.
  - by left.
  - intros this' active. destruct (decide (this' = this)) as [->|Hne].
    + rewrite lookup_insert_eq. intros [= <-]. by rewrite Hactive, length_replicate.
    + rewrite lookup_insert_ne by done. eauto.
  - intros this' pool name u. destruct (decide (this' = this)) as [->|Hne].
    + rewrite lookup_insert_eq. intros [= <-]. by rewrite Hpool, lookup_empty.
    + rewrite lookup_insert_ne by done. eauto.
  - intros this' sources. destruct (decide (this' = this)) as [->|Hne].
    + rewrite lookup_insert_eq. by intros [= <-].
    + rewrite lookup_insert_ne by done. eauto.
  - intros i c Hi. rewrite users_insert_fresh.
    2: { unfold records. by rewrite lookup_fmap, Hfresh. }
    rewrite decide_False by (rewrite Hactive; apply holds_replicate).
    rewrite Nat.add_0_r. eauto.
Qed.

Lemma Shader_new_consistent n this sources drv w w' :
  consistent n w -> after (Shader_new this sources drv w) = Some w' ->
  consistent n w'.
Proof.
  intros Hw Hafter.
  destruct (objects w !! this) as [s|] eqn:Hfresh.
  { unfold Shader_new in Hafter. by rewrite Hfresh in Hafter. }
  rewrite (Shader_new_cases _ _ _ _ Hfresh) in Hafter.
  case_bool_decide as Hempty; [by injection Hafter as <-|].
  pose proof (consistent_resized n w Hw) as Hr.
  set (w1 := set_objects (<[this := constructing sources]> (objects w)) (resized w)) in *.
  assert (Hs1 : objects w1 !! this = Some (constructing sources))
    by apply lookup_insert_eq.
  assert (Hrest : preserves (same_others this)
            (checkCodeCompleteness this;; loadVolatile this drv;; mret tt)).
  { preserves_steps;
      [apply checkCodeCompleteness_same_others | apply loadVolatile_same_others]. }
  destruct ((checkCodeCompleteness this;; loadVolatile this drv;; mret tt) w1)
    as [[] w2|e w2|] eqn:E; [| |done]; injection Hafter as <-.
  - (* the constructor returns *)
    apply bind_Ok_inv in E as ([] & wc & Hcheck & E).
    apply bind_Ok_inv in E as (b & wl & Hload & E). injection E as <-.
    rewrite (checkCodeCompleteness_cases this w1 _ Hs1) in Hcheck.
    destruct (fill TYPE_VERTEX _ _) as [sources1|] eqn:Hfill1; [|done].
    destruct (fill TYPE_PIXEL _ _) as [sources2|] eqn:Hfill2; [|done].
    injection Hcheck as <-.
    apply fill_Some in Hfill1 as [Hv1 _].
    apply fill_Some in Hfill2 as [Hp2 Hother].
    set (sc := set_shaderSources sources2 (constructing sources)) in *.
    assert (Hsc : objects (with_sources this (constructing sources) sources2 w1)
                  !! this = Some sc) by apply lookup_insert_eq.
    pose proof (loadVolatile_Ok_types _ _ _ _ _ _ Hsc Hload) as Hnone.
    eapply consistent_same_core.
    { apply (loadVolatile_after this drv _ _ _ Hsc). by rewrite Hload. }
    unfold with_sources, w1. cbn. rewrite !insert_insert_eq.
    apply (consistent_insert_fresh n (resized w)); try done.
    + unfold resized. cbn. by rewrite (consistent_num _ _ Hw).
    + cbn. rewrite (Hother TYPE_VERTEX); done.
  - (* the constructor throws: no object is left *)
    eapply consistent_same_core, Hr.
    assert (Hw2 : same_others this w1 w2) by (apply Hrest; by rewrite E).
    destruct Hw2 as (Ho & Hc & Hm & Hn).
    unfold w1 in Ho. cbn in Ho.
    rewrite delete_insert_eq, (delete_id (objects w)) in Ho by done.
    unfold same_core, records, pools, sources_of. cbn. rewrite Ho.
    by rewrite Hc, Hm, Hn.
Qed.

(** *** Every call keeps the state consistent *)

Lemma call_consistent n c w w' :
  consistent n w -> after (call c w) = Some w' -> consistent n w'.
Proof.
  intros Hw Hafter. destruct c; cbn [call] in Hafter.
  - by eapply Shader_new_consistent.
  - by eapply Shader_delete_consistent.
  - apply bind_after_inv in Hafter as [(b & w1 & Hload & Hafter)|(e & Hload)].
    + injection Hafter as <-. eapply loadVolatile_consistent; [done|].
      by rewrite Hload.
    + eapply loadVolatile_consistent; [done|]. by rewrite Hload.
  - by eapply unloadVolatile_consistent.
  - eapply consistent_same_core, Hw. by eapply attach_same_core.
  - eapply consistent_same_core, Hw. by eapply detach_same_core.
  - eapply consistent_same_core, Hw. by eapply sendFloat_same_core.
  - eapply consistent_same_core, Hw. by eapply sendMatrix_same_core.
  - by eapply sendTexture_consistent.
  - apply bind_after_inv in Hafter as [(b & w1 & Hunit & Hafter)|(e & Hunit)].
    + injection Hafter as <-. eapply getTextureUnit_consistent; [done|].
      by rewrite Hunit.
    + eapply getTextureUnit_consistent; [done|]. by rewrite Hunit.
  - eapply consistent_same_core, Hw.
    eapply (preserves_forget same_core), Hafter. apply hasUniform_same_core.
  - eapply consistent_same_core, Hw. unfold setDefaultSources in Hafter.
    destruct (_ || _); by injection Hafter as <-.
  - injection Hafter as <-. by destruct Hw.
Qed.

Lemma initial_consistent n : consistent n (initial_World n).
Proof.
  split; cbn; try done. by right.
Qed.

Lemma reachable_consistent n w : reachable n w -> consistent n w.
Proof.
  induction 1 as [|c w w' _ IH Hcall]; [apply initial_consistent|].
  by eapply call_consistent.
Qed.

Lemma run_reachable n cs : forall w w',
  reachable n w -> run cs w = Some w' -> reachable n w'.
Proof.
  induction cs as [|c cs IH]; intros w w' Hw Hrun; cbn in Hrun.
  - by injection Hrun as <-.
  - destruct (after (call c w)) as [w1|] eqn:E; [|done]. cbn in Hrun.
    eapply IH; [|done]. by eapply reachable_call.
Qed.



(** *** A call on one object leaves the other objects alone *)

#[local] Instance untouched_refl this : Reflexive (untouched this).
Proof. by intros w. Qed.

#[local] Instance untouched_trans this : Transitive (untouched this).
Proof. intros w1 w2 w3. unfold untouched. congruence. Qed.

Lemma untouched_lookup this w w' other :
  untouched this w w' -> other <> this ->
  objects w' !! other = objects w !! other.
Proof.
  intros H Hne. rewrite <- (lookup_delete_ne (objects w') this other) by done.
  rewrite H. by apply lookup_delete_ne.
Qed.

Lemma same_data_untouched this w w' : same_data w w' -> untouched this w w'.
Proof. intros (Ho&_). unfold untouched. by rewrite Ho. Qed.

Lemma untouched_assign this f w s :
  objects w !! this = Some s ->
  untouched this w (set_objects (<[this := f s]> (objects w)) w).
Proof. intros _. unfold untouched. cbn. by rewrite delete_insert_eq. Qed.

Lemma attach_untouched this this' temporary :
  preserves (untouched this) (attach this' temporary).
Proof.
  intros w w' H. by apply same_data_untouched, (attach_same_data this' temporary).
Qed.

Lemma TemporaryAttacher_dtor_untouched this prev :
  preserves (untouched this) (TemporaryAttacher_dtor prev).
Proof.
  intros w w' H. by apply same_data_untouched, (TemporaryAttacher_dtor_same_data prev).
Qed.

Lemma compileCode_untouched this type code drv :
  preserves (untouched this) (compileCode type code drv).
Proof. unfold compileCode. preserves_steps; by intros. Qed.

Lemma compile_sources_untouched this sources drv :
  preserves (untouched this) (compile_sources sources drv).
Proof.
  induction sources as [|[type code] sources IH]; cbn [compile_sources];
    preserves_steps; first [apply compileCode_untouched | apply IH].
Qed.

Lemma getUniformLocation_untouched this name unsafe drv :
  preserves (untouched this) (getUniformLocation this name unsafe drv).
Proof.
  unfold getUniformLocation. preserves_steps; intros; by apply untouched_assign.
Qed.

Lemma getTextureUnit_untouched this name :
  preserves (untouched this) (getTextureUnit this name).
Proof.
  unfold getTextureUnit. preserves_steps; intros; by apply untouched_assign.
Qed.

(** Takes a method of the object [this] apart and closes what is left. *)
Ltac untouched_method :=
  preserves_steps; intros;
  first [ by apply untouched_assign | apply attach_untouched
        | apply TemporaryAttacher_dtor_untouched
        | apply compile_sources_untouched | apply getUniformLocation_untouched
        | apply getTextureUnit_untouched | done ].


Lemma loadVolatile_untouched this drv :
  preserves (untouched this) (loadVolatile this drv).
Proof.
  unfold loadVolatile, createProgram, bindVertexAttribs, getWarnings.
  untouched_method.
Qed.

Lemma unloadVolatile_untouched this :
  preserves (untouched this) (unloadVolatile this).
Proof. unfold unloadVolatile. untouched_method. Qed.

Lemma checkCodeCompleteness_untouched this :
  preserves (untouched this) (checkCodeCompleteness this).
Proof. unfold checkCodeCompleteness. untouched_method. Qed.

Lemma Shader_new_untouched this sources drv :
  preserves (untouched this) (Shader_new this sources drv).
Proof.
  intros w w' Hafter.
  destruct (objects w !! this) as [s|] eqn:Hfresh.
  { unfold Shader_new in Hafter. by rewrite Hfresh in Hafter. }
  rewrite (Shader_new_cases _ _ _ _ Hfresh) in Hafter.
  case_bool_decide; [by injection Hafter as <-|].
  assert (Hrest : preserves (untouched this)
            (checkCodeCompleteness this;; loadVolatile this drv;; mret tt)).
  { preserves_steps;
      [apply checkCodeCompleteness_untouched | apply loadVolatile_untouched]. }
  set (w1 := set_objects _ (resized w)) in *.
  assert (H1 : untouched this w w1)
    by (unfold untouched, w1; cbn; by rewrite delete_insert_eq).
  destruct ((checkCodeCompleteness this;; loadVolatile this drv;; mret tt) w1)
    as [[] w2|e w2|] eqn:E; [| |done]; injection Hafter as <-.
  - transitivity w1; [done|]. apply Hrest. by rewrite E.
  - assert (H2 : untouched this w1 w2) by (apply Hrest; by rewrite E).
    unfold untouched in *. cbn. rewrite delete_delete_eq. congruence.
Qed.

Lemma Shader_delete_untouched this :
  preserves (untouched this) (Shader_delete this).
Proof.
  unfold Shader_delete. preserves_steps; intros.
  - intros w w' H. by apply same_data_untouched, detach_same_data.
  - apply unloadVolatile_untouched.
  - unfold untouched. cbn. by rewrite delete_delete_eq.
Qed.

Lemma sendFloat_untouched this name size vec count drv :
  preserves (untouched this) (sendFloat this name size vec count drv).
Proof. unfold sendFloat, checkSetUniformError. untouched_method. Qed.

Lemma sendMatrix_untouched this name size m count drv :
  preserves (untouched this) (sendMatrix this name size m count drv).
Proof. unfold sendMatrix, checkSetUniformError. untouched_method. Qed.

Lemma sendTexture_untouched this name texture drv :
  preserves (untouched this) (sendTexture this name texture drv).
Proof. unfold sendTexture, checkSetUniformError. untouched_method. Qed.

Lemma hasUniform_untouched this name drv :
  preserves (untouched this) (hasUniform this name drv).
Proof. unfold hasUniform. untouched_method. Qed.

Lemma call_untouched c w w' this :
  after (call c w) = Some w' -> target c = Some this -> untouched this w w'.
Proof.
  intros Hafter Hc. revert Hafter.
  destruct c; cbn in Hc; try done; injection Hc as ->; cbn [call].
  - apply Shader_new_untouched.
  - apply Shader_delete_untouched.
  - apply preserves_forget; [apply _|apply _|apply loadVolatile_untouched].
  - apply unloadVolatile_untouched.
  - apply attach_untouched.
  - apply sendFloat_untouched.
  - apply sendMatrix_untouched.
  - apply sendTexture_untouched.
  - apply preserves_forget; [apply _|apply _|apply getTextureUnit_untouched].
  - apply preserves_forget; [apply _|apply _|apply hasUniform_untouched].
Qed.

(** A call changes no object other than the one it is made on. *)
Lemma call_other_objects c w w' other :
  after (call c w) = Some w' -> target c <> Some other ->
  objects w' !! other = objects w !! other.
Proof.
  intros Hafter Htarget. destruct (target c) as [this|] eqn:Hc.
  - apply (untouched_lookup this); [by eapply call_untouched|congruence].
  - destruct c; cbn in Hc; try done; cbn [call] in Hafter.
    + by destruct (detach_same_data _ _ Hafter) as [-> _].
    + unfold setDefaultSources in Hafter.
      destruct (_ || _); by injection Hafter as <-.
    + by injection Hafter as <-.
Qed.

(** *** An assignment, once made, stays *)

Lemma assigned_same_core this name u w w' :
  same_core w w' -> assigned this name u w -> assigned this name u w'.
Proof. intros (_ & Hp & _). unfold assigned. by rewrite Hp. Qed.

Lemma assigned_chosen (this : nat) name u name' u' pool
    (pools0 : gmap nat (gmap string Z)) counters active :
  pools0 !! this = Some pool -> pool !! name = Some u ->
  chosen pool counters active name' u' ->
  (<[this := <[name' := u']> pool]> pools0) !! this
  = Some (<[name' := u']> pool) /\
  <[name' := u']> pool !! name = Some u.
Proof.
  intros Hpool Hname Hchosen. split; [apply lookup_insert_eq|].
  destruct (decide (name' = name)) as [->|Hne].
  - unfold chosen in Hchosen. rewrite Hname in Hchosen. subst u'.
    apply lookup_insert_eq.
  - by rewrite lookup_insert_ne.
Qed.

Lemma getTextureUnit_keeps this name' w w' name u :
  after (getTextureUnit this name' w) = Some w' ->
  assigned this name u w -> assigned this name u w'.
Proof.
  intros Hafter (pool & Hpool & Hname).
  destruct (objects w !! this) as [s|] eqn:Hs.
  2: { unfold pools in Hpool. by rewrite lookup_fmap, Hs in Hpool. }
  rewrite (pools_lookup _ _ _ Hs) in Hpool. injection Hpool as <-.
  destruct (getTextureUnit_cases this name' w s Hs)
    as [(u' & Heq & Hchosen)|(Heq & _)]; rewrite Heq in Hafter;
    injection Hafter as <-.
  - exists (<[name' := u']> (textureUnitPool s)).
    assert (Hp : pools (with_unit this s name' u' w)
                 = <[this := <[name' := u']> (textureUnitPool s)]> (pools w))
      by (unfold pools, with_unit; cbn; by rewrite fmap_insert).
    rewrite Hp. eapply assigned_chosen; [by apply pools_lookup|done..].
  - exists (textureUnitPool s). split; [by apply pools_lookup|done].
Qed.

Lemma sendTexture_keeps this name' texture drv w w' name u :
  after (sendTexture this name' texture drv w) = Some w' ->
  assigned this name u w -> assigned this name u w'.
Proof.
  intros Hafter Hassigned.
  destruct (sendTexture this name' texture drv w) as [[] w1|e w1|] eqn:E;
    [| |done]; injection Hafter as ->.
  2: { eapply assigned_same_core; [|done].
       by eapply sendTexture_Throw_same_core. }
  destruct Hassigned as (pool & Hpool & Hname).
  destruct (objects w !! this) as [s|] eqn:Hs.
  2: { unfold pools in Hpool. by rewrite lookup_fmap, Hs in Hpool. }
  rewrite (pools_lookup _ _ _ Hs) in Hpool. injection Hpool as <-.
  destruct (sendTexture_Ok _ _ _ _ _ _ _ Hs E)
    as (u' & bound & Hchosen & _ & _ & _ & Hp & _).
  exists (<[name' := u']> (textureUnitPool s)). rewrite Hp.
  eapply assigned_chosen; [by apply pools_lookup|done..].
Qed.

Lemma unloadVolatile_pools this w w' :
  after (unloadVolatile this w) = Some w' -> pools w' = pools w.
Proof.
  intros Hafter. destruct (objects w !! this) as [s|] eqn:Hs.
  2: { unfold unloadVolatile, deref, mbind, M_bind in Hafter.
       by rewrite Hs in Hafter. }
  rewrite (unloadVolatile_cases this w s Hs) in Hafter.
  destruct (release_from _ _ _); [|done]. injection Hafter as <-.
  unfold unloaded, pools. cbn. rewrite fmap_insert. cbn.
  apply insert_id. by rewrite lookup_fmap, Hs.
Qed.

Lemma loadVolatile_pools this drv w w' :
  after (loadVolatile this drv w) = Some w' -> pools w' = pools w.
Proof.
  intros Hafter. destruct (objects w !! this) as [s|] eqn:Hs.
  2: { unfold loadVolatile, assign, deref in Hafter. run_monad_in Hafter.
       by rewrite Hs in Hafter. }
  destruct (loadVolatile_after _ _ _ _ _ Hs Hafter) as (_ & -> & _).
  unfold pools. cbn. rewrite fmap_insert. cbn.
  apply insert_id. by rewrite lookup_fmap, Hs.
Qed.

(** No call but the destruction of the object undoes an assignment. *)
Lemma call_keeps c w w' this name u :
  after (call c w) = Some w' -> c <> CallDelete this ->
  assigned this name u w -> assigned this name u w'.
Proof.
  intros Hafter Hc Hassigned.
  destruct (decide (target c = Some this)) as [Htarget|Htarget].
  2: { destruct Hassigned as (pool & Hpool & Hname). exists pool.
       split; [|done]. unfold pools in *. rewrite lookup_fmap in *.
       by rewrite (call_other_objects _ _ _ _ Hafter Htarget). }
  destruct c; cbn in Htarget; try done; injection Htarget as ->;
    cbn [call] in Hafter.
  - destruct Hassigned as (pool & Hpool & _). unfold Shader_new in Hafter.
    unfold pools in Hpool. rewrite lookup_fmap in Hpool.
    by destruct (objects w !! this).
  - done.
  - apply bind_after_inv in Hafter as [(b & w1 & Hload & Hafter)|(e & Hload)];
      [injection Hafter as <-|]; unfold assigned;
      erewrite (loadVolatile_pools this drv w); try done; by rewrite Hload.
  - unfold assigned. by rewrite (unloadVolatile_pools _ _ _ Hafter).
  - eapply assigned_same_core; [|done]. by eapply attach_same_core.
  - eapply assigned_same_core; [|done]. by eapply sendFloat_same_core.
  - eapply assigned_same_core; [|done]. by eapply sendMatrix_same_core.
  - by eapply sendTexture_keeps.
  - apply bind_after_inv in Hafter as [(b & w1 & Hunit & Hafter)|(e & Hunit)].
    + injection Hafter as <-. eapply getTextureUnit_keeps; [|done].
      by rewrite Hunit.
    + eapply getTextureUnit_keeps; [|done]. by rewrite Hunit.
  - eapply assigned_same_core; [|done].
    eapply (preserves_forget same_core), Hafter. apply hasUniform_same_core.
Qed.

Lemma run_keeps cs this name u : forall w w',
  run cs w = Some w' -> CallDelete this ∉ cs ->
  assigned this name u w -> assigned this name u w'.
Proof.
  induction cs as [|c cs IH]; intros w w' Hrun Hcs Hassigned; cbn in Hrun.
  - by injection Hrun as <-.
  - destruct (after (call c w)) as [w1|] eqn:E; [|done]. cbn in Hrun.
    apply not_elem_of_cons in Hcs as [Hc Hcs].
    eapply IH; [done..|]. eapply call_keeps; [done| |done]. congruence.
Qed.

Lemma assigned_getTextureUnit this name u w :
  assigned this name u w -> getTextureUnit this name w = Ok u w.
Proof.
  intros (pool & Hpool & Hname). unfold pools in Hpool.
  rewrite lookup_fmap in Hpool.
  destruct (objects w !! this) as [s|] eqn:Hs; [|done].
  injection Hpool as <-. unfold getTextureUnit.
  rewrite (bind_Ok _ _ _ _ _ (deref_Ok _ _ _ Hs)). by rewrite Hname.
Qed.

Lemma lowest_exists {A} `{EqDecision A} (x : A) v :
  x ∈ v -> lowest x v (std_find v x).
Proof.
  intros Hin. apply std_find_found. intros Hend.
  by apply std_find_end in Hend.
Qed.

(** C1.  In every state of the process and for every object [this] and
    name, [getTextureUnit this name] (1) returns the unit already assigned
    to the name, changing nothing; otherwise (2) returns one more than the
    lowest index whose global counter is zero, and records it for the name;
    otherwise, when no counter is zero, (3) returns one more than the lowest
    index at which the shader's own record holds no texture, and records it;
    otherwise (4) throws "No more texture units available for shader." and
    changes nothing.  Whatever it returns is at least 1, and is what every
    later call with that name returns, after any run of calls that does not
    destroy the object. *)
Theorem getTextureUnit_algorithm n w this s name :
  reachable n w -> objects w !! this = Some s ->
  (forall textureunit,
     textureUnitPool s !! name = Some textureunit ->
     getTextureUnit this name w = Ok textureunit w) /\
  (textureUnitPool s !! name = None -> 0 ∈ textureCounters w ->
   exists i, lowest 0 (textureCounters w) i /\
     getTextureUnit this name w
     = Ok (Z.of_nat i + 1) (with_unit this s name (Z.of_nat i + 1) w)) /\
  (textureUnitPool s !! name = None -> 0 ∉ textureCounters w ->
   0%N ∈ activeTextureUnits s ->
   exists i, lowest 0%N (activeTextureUnits s) i /\
     getTextureUnit this name w
     = Ok (Z.of_nat i + 1) (with_unit this s name (Z.of_nat i + 1) w)) /\
  (textureUnitPool s !! name = None -> 0 ∉ textureCounters w ->
   0%N ∉ activeTextureUnits s ->
   getTextureUnit this name w
   = Throw {| what_format := "No more texture units available for shader.";
              what_args := [] |} w) /\
  (forall textureunit w1,
     getTextureUnit this name w = Ok textureunit w1 ->
     1 <= textureunit /\
     assigned this name textureunit w1 /\
     forall cs w2,
       CallDelete this ∉ cs -> run cs w1 = Some w2 ->
       getTextureUnit this name w2 = Ok textureunit w2).
Proof.
  intros Hreach Hs. pose proof (reachable_consistent _ _ Hreach) as Hw.
  pose proof (getTextureUnit_cases this name w s Hs) as Hcases.
  split_and!.
  - intros u Hu. apply assigned_getTextureUnit.
    exists (textureUnitPool s). split; [by apply pools_lookup|done].
  - intros Hnone Hfree.
    destruct Hcases as [(u & Heq & Hchosen)|(_ & _ & Hnot & _)]; [|done].
    unfold chosen in Hchosen. rewrite Hnone in Hchosen.
    destruct Hchosen as (i & -> & [Hi|[Hnot _]]); [|done]. by exists i.
  - intros Hnone Hfull Hown.
    destruct Hcases as [(u & Heq & Hchosen)|(_ & _ & _ & Hnot)]; [|done].
    unfold chosen in Hchosen. rewrite Hnone in Hchosen.
    destruct Hchosen as (i & -> & [[Hi _]|[_ Hi]]); [|by exists i].
    destruct Hfull. eapply list_elem_of_lookup_2, Hi.
  - intros Hnone Hfull Hown.
    destruct Hcases as [(u & Heq & Hchosen)|(Heq & _)]; [|done].
    unfold chosen in Hchosen. rewrite Hnone in Hchosen.
    destruct Hchosen as (i & -> & [[Hi _]|[_ [Hi _]]]).
    + destruct Hfull. eapply list_elem_of_lookup_2, Hi.
    + destruct Hown. eapply list_elem_of_lookup_2, Hi.
  - intros u w1 Heq.
    destruct Hcases as [(u' & Heq' & Hchosen)|(Heq' & _)]; [|congruence].
    rewrite Heq' in Heq. injection Heq as <- <-.
    assert (Hassigned : assigned this name u' (with_unit this s name u' w)).
    { exists (<[name := u']> (textureUnitPool s)). split.
      - unfold pools, with_unit. cbn. by rewrite fmap_insert, lookup_insert_eq.
      - apply lookup_insert_eq. }
    split_and!; [|done|].
    + by destruct (chosen_in_range _ _ _ _ _ _ Hw Hs Hchosen).
    + intros cs w2 Hcs Hrun. apply assigned_getTextureUnit.
      by eapply run_keeps.
Qed.

(** C3.  In every state of the process no counter is negative.  Unloading
    an object returns; for every unit its record holds a texture for, the
    counter, which is at least one, goes down by exactly one, which is also
    [max (c - 1) 0]; every other counter stays; so no counter is negative
    afterwards either.  The record of the object is cleared, its cache of
    uniform locations is emptied, its assignment of units to names is kept,
    and no other object changes.  A reload, whether it returns or throws,
    keeps the assignment, so that [getTextureUnit] returns for every name the
    unit assigned to it before the unload. *)
Theorem unloadVolatile_releases n w this s :
  reachable n w -> objects w !! this = Some s ->
  Forall (fun c => 0 <= c) (textureCounters w) /\
  exists w',
    unloadVolatile this w = Ok tt w' /\
    length (textureCounters w') = length (textureCounters w) /\
    (forall i c, textureCounters w !! i = Some c ->
       textureCounters w' !! i
       = Some (if decide (holds i (activeTextureUnits s))
               then Z.max (c - 1) 0 else c) /\
       (holds i (activeTextureUnits s) ->
        1 <= c /\ textureCounters w' !! i = Some (c - 1)) /\
       (~ holds i (activeTextureUnits s) -> textureCounters w' !! i = Some c)) /\
    Forall (fun c => 0 <= c) (textureCounters w') /\
    (exists s',
       objects w' !! this = Some s' /\
       activeTextureUnits s' = replicate (maxTextureUnits w) 0%N /\
       uniforms s' = ∅ /\
       textureUnitPool s' = textureUnitPool s /\
       shaderSources s' = shaderSources s) /\
    (forall other, other <> this -> objects w' !! other = objects w !! other) /\
    (forall drv w'',
       after (loadVolatile this drv w') = Some w'' ->
       pools w'' !! this = Some (textureUnitPool s) /\
       forall name textureunit,
         textureUnitPool s !! name = Some textureunit ->
         getTextureUnit this name w'' = Ok textureunit w'').
Proof.
  intros Hreach Hs. pose proof (reachable_consistent _ _ Hreach) as Hw.
  split.
  { eapply Forall_impl; [apply (consistent_int _ _ Hw)|]. cbn. lia. }
  destruct (unloadVolatile_returns n this w s Hw Hs)
    as (counters & _ & Heq & Hl & Hint & Hat).
  exists (unloaded this s counters w). split_and!; try done.
  - intros i c Hc. cbn. rewrite (Hat i c Hc). split_and!; [done| |].
    + intros Hholds. rewrite decide_True by done.
      pose proof (consistent_users _ _ Hw _ _ Hc) as Hu.
      pose proof (users_holder i this _ _ (records_lookup _ _ _ Hs) Hholds).
      split; [lia|]. f_equal. lia.
    + intros Hnot. by rewrite decide_False.
  - cbn. eapply Forall_impl; [done|]. cbn. lia.
  - eexists. split; [apply lookup_insert_eq|]. done.
  - intros other Hne. cbn. by rewrite lookup_insert_ne.
  - intros drv w'' Hafter.
    assert (Hpools : pools w'' !! this = Some (textureUnitPool s)).
    { rewrite (loadVolatile_pools _ _ _ _ Hafter).
      unfold pools, unloaded. cbn. by rewrite fmap_insert, lookup_insert_eq. }
    split; [done|]. intros name u Hu. apply assigned_getTextureUnit.
    by exists (textureUnitPool s).
Qed.

(** *** The commands issued only grow *)

#[local] Instance issued_grows_refl : Reflexive issued_grows.
Proof. intros w. exists []. by rewrite app_nil_r. Qed.

#[local] Instance issued_grows_trans : Transitive issued_grows.
Proof.
  intros w1 w2 w3 [cs1 H1] [cs2 H2]. exists (cs1 ++ cs2).
  by rewrite H2, H1, app_assoc.
Qed.

Lemma issued_grows_emit w cs : issued_grows w (set_issued (issued w ++ cs) w).
Proof. by exists cs. Qed.

Lemma issued_grows_same w w' : issued w' = issued w -> issued_grows w w'.
Proof. intros H. exists []. by rewrite app_nil_r. Qed.

Lemma attach_issued_grows this temporary :
  preserves issued_grows (attach this temporary).
Proof.
  unfold attach. preserves_steps; intros;
    first [apply issued_grows_emit | by apply issued_grows_same].
Qed.

Lemma TemporaryAttacher_dtor_issued_grows prev :
  preserves issued_grows (TemporaryAttacher_dtor prev).
Proof.
  destruct prev; cbn; [apply attach_issued_grows|].
  unfold detach. preserves_steps; intros;
    first [ apply attach_issued_grows | apply issued_grows_emit
          | by apply issued_grows_same ].
Qed.

(** *** Running a body under a TemporaryAttacher *)

Lemma with_TemporaryAttacher_returns {A} shader (body : M A) w :
  pointers_valid w -> is_Some (objects w !! shader) ->
  exists w1,
    attach shader true w = Ok tt w1 /\ same_data w w1 /\ issued_grows w w1 /\
    forall r w2,
      body w1 = r -> after r = Some w2 -> keeps_alive w1 w2 ->
      exists w',
        same_data w2 w' /\ issued_grows w2 w' /\ pointers_valid w' /\
        with_TemporaryAttacher shader body w
        = match r with
          | Ok a _ => Ok a w'
          | Throw e _ => Throw e w'
          | Undefined => Undefined
          end.
Proof.
  intros [Hcur Hdflt] Hshader.
  destruct (attach_returns shader true w Hshader) as (w1 & Hattach & _ & Hw1).
  exists w1. split_and!; try done.
  { apply (attach_issued_grows shader true). by rewrite Hattach. }
  intros r w2 Hbody Hafter [Halive Hd2].
  destruct Hw1 as (Ho1 & Hd1 & _).
  assert (Hd : forall p, defaultShader w2 = Some p -> is_Some (objects w2 !! p)).
  { intros p Hp. apply Halive. rewrite Ho1. apply Hdflt. congruence. }
  assert (Hc : forall p, currentShader w = Some p -> is_Some (objects w2 !! p)).
  { intros p Hp. apply Halive. rewrite Ho1. by apply Hcur. }
  destruct (TemporaryAttacher_dtor_returns (currentShader w) w2 Hd Hc)
    as (w' & Hdtor & Hw' & Hcur').
  exists w'. split_and!; try done.
  { apply (TemporaryAttacher_dtor_issued_grows (currentShader w)).
    by rewrite Hdtor. }
  { destruct Hw' as (Ho' & Hd' & _). split; intros p; rewrite Ho'.
    - rewrite Hcur'. destruct (currentShader w); [by apply Hc|by apply Hd].
    - rewrite Hd'. apply Hd. }
  unfold with_TemporaryAttacher. rewrite Hattach, Hbody.
  destruct r as [a w2'|e w2'|]; [| |done]; injection Hafter as ->.
  - unfold mbind, M_bind. by rewrite Hdtor.
  - by rewrite Hdtor.
Qed.

Lemma with_uniforms_keeps_alive this s cache w :
  objects w !! this = Some s -> keeps_alive w (with_uniforms this s cache w).
Proof.
  intros Hs. split; [|done]. intros p Hp. unfold with_uniforms. cbn.
  destruct (decide (p = this)) as [->|Hne].
  - by rewrite lookup_insert_eq.
  - by rewrite lookup_insert_ne.
Qed.

(** *** sendFloat and sendMatrix *)

(** A body that resolves the name and then either throws [e] or issues
    [command], run under a [TemporaryAttacher]. *)
Lemma send_checked this name drv (invalid : bool) fmt args (command : Z -> GLCall)
    w s :
  pointers_valid w -> objects w !! this = Some s -> resolves s name drv ->
  exists w' location before after_,
    location <> -1 /\
    with_TemporaryAttacher this
      (location ← getUniformLocation this name false drv;
       if invalid then throw fmt args
       else emit (command location);; checkSetUniformError) w
    = (if invalid
       then Throw {| what_format := fmt; what_args := args |} w'
       else Ok tt w') /\
    (invalid = false ->
     issued w' = issued w ++ before ++ [command location] ++ after_).
Proof.
  intros Hvalid Hs Hres.
  destruct (with_TemporaryAttacher_returns this
    (location ← getUniformLocation this name false drv;
     if invalid then throw fmt args
     else emit (command location);; checkSetUniformError) w Hvalid)
    as (w1 & _ & Hw1 & [before Hbefore] & Hbody); [done|].
  assert (Hs1 : objects w1 !! this = Some s) by by destruct Hw1 as [-> _].
  destruct (getUniformLocation_cases this name false drv w1 s Hs1)
    as [(location & cache & Hloc & Hne)|(e & _ & _ & Hnot)]; [|done].
  specialize (Hne eq_refl).
  pose proof (with_uniforms_keeps_alive this s cache w1 Hs1) as Halive.
  rewrite (bind_Ok _ _ _ _ _ Hloc) in Hbody.
  destruct invalid.
  - edestruct Hbody as (w' & _ & _ & _ & Heq); [reflexivity|reflexivity|done|].
    exists w', location, [], []. by rewrite Heq.
  - edestruct Hbody as (w' & _ & [after_ Hafter] & _ & Heq);
      [reflexivity|reflexivity| |].
    { split; [|done]. intros p Hp. by apply Halive. }
    exists w', location, before, after_. rewrite Heq. split_and!; try done.
    intros _. rewrite Hafter. cbn. rewrite Hbefore. by rewrite <- !app_assoc.
Qed.

(** C8.  For a shader of a process whose [currentShader] and
    [defaultShader] point to objects or are null, and a name that resolves to
    a location: [sendFloat] throws "Invalid variable size" for every size
    below 1 or above 4, so for 0 and 5, and for the sizes 1 to 4 returns
    having issued the driver call of that size; [sendMatrix] throws "Invalid
    matrix size" for every size below 2 or above 4, so for 1 and 5, and for
    the sizes 2 to 4 returns having issued the driver call of that size. *)
Theorem send_size_checks w this s name count drv :
  pointers_valid w -> objects w !! this = Some s -> resolves s name drv ->
  (forall size vec, size < 1 \/ 4 < size ->
     exists w',
       sendFloat this name size vec count drv w
       = Throw {| what_format := "Invalid variable size: %d (expected 1-4).";
                  what_args := [ArgInt size] |} w') /\
  (forall size vec, 1 <= size <= 4 ->
     exists w' location before after_,
       location <> -1 /\
       sendFloat this name size vec count drv w = Ok tt w' /\
       issued w'
       = issued w ++ before ++ [glUniformfv size location count vec] ++ after_) /\
  (forall size m, size < 2 \/ 4 < size ->
     exists w',
       sendMatrix this name size m count drv w
       = Throw {| what_format :=
                    "Invalid matrix size: %dx%d (can only set 2x2, 3x3 or 4x4 matrices).";
                  what_args := [ArgInt size; ArgInt size] |} w') /\
  (forall size m, 2 <= size <= 4 ->
     exists w' location before after_,
       location <> -1 /\
       sendMatrix this name size m count drv w = Ok tt w' /\
       issued w'
       = issued w ++ before ++ [glUniformMatrixfv size location count m] ++ after_).
Proof.
  intros Hvalid Hs Hres. split_and!.
  - intros size vec Hsize.
    destruct (send_checked this name drv true
                "Invalid variable size: %d (expected 1-4)." [ArgInt size]
                (fun location => glUniformfv size location count vec) w s)
      as (w' & _ & _ & _ & _ & Heq & _); [done..|].
    exists w'. rewrite <- Heq. unfold sendFloat. f_equal.
    assert ((size <? 1) || (4 <? size) = true) as ->; [|done].
    apply orb_true_iff. rewrite !Z.ltb_lt. lia.
  - intros size vec Hsize.
    destruct (send_checked this name drv false EmptyString []
                (fun location => glUniformfv size location count vec) w s)
      as (w' & location & before & after_ & Hne & Heq & Hissued); [done..|].
    exists w', location, before, after_. split_and!; [done| |by apply Hissued].
    rewrite <- Heq. unfold sendFloat.
    assert ((size <? 1) || (4 <? size) = false) as ->.
    { apply orb_false_iff. rewrite !Z.ltb_ge. lia. }
    assert (size = 1 \/ size = 2 \/ size = 3 \/ size = 4) as Hcases by lia.
    destruct Hcases as [-> | [-> | [-> | ->]]]; done.
  - intros size m Hsize.
    destruct (send_checked this name drv true
                "Invalid matrix size: %dx%d (can only set 2x2, 3x3 or 4x4 matrices)."
                [ArgInt size; ArgInt size]
                (fun location => glUniformMatrixfv size location count m) w s)
      as (w' & _ & _ & _ & _ & Heq & _); [done..|].
    exists w'. rewrite <- Heq. unfold sendMatrix. f_equal.
    assert ((size <? 2) || (4 <? size) = true) as ->; [|done].
    apply orb_true_iff. rewrite !Z.ltb_lt. lia.
  - intros size m Hsize.
    destruct (send_checked this name drv false EmptyString []
                (fun location => glUniformMatrixfv size location count m) w s)
      as (w' & location & before & after_ & Hne & Heq & Hissued); [done..|].
    exists w', location, before, after_. split_and!; [done| |by apply Hissued].
    rewrite <- Heq. unfold sendMatrix.
    assert ((size <? 2) || (4 <? size) = false) as ->.
    { apply orb_false_iff. rewrite !Z.ltb_ge. lia. }
    assert (size = 2 \/ size = 3 \/ size = 4) as Hcases by lia.
    destruct Hcases as [-> | [-> | ->]]; done.
Qed.

(** *** Loading with a driver that accepts the code *)

Lemma program_in_use_app calls calls' :
  program_in_use (calls ++ calls')
  = match program_in_use calls' with
    | Some p => Some p
    | None => program_in_use calls
    end.
Proof.
  induction calls as [|c calls IH]; cbn.
  - by destruct (program_in_use calls').
  - rewrite IH. by destruct (program_in_use calls').
Qed.

Lemma rebind_from_cleared i n : rebind_from i (replicate n 0%N) = [].
Proof. revert i. induction n as [|n IH]; intros i; cbn; [done|]. apply IH. Qed.

Lemma entries_both (sources : ShaderSources) v p :
  sources !! TYPE_VERTEX = Some v -> sources !! TYPE_PIXEL = Some p ->
  sources !! TYPE_MAX_ENUM = None ->
  entries sources = [(TYPE_VERTEX, v); (TYPE_PIXEL, p)].
Proof. intros Hv Hp Hm. unfold entries. cbn. by rewrite Hv, Hp, Hm. Qed.

(** With a driver that accepts the code, compiling the two stages returns
    their shader objects and changes only the commands issued. *)
Lemma compile_sources_accepts drv v p w :
  accepts drv ->
  exists cs,
    compile_sources [(TYPE_VERTEX, v); (TYPE_PIXEL, p)] drv w
    = Ok [answer_glCreateShader drv GL_VERTEX_SHADER;
          answer_glCreateShader drv GL_FRAGMENT_SHADER]
         (set_issued (issued w ++ cs) w) /\
    program_in_use cs = None.
Proof.
  intros (Hv & Hp & Hcv & Hcp & _).
  apply N.eqb_neq in Hv, Hp.
  eexists. cbn [compile_sources]. unfold compileCode. run_monad. cbn.
  rewrite Hv, Hcv. cbn. rewrite Hp, Hcp. cbn.
  rewrite <- !app_assoc. split; [reflexivity|]. done.
Qed.

Lemma loadVolatile_accepts this drv w s v p :
  objects w !! this = Some s -> accepts drv ->
  shaderSources s !! TYPE_VERTEX = Some v ->
  shaderSources s !! TYPE_PIXEL = Some p ->
  shaderSources s !! TYPE_MAX_ENUM = None ->
  exists w' cs,
    loadVolatile this drv w = Ok true w' /\
    objects w'
    = <[this := set_program (answer_glCreateProgram drv)
                  (set_activeTextureUnits (replicate (maxTextureUnits w) 0%N) s)]>
        (objects w) /\
    issued w' = issued w ++ cs /\
    (currentShader w = Some this ->
     currentShader w' = Some this /\
     program_in_use cs = Some (answer_glCreateProgram drv)) /\
    (currentShader w <> Some this -> currentShader w' = currentShader w).
Proof.
  intros Hs Haccepts Hv Hp Hm.
  pose proof Haccepts as (_ & _ & _ & _ & Hprogram & Hlink).
  apply N.eqb_neq in Hprogram.
  unfold loadVolatile.
  rewrite (bind_Ok _ _ w (maxTextureUnits w) w) by done.
  rewrite (bind_Ok _ _ _ _ _ (assign_Ok _ _ _ _ Hs)).
  erewrite bind_Ok; [|apply deref_Ok; apply lookup_insert_eq].
  cbn [shaderSources set_activeTextureUnits].
  rewrite (entries_both _ v p) by done.
  destruct (compile_sources_accepts drv v p
              (set_objects
                 (<[this := set_activeTextureUnits
                              (replicate (maxTextureUnits w) 0%N) s]> (objects w)) w)
              Haccepts) as (cs1 & Hcompile & Hcs1).
  rewrite (bind_Ok _ _ _ _ _ Hcompile).
  rewrite bool_decide_eq_false_2 by done.
  unfold createProgram, bindVertexAttribs, getWarnings.
  run_monad. cbn. rewrite !lookup_insert_eq. cbn.
  rewrite Hprogram. cbn. rewrite !lookup_insert_eq. cbn.
  rewrite Hprogram, Hlink. cbn. rewrite !insert_insert_eq.
  destruct (decide (currentShader w = Some this)) as [Hcur|Hcur].
  - rewrite bool_decide_eq_true_2 by done. cbn.
    unfold attach. run_monad. cbn. rewrite lookup_insert_eq. cbn.
    rewrite (bool_decide_eq_true_2 (None <> Some this)) by done. cbn.
    rewrite rebind_from_cleared, app_nil_r.
    eexists _, _. split; [reflexivity|]. cbn.
    split_and!; [done| |split; [done|]|done].
    + rewrite <- !app_assoc. reflexivity.
    + rewrite !program_in_use_app. cbn. done.
  - rewrite bool_decide_eq_false_2 by done. cbn.
    eexists _, _. split; [reflexivity|]. cbn.
    split_and!; [done| |done|done].
    rewrite <- !app_assoc. reflexivity.
Qed.

(** *** The current shader across a reload *)

#[local] Instance current_unless_refl this : Reflexive (current_unless this).
Proof. intros w. by left. Qed.

#[local] Instance current_unless_trans this : Transitive (current_unless this).
Proof.
  intros w1 w2 w3 [H12|H1] [H23|H2]; unfold current_unless;
    first [by right | left; congruence | right; congruence].
Qed.

Lemma preserves_bind_gets {A B} (R : relation World) (f : World -> A)
    (k : A -> M B) :
  (forall w w', after (k (f w) w) = Some w' -> R w w') ->
  preserves R (gets f ≫= k).
Proof. intros H w w' Hafter. by apply H. Qed.

Lemma loadVolatile_current_unless this drv :
  preserves (current_unless this) (loadVolatile this drv).
Proof.
  assert (Hcompile : forall sources,
            preserves (current_unless this) (compile_sources sources drv)).
  { induction sources as [|[type code] sources IH]; cbn [compile_sources].
    - preserves_steps.
    - unfold compileCode. preserves_steps; intros; first [by left | apply IH]. }
  unfold loadVolatile.
  apply preserves_bind; [apply _|preserves_steps|intros max].
  apply preserves_bind; [apply _|preserves_steps; intros; by left|intros _].
  apply preserves_bind; [apply _|preserves_steps|intros s].
  apply preserves_bind; [apply _|apply Hcompile|intros shaderids].
  destruct (bool_decide _); [preserves_steps|].
  apply preserves_bind; [apply _| |intros _].
  { unfold createProgram, bindVertexAttribs, getWarnings.
    preserves_steps; intros; by left. }
  apply preserves_bind_gets. intros w w' Hafter.
  destruct (decide (currentShader w = Some this)) as [Hcur|Hcur]; [by right|].
  rewrite bool_decide_eq_false_2 in Hafter by done.
  injection Hafter as <-. by left.
Qed.

(** C10.  In every state of the process and for every object, with a driver
    that compiles and links its code: the cycle [unloadVolatile],
    [loadVolatile] returns, and the object has the program the driver
    created, which is not 0.  When the object was the current shader it is
    the current shader afterwards, and the last [glUseProgram] issued has
    that new program as its argument.  When it was not, [currentShader] is
    what it was; that holds for any driver, also when the reload throws. *)
Theorem reload_keeps_current n w this s drv :
  reachable n w -> objects w !! this = Some s -> accepts drv ->
  (exists w1 w2 s2,
     unloadVolatile this w = Ok tt w1 /\
     loadVolatile this drv w1 = Ok true w2 /\
     objects w2 !! this = Some s2 /\
     program s2 = answer_glCreateProgram drv /\
     program s2 <> 0%N /\
     (currentShader w = Some this ->
      currentShader w2 = Some this /\
      program_in_use (issued w2) = Some (program s2)) /\
     (currentShader w <> Some this -> currentShader w2 = currentShader w)) /\
  (forall drv' w1 w2,
     currentShader w <> Some this ->
     after (unloadVolatile this w) = Some w1 ->
     after (loadVolatile this drv' w1) = Some w2 ->
     currentShader w2 = currentShader w).
Proof.
  intros Hreach Hs Haccepts. pose proof (reachable_consistent _ _ Hreach) as Hw.
  destruct (unloadVolatile_returns n this w s Hw Hs)
    as (counters & _ & Hunload & _).
  set (w1 := unloaded this s counters w) in *.
  assert (Hcur1 : currentShader w1 = currentShader w) by done.
  split.
  - destruct (consistent_sources _ _ Hw this _ (sources_of_lookup _ _ _ Hs))
      as ([v Hv] & [p Hp] & Hm).
    destruct (loadVolatile_accepts this drv w1
                (set_uniforms ∅
                   (set_activeTextureUnits (replicate (maxTextureUnits w) 0%N)
                      (set_program 0%N s))) v p)
      as (w2 & cs & Hload & Hobjects & Hissued & Hcurrent & Hother);
      [apply lookup_insert_eq|done..|].
    exists w1, w2. eexists. split_and!; [done|done| | | | |].
    + rewrite Hobjects. apply lookup_insert_eq.
    + done.
    + cbn. by destruct Haccepts as (_ & _ & _ & _ & ? & _).
    + intros Hcur. rewrite Hcur1 in Hcurrent.
      destruct (Hcurrent Hcur) as [? Huse]. split; [done|].
      rewrite Hissued, program_in_use_app, Huse. done.
    + intros Hcur. rewrite Hcur1 in Hother. by apply Hother.
  - intros drv' w1' w2 Hcur Hunload' Hload.
    rewrite Hunload in Hunload'. injection Hunload' as <-.
    destruct (loadVolatile_current_unless this drv' _ _ Hload) as [->|?]; done.
Qed.

(** *** The default sources *)

#[local] Instance same_defaults_refl : Reflexive same_defaults.
Proof. by intros w. Qed.

#[local] Instance same_defaults_trans : Transitive same_defaults.
Proof. intros w1 w2 w3. unfold same_defaults. congruence. Qed.

Lemma attach_same_defaults this temporary :
  preserves same_defaults (attach this temporary).
Proof.
  intros w w' H. by destruct (attach_same_data this temporary w w' H) as (_&_&?&_).
Qed.

Lemma TemporaryAttacher_dtor_same_defaults prev :
  preserves same_defaults (TemporaryAttacher_dtor prev).
Proof.
  intros w w' H.
  by destruct (TemporaryAttacher_dtor_same_data prev w w' H) as (_&_&?&_).
Qed.

Ltac defaults_method :=
  preserves_steps; intros;
  first [ done | apply attach_same_defaults
        | apply TemporaryAttacher_dtor_same_defaults ].

Lemma compile_sources_same_defaults sources drv :
  preserves same_defaults (compile_sources sources drv).
Proof.
  induction sources as [|[type code] sources IH]; cbn [compile_sources].
  - defaults_method.
  - unfold compileCode. preserves_steps; intros; first [done | apply IH].
Qed.

Lemma loadVolatile_same_defaults this drv :
  preserves same_defaults (loadVolatile this drv).
Proof.
  unfold loadVolatile, createProgram, bindVertexAttribs, getWarnings.
  preserves_steps; intros;
    first [ done | apply attach_same_defaults
          | apply compile_sources_same_defaults ].
Qed.

Lemma Shader_new_same_defaults this sources drv :
  preserves same_defaults (Shader_new this sources drv).
Proof.
  intros w w' Hafter.
  destruct (objects w !! this) as [s|] eqn:Hfresh.
  { unfold Shader_new in Hafter. by rewrite Hfresh in Hafter. }
  rewrite (Shader_new_cases _ _ _ _ Hfresh) in Hafter.
  case_bool_decide; [by injection Hafter as <-|].
  assert (Hrest : preserves same_defaults
            (checkCodeCompleteness this;; loadVolatile this drv;; mret tt)).
  { unfold checkCodeCompleteness. preserves_steps; intros;
      first [done | apply loadVolatile_same_defaults]. }
  set (w1 := set_objects _ (resized w)) in *.
  destruct ((checkCodeCompleteness this;; loadVolatile this drv;; mret tt) w1)
    as [[] w2|e w2|] eqn:E; [| |done]; injection Hafter as <-.
  - apply (Hrest w1 w2). by rewrite E.
  - assert (H2 : same_defaults w1 w2) by (apply Hrest; by rewrite E). apply H2.
Qed.

(** Only [setDefaultSources] changes the default sources. *)
Lemma call_same_defaults c w w' :
  after (call c w) = Some w' ->
  (forall sources, c <> CallSetDefaultSources sources) ->
  defaultSources w' = defaultSources w.
Proof.
  intros Hafter Hc. revert Hafter.
  change (after (call c w) = Some w' -> same_defaults w w').
  revert w w'. change (preserves same_defaults (call c)).
  destruct c; cbn [call].
  - apply Shader_new_same_defaults.
  - unfold Shader_delete, detach, unloadVolatile. defaults_method.
  - apply preserves_forget; [apply _..|apply loadVolatile_same_defaults].
  - unfold unloadVolatile. defaults_method.
  - apply attach_same_defaults.
  - unfold detach. defaults_method.
  - unfold sendFloat, getUniformLocation, checkSetUniformError. defaults_method.
  - unfold sendMatrix, getUniformLocation, checkSetUniformError. defaults_method.
  - unfold sendTexture, getUniformLocation, getTextureUnit, checkSetUniformError.
    defaults_method.
  - unfold getTextureUnit. defaults_method.
  - unfold hasUniform, getUniformLocation. defaults_method.
  - by destruct (Hc sources).
  - defaults_method.
Qed.

Lemma setDefaultSources_cases sources w :
  (registers (CallSetDefaultSources sources) /\
   setDefaultSources sources w = Ok tt (set_defaultSources sources w)) \/
  (~ registers (CallSetDefaultSources sources) /\
   setDefaultSources sources w
   = Throw {| what_format := "Default shader sources need both vertex and pixel code.";
              what_args := [] |} w).
Proof.
  unfold setDefaultSources, registers.
  destruct (sources !! TYPE_VERTEX) as [v|], (sources !! TYPE_PIXEL) as [p|];
    cbn; [left|right..]; (split; [|done]).
  - by split.
  - by intros [_ [? [=]]].
  - by intros [[? [=]] _].
  - by intros [[? [=]] _].
Qed.

(** The default sources of a process are the argument of the last call that
    registered its argument, and are empty when no call did. *)
Lemma run_defaults cs : forall w0 w,
  run cs w0 = Some w ->
  (~ Exists registers cs /\ defaultSources w = defaultSources w0) \/
  (Exists registers cs /\
   is_Some (defaultSources w !! TYPE_VERTEX) /\
   is_Some (defaultSources w !! TYPE_PIXEL)).
Proof.
  induction cs as [|c cs IH]; intros w0 w Hrun; cbn in Hrun.
  - injection Hrun as <-. left. split; [|done]. by intros ?%Exists_nil.
  - destruct (after (call c w0)) as [w1|] eqn:E; [|done]. cbn in Hrun.
    destruct (IH _ _ Hrun) as [[Hnone Heq]|[Hsome Hboth]].
    2: { right. split; [by right|done]. }
    assert (Hother : (forall sources, c <> CallSetDefaultSources sources) ->
              ~ Exists registers (c :: cs) /\ defaultSources w = defaultSources w0).
    { intros Hc. split.
      - intros [Hreg|?]%Exists_cons; [|done].
        destruct c; try done. by destruct (Hc sources).
      - rewrite Heq. by apply (call_same_defaults c). }
    destruct c; try (left; by apply Hother).
    cbn [call] in E.
    destruct (setDefaultSources_cases sources w0) as [[Hreg Hset]|[Hnot Hset]];
      rewrite Hset in E; injection E as <-.
    + right. split; [by left|]. rewrite Heq. cbn. apply Hreg.
    + left. split; [|done]. by intros [?|?]%Exists_cons.
Qed.

(** C7.  Take any run of calls from start-up and construct, in storage that
    holds no object, a shader from sources with a vertex source only.  When
    a call of [setDefaultSources] registered default sources during the run,
    and the driver compiles and links the code, the constructor returns, and
    the object has the vertex source given and the default pixel source.
    When no call did, the constructor throws "Cannot create shader: no
    default pixel shader code!", whatever the driver answers, and no object
    exists in the storage. *)
Theorem vertex_only_construction n cs w this v drv :
  run cs (initial_World n) = Some w -> objects w !! this = None ->
  (Exists registers cs -> accepts drv ->
   exists w' s' p,
     Shader_new this {[TYPE_VERTEX := v]} drv w = Ok tt w' /\
     objects w' !! this = Some s' /\
     defaultSources w !! TYPE_PIXEL = Some p /\
     shaderSources s' = <[TYPE_PIXEL := p]> {[TYPE_VERTEX := v]}) /\
  (~ Exists registers cs ->
   exists w',
     Shader_new this {[TYPE_VERTEX := v]} drv w
     = Throw {| what_format := "Cannot create shader: no default pixel shader code!";
                what_args := [] |} w' /\
     objects w' = objects w).
Proof.
  intros Hrun Hfresh.
  rewrite (Shader_new_cases _ _ _ _ Hfresh).
  rewrite bool_decide_eq_false_2 by apply insert_non_empty.
  set (w1 := set_objects _ (resized w)).
  assert (Hs1 : objects w1 !! this = Some (constructing {[TYPE_VERTEX := v]}))
    by apply lookup_insert_eq.
  assert (Hcheck :
    checkCodeCompleteness this w1
    = match defaultSources w !! TYPE_PIXEL with
      | Some p =>
          Ok tt (with_sources this (constructing {[TYPE_VERTEX := v]})
                   (<[TYPE_PIXEL := p]> {[TYPE_VERTEX := v]}) w1)
      | None =>
          Throw {| what_format := "Cannot create shader: no default pixel shader code!";
                   what_args := [] |}
                (with_sources this (constructing {[TYPE_VERTEX := v]})
                   {[TYPE_VERTEX := v]} w1)
      end).
  { rewrite (checkCodeCompleteness_cases this w1 _ Hs1). unfold fill. cbn.
    rewrite lookup_singleton_eq, lookup_singleton_ne by done.
    by destruct (defaultSources w !! TYPE_PIXEL). }
  destruct (run_defaults cs _ _ Hrun) as [[Hnone Heq]|[Hsome [_ [p Hp]]]].
  - split; [done|]. intros _. cbn in Heq.
    rewrite Heq, lookup_empty in Hcheck.
    rewrite (bind_Throw _ _ _ _ _ Hcheck).
    eexists. split; [done|]. cbn.
    by rewrite !delete_insert_eq, delete_id.
  - split; [|done]. intros _ Haccepts.
    rewrite Hp in Hcheck. rewrite (bind_Ok _ _ _ _ _ Hcheck).
    destruct (loadVolatile_accepts this drv
                (with_sources this (constructing {[TYPE_VERTEX := v]})
                   (<[TYPE_PIXEL := p]> {[TYPE_VERTEX := v]}) w1)
                (set_shaderSources (<[TYPE_PIXEL := p]> {[TYPE_VERTEX := v]})
                   (constructing {[TYPE_VERTEX := v]})) v p)
      as (w2 & cs2 & Hload & Hobjects & _); [apply lookup_insert_eq|done|..].
    { cbn. by rewrite lookup_insert_ne, lookup_singleton_eq. }
    { cbn. apply lookup_insert_eq. }
    { cbn. by rewrite lookup_insert_ne, lookup_singleton_ne. }
    rewrite (bind_Ok _ _ _ _ _ Hload). cbn.
    eexists w2, _, p. split_and!; [done| |done|].
    + rewrite Hobjects. apply lookup_insert_eq.
    + done.
Qed.

(** *** Requests while a unit is free *)

(** In a consistent state, a shader that sends a texture to a name it has no
    unit for, while some counter is zero, is served. *)
Lemma sendTexture_returns_free n w this s name texture drv :
  consistent n w -> pointers_valid w ->
  objects w !! this = Some s -> resolves s name drv ->
  textureUnitPool s !! name = None -> 0 ∈ textureCounters w ->
  exists w', sendTexture this name texture drv w = Ok tt w' /\
             pointers_valid w'.
Proof.
  intros Hw Hvalid Hs Hres Hnone Hfree. unfold sendTexture.
  match goal with
  | |- context [with_TemporaryAttacher this ?body] =>
      destruct (with_TemporaryAttacher_returns this body w Hvalid)
        as (w1 & _ & Hw1 & _ & Hbody); [done|]
  end.
  destruct Hw1 as (Ho1 & _ & _ & Hc1 & _).
  assert (Hs1 : objects w1 !! this = Some s) by by rewrite Ho1.
  destruct (getUniformLocation_cases this name false drv w1 s Hs1)
    as [(location & cache & Hloc & _)|(e & _ & _ & Hnot)]; [|done].
  rewrite (bind_Ok _ _ _ _ _ Hloc) in Hbody.
  set (su := set_uniforms cache s) in *.
  assert (Hsu : objects (with_uniforms this s cache w1) !! this = Some su)
    by apply lookup_insert_eq.
  destruct (getTextureUnit_cases this name _ su Hsu)
    as [(textureunit & Hunit & Hchosen)|(_ & _ & Hnot & _)].
  2: { cbn in Hnot. by rewrite Hc1 in Hnot. }
  rewrite (bind_Ok _ _ _ _ _ Hunit) in Hbody.
  unfold chosen in Hchosen. cbn in Hchosen. rewrite Hnone, Hc1 in Hchosen.
  destruct Hchosen as (i & -> & [[Hi _]|[Hnot _]]); [|done].
  assert (Hbound : activeTextureUnits s !! i = Some 0%N).
  { destruct (lookup_lt_is_Some_2 (activeTextureUnits s) i) as [bound Hbound].
    { rewrite (consistent_records _ _ Hw this _ (records_lookup _ _ _ Hs)).
      rewrite <- (consistent_counters _ _ Hw). by eapply lookup_lt_Some. }
    destruct (decide (bound = 0%N)) as [->|Hne]; [done|].
    pose proof (consistent_users _ _ Hw _ _ Hi) as Hu.
    assert (holds i (activeTextureUnits s)) as Hh by by exists bound.
    pose proof (users_holder i this _ _ (records_lookup _ _ _ Hs) Hh). lia. }
  replace (Z.of_nat i + 1 - 1) with (Z.of_nat i) in Hbody by lia.
  edestruct Hbody as (w' & _ & _ & Hvalid' & Heq); [reflexivity| |..].
  - unfold with_unit, with_uniforms. run_monad. cbn.
    rewrite lookup_insert_eq. cbn. unfold vector_at.
    destruct (Z.ltb_spec (Z.of_nat i) 0) as [|_]; [lia|].
    rewrite Nat2Z.id, Hbound. cbn.
    rewrite bool_decide_eq_true_2 by done. cbn. rewrite Hc1, Hi. cbn.
    change (int (0 + 1)) with (Some 1). cbn.
    rewrite lookup_insert_eq. cbn. reflexivity.
  - split; [|done]. intros p Hp. cbn. rewrite !insert_insert_eq.
    destruct (decide (p = this)) as [->|Hne].
    + by rewrite lookup_insert_eq.
    + by rewrite lookup_insert_ne.
  - exists w'. split; [|done]. rewrite Heq.
    unfold with_unit, with_uniforms. run_monad. cbn.
    rewrite lookup_insert_eq. cbn. unfold vector_at.
    destruct (Z.ltb_spec (Z.of_nat i) 0) as [|_]; [lia|].
    rewrite Nat2Z.id, Hbound. cbn.
    rewrite bool_decide_eq_true_2 by done. cbn. rewrite Hc1, Hi. cbn.
    change (int (0 + 1)) with (Some 1). cbn.
    rewrite lookup_insert_eq. cbn. reflexivity.
Qed.

Lemma free_unit_has_no_holder n w i c s :
  consistent n w -> textureCounters w !! i = Some 0 ->
  objects w !! c = Some s -> ~ holds i (activeTextureUnits s).
Proof.
  intros Hw Hi Hc Hholds.
  pose proof (consistent_users _ _ Hw _ _ Hi).
  pose proof (users_holder i c _ _ (records_lookup _ _ _ Hc) Hholds). lia.
Qed.

(** What a served request for a new name does while a unit is free: the unit
    is one more than the lowest index of a zero counter, no object holds a
    texture there, and the counter becomes 1. *)
Lemma sendTexture_free n w this s name texture drv w' :
  consistent n w -> objects w !! this = Some s ->
  textureUnitPool s !! name = None -> 0 ∈ textureCounters w ->
  sendTexture this name texture drv w = Ok tt w' ->
  exists i,
    lowest 0 (textureCounters w) i /\
    assigned this name (Z.of_nat i + 1) w' /\
    textureCounters w' = <[i := 1]> (textureCounters w).
Proof.
  intros Hw Hs Hnone Hfree Hsend.
  destruct (sendTexture_Ok _ _ _ _ _ _ _ Hs Hsend)
    as (u & bound & Hchosen & _ & Hbound & _ & Hp & _ & _ & _ & _ & _ & Hz & _).
  unfold chosen in Hchosen. rewrite Hnone in Hchosen.
  destruct Hchosen as (i & -> & [Hi|[Hnot _]]); [|done].
  replace (Z.to_nat (Z.of_nat i + 1 - 1)) with i in * by lia.
  exists i. split_and!; [done| |].
  - eexists. rewrite Hp, lookup_insert_eq. split; [done|]. apply lookup_insert_eq.
  - destruct Hi as [Hi _].
    destruct (decide (bound = 0%N)) as [->|Hne].
    + destruct (Hz eq_refl) as (c & Hc & _ & ->). rewrite Hi in Hc.
      by injection Hc as <-.
    + destruct (free_unit_has_no_holder n w i this s Hw Hi Hs). by exists bound.
Qed.


(** *** The counter of a unit and the empty texture handle *)

(** C2, at the failing input.  One shader, constructed with a context of
    three texture units, is sent the texture handle 0 twice for the same
    name.  Both calls return; the name has unit 1; the record of the shader
    holds no texture for it; and the counter of unit 1 is 2: the second call
    has incremented it again. *)
Theorem sendTexture_counts_empty_handle_again :
  exists w,
    run empty_handle_twice (initial_World 3) = Some w /\
    assigned 0 "tex" 1 w /\
    records w !! 0%nat = Some [0%N; 0%N] /\
    textureCounters w = [2; 0].
Proof.
  exists (state_after empty_handle_twice). split_and!.
  - vm_compute. reflexivity.
  - exists {["tex" := 1]}. split; vm_compute; reflexivity.
  - vm_compute. reflexivity.
  - vm_compute. reflexivity.
Qed.

(** After that, unloading the shader releases nothing: the counter of unit 1
    stays 2 although no object is left that uses the unit. *)
Lemma empty_handle_counter_is_not_released :
  textureCounters
    (state_after (empty_handle_twice ++ [CallDelete 0])) = [2; 0] /\
  objects (state_after (empty_handle_twice ++ [CallDelete 0])) = ∅.
Proof. split; vm_compute; reflexivity. Qed.

(** *** The theorems at example inputs *)

Lemma state_after_reachable cs :
  is_Some (run cs (initial_World 3)) -> reachable 3 (state_after cs).
Proof.
  intros [w Hw]. unfold state_after. rewrite Hw. cbn.
  eapply run_reachable; [apply reachable_initial|done].
Qed.

Lemma example_driver_accepts : accepts example_driver.
Proof. unfold accepts. cbn. by split_and!. Qed.

(** [getTextureUnit] on a new shader: the free unit of lowest index. *)
Lemma getTextureUnit_algorithm_witness :
  reachable 3 (state_after one_shader) /\
  objects (state_after one_shader) !! 0%nat
  = Some (object_at 0 (state_after one_shader)) /\
  exists i,
    lowest 0 (textureCounters (state_after one_shader)) i /\
    getTextureUnit 0 "tex" (state_after one_shader)
    = Ok (Z.of_nat i + 1)
        (with_unit 0 (object_at 0 (state_after one_shader)) "tex"
           (Z.of_nat i + 1) (state_after one_shader)).
Proof.
  assert (Hreach : reachable 3 (state_after one_shader))
    by (apply state_after_reachable; vm_compute; eauto).
  assert (Hs : objects (state_after one_shader) !! 0%nat
               = Some (object_at 0 (state_after one_shader)))
    by (vm_compute; reflexivity).
  split; [exact Hreach|]. split; [exact Hs|].
  destruct (getTextureUnit_algorithm 3 _ 0%nat _ "tex" Hreach Hs)
    as (_ & Hfree & _).
  apply Hfree; [vm_compute; reflexivity|].
  vm_compute. constructor.
Defined.

(** Unloading a shader that has a texture bound. *)
Lemma unloadVolatile_releases_witness :
  reachable 3 (state_after one_bound_shader) /\
  objects (state_after one_bound_shader) !! 0%nat
  = Some (object_at 0 (state_after one_bound_shader)) /\
  Forall (fun c => 0 <= c) (textureCounters (state_after one_bound_shader)).
Proof.
  assert (Hreach : reachable 3 (state_after one_bound_shader))
    by (apply state_after_reachable; vm_compute; eauto).
  assert (Hs : objects (state_after one_bound_shader) !! 0%nat
               = Some (object_at 0 (state_after one_bound_shader)))
    by (vm_compute; reflexivity).
  split; [exact Hreach|]. split; [exact Hs|].
  exact (proj1 (unloadVolatile_releases 3 _ 0%nat _ Hreach Hs)).
Defined.

Lemma no_pointers_valid w :
  currentShader w = None -> defaultShader w = None -> pointers_valid w.
Proof. intros Hc Hd. split; intros p; rewrite ?Hc, ?Hd; discriminate. Qed.

Lemma example_driver_resolves s name : resolves s name example_driver.
Proof. right. cbn. discriminate. Qed.


(** A vertex source alone, after default sources were registered. *)
Lemma vertex_only_construction_witness :
  run [CallSetDefaultSources example_sources] (initial_World 3)
  = Some (state_after [CallSetDefaultSources example_sources]) /\
  objects (state_after [CallSetDefaultSources example_sources]) !! 0%nat = None /\
  exists w' s' p,
    Shader_new 0 {[TYPE_VERTEX := "v"]} example_driver
      (state_after [CallSetDefaultSources example_sources]) = Ok tt w' /\
    objects w' !! 0%nat = Some s' /\
    defaultSources (state_after [CallSetDefaultSources example_sources])
      !! TYPE_PIXEL = Some p /\
    shaderSources s' = <[TYPE_PIXEL := p]> {[TYPE_VERTEX := "v"]}.
Proof.
  assert (Hrun : run [CallSetDefaultSources example_sources] (initial_World 3)
                 = Some (state_after [CallSetDefaultSources example_sources]))
    by (vm_compute; reflexivity).
  assert (Hfresh : objects (state_after [CallSetDefaultSources example_sources])
                   !! 0%nat = None) by (vm_compute; reflexivity).
  split; [exact Hrun|]. split; [exact Hfresh|].
  apply (proj1 (vertex_only_construction 3 _ _ 0%nat "v" example_driver
                  Hrun Hfresh)).
  - left. split; vm_compute; eauto.
  - apply example_driver_accepts.
Defined.

(** The size checks on a new shader. *)
Lemma send_size_checks_witness :
  pointers_valid (state_after one_shader) /\
  objects (state_after one_shader) !! 0%nat
  = Some (object_at 0 (state_after one_shader)) /\
  (exists w',
     sendFloat 0 "x" 5 [] 1 example_driver (state_after one_shader)
     = Throw {| what_format := "Invalid variable size: %d (expected 1-4).";
                what_args := [ArgInt 5] |} w') /\
  (exists w',
     sendMatrix 0 "x" 1 [] 1 example_driver (state_after one_shader)
     = Throw {| what_format :=
                  "Invalid matrix size: %dx%d (can only set 2x2, 3x3 or 4x4 matrices).";
                what_args := [ArgInt 1; ArgInt 1] |} w').
Proof.
  assert (Hvalid : pointers_valid (state_after one_shader))
    by (apply no_pointers_valid; vm_compute; reflexivity).
  assert (Hs : objects (state_after one_shader) !! 0%nat
               = Some (object_at 0 (state_after one_shader)))
    by (vm_compute; reflexivity).
  split; [exact Hvalid|]. split; [exact Hs|].
  destruct (send_size_checks (state_after one_shader) 0%nat _ "x" 1
              example_driver Hvalid Hs (example_driver_resolves _ _))
    as (Hfloat & _ & Hmatrix & _).
  split.
  - apply Hfloat. right. reflexivity.
  - apply Hmatrix. left. reflexivity.
Defined.

(** A reload of a new shader. *)
Lemma reload_keeps_current_witness :
  reachable 3 (state_after one_shader) /\
  objects (state_after one_shader) !! 0%nat
  = Some (object_at 0 (state_after one_shader)) /\
  accepts example_driver /\
  exists w1 w2,
    unloadVolatile 0 (state_after one_shader) = Ok tt w1 /\
    loadVolatile 0 example_driver w1 = Ok true w2.
Proof.
  assert (Hreach : reachable 3 (state_after one_shader))
    by (apply state_after_reachable; vm_compute; eauto).
  assert (Hs : objects (state_after one_shader) !! 0%nat
               = Some (object_at 0 (state_after one_shader)))
    by (vm_compute; reflexivity).
  split; [exact Hreach|]. split; [exact Hs|].
  split; [exact example_driver_accepts|].
  destruct (reload_keeps_current 3 _ 0%nat _ example_driver Hreach Hs
              example_driver_accepts)
    as [(w1 & w2 & s2 & Hunload & Hload & _) _].
  exists w1, w2. split; [exact Hunload|exact Hload].
Defined.

(* --------------------------------------------------------------------- *)
(** ** Further properties of the shader manager                           *)
(* --------------------------------------------------------------------- *)

(** *** getGLSLVersion *)

Lemma string_find_append version rest :
  " "%char ∉ list_ascii_of_string version ->
  string_find " " (String.append version (String " " rest))
  = Some (String.length version) /\
  string_find " " version = None.
Proof.
  induction version as [|c version IH];
    cbn [string_find String.append list_ascii_of_string String.length];
    intros Hnot; [done|].
  apply not_elem_of_cons in Hnot as [Hc Hnot].
  change (String.append (String c version) (String " " rest))
    with (String c (String.append version (String " " rest))).
  cbn [string_find].
  destruct (Ascii.eqb_spec c " "%char) as [->|_]; [done|].
  destruct (IH Hnot) as [-> ->]. done.
Qed.

Lemma substring_append version rest :
  substring 0 (String.length version) (String.append version rest) = version.
Proof.
  induction version as [|c version IH].
  - by destruct rest.
  - change (String.append (String c version) rest)
      with (String c (String.append version rest)).
    cbn [String.length substring]. by rewrite IH.
Qed.

(** X7.  [getGLSLVersion] answers "0.0" when the driver has no version
    string.  For a version string made of a version without a space, a
    space, and any rest, it answers the version; for a version string
    without a space it answers the whole string. *)
Theorem getGLSLVersion_cuts_at_the_first_space version rest :
  " "%char ∉ list_ascii_of_string version ->
  getGLSLVersion None = "0.0" /\
  getGLSLVersion (Some (String.append version (String " " rest))) = version /\
  getGLSLVersion (Some version) = version.
Proof.
  intros Hnot. destruct (string_find_append version rest Hnot) as [Hfind Hnone].
  unfold getGLSLVersion. rewrite Hfind, Hnone. split_and!; [done| |done].
  apply substring_append.
Qed.

Lemma getGLSLVersion_cuts_at_the_first_space_witness :
  getGLSLVersion (Some "1.20 NVIDIA via Cg compiler") = "1.20".
Proof.
  refine (proj1 (proj2
    (getGLSLVersion_cuts_at_the_first_space "1.20" "NVIDIA via Cg compiler" _))).
  vm_compute. intros H. repeat (inversion H as [|? ? ? H']; subst; clear H; rename H' into H).
Defined.

(** *** What holds in every state of the process *)

(** X8.  In every state of the process: the vector of counters and the
    binding record of every object alive have [maxTextureUnits] entries;
    every unit an object has assigned to a name is at least 1 and at most
    [maxTextureUnits]; every counter is at least the number of objects alive
    whose record holds a texture for the unit, and is an [int]; and once an
    object is alive, [maxTextureUnits] is one less than the number of units
    the context reports, or 0. *)
Theorem counters_cover_the_users n w :
  reachable n w ->
  length (textureCounters w) = maxTextureUnits w /\
  (forall this s, objects w !! this = Some s ->
     length (activeTextureUnits s) = maxTextureUnits w /\
     maxTextureUnits w = units_of n /\
     forall name textureunit,
       textureUnitPool s !! name = Some textureunit ->
       1 <= textureunit <= Z.of_nat (maxTextureUnits w)) /\
  (forall i counter, textureCounters w !! i = Some counter ->
     Z.of_nat (users i (records w)) <= counter <= INT_MAX).
Proof.
  intros Hreach. pose proof (reachable_consistent n w Hreach) as Hw.
  split_and!.
  - apply (consistent_counters _ _ Hw).
  - intros this s Hs. split_and!.
    + apply (consistent_records _ _ Hw this). by apply records_lookup.
    + destruct (consistent_max _ _ Hw) as [Hmax|[_ Hempty]]; [done|].
      pose proof (records_lookup _ _ _ Hs) as Hr. by rewrite Hempty in Hr.
    + intros name textureunit Hname.
      apply (consistent_pools _ _ Hw this (textureUnitPool s) name); [|done].
      by apply pools_lookup.
  - intros i counter Hi. split.
    + by apply (consistent_users _ _ Hw).
    + pose proof (consistent_int _ _ Hw) as Hint.
      rewrite Forall_lookup in Hint. by destruct (Hint i counter Hi).
Qed.

(** X9.  In every state of the process the default sources are empty or
    hold both a vertex and a pixel source. *)
Theorem default_sources_are_all_or_nothing n w :
  reachable n w ->
  defaultSources w = ∅ \/
  (is_Some (defaultSources w !! TYPE_VERTEX) /\
   is_Some (defaultSources w !! TYPE_PIXEL)).
Proof.
  induction 1 as [|c w w' Hreach IH Hcall]; [by left|].
  assert (Hc : (exists sources, c = CallSetDefaultSources sources) \/
               (forall sources, c <> CallSetDefaultSources sources)).
  { destruct c; try (by right); left; eauto. }
  destruct Hc as [[sources ->]|Hother].
  - cbn in Hcall.
    destruct (setDefaultSources_cases sources w) as [[Hreg Heq]|[_ Heq]];
      rewrite Heq in Hcall; injection Hcall as <-; [|done].
    right. exact Hreg.
  - by rewrite (call_same_defaults c w w' Hcall).
Qed.

(** *** The current shader across a TemporaryAttacher *)

#[local] Instance same_defaultShader_refl : Reflexive same_defaultShader.
Proof. by intros w. Qed.

#[local] Instance same_defaultShader_trans : Transitive same_defaultShader.
Proof. unfold same_defaultShader. intros w1 w2 w3 ? ?. congruence. Qed.

Lemma same_data_defaultShader w w' : same_data w w' -> same_defaultShader w w'.
Proof. by intros (_ & ? & _). Qed.

Lemma attach_Ok_inv this temporary w w' :
  attach this temporary w = Ok tt w' ->
  is_Some (objects w !! this) /\ currentShader w' = Some this /\ same_data w w'.
Proof.
  intros Hattach. destruct (objects w !! this) as [s|] eqn:Hs.
  - destruct (attach_returns this temporary w) as (w'' & Heq & Hcur & Hdata);
      [by rewrite Hs|].
    rewrite Heq in Hattach. injection Hattach as <-. split_and!; eauto.
  - unfold attach in Hattach. run_monad_in Hattach. by rewrite Hs in Hattach.
Qed.

Lemma detach_Ok_inv w w' :
  detach w = Ok tt w' ->
  currentShader w' = defaultShader w /\ same_data w w' /\
  (forall p, defaultShader w = Some p -> is_Some (objects w !! p)).
Proof.
  unfold detach. run_monad. destruct (defaultShader w) as [d|] eqn:Hd.
  - intros Hattach. apply attach_Ok_inv in Hattach as (Hlive & Hcur & Hdata).
    split_and!; [done|done|]. by intros p [= <-].
  - intros [= <-]. split_and!; [done|done|done].
Qed.

Lemma TemporaryAttacher_dtor_Ok_inv prev w w' :
  TemporaryAttacher_dtor prev w = Ok tt w' ->
  currentShader w'
  = match prev with Some p => Some p | None => defaultShader w end.
Proof.
  destruct prev as [p|]; cbn [TemporaryAttacher_dtor]; intros Hdtor.
  - by apply attach_Ok_inv in Hdtor as (_ & ? & _).
  - by apply detach_Ok_inv in Hdtor as (? & _).
Qed.

(** A body run under a [TemporaryAttacher], if it leaves [defaultShader] as
    it was, leaves current the shader that was current before, or the
    default shader when none was; also when it throws. *)
Lemma with_TemporaryAttacher_restores {A} shader (body : M A) w w' :
  preserves same_defaultShader body ->
  after (with_TemporaryAttacher shader body w) = Some w' ->
  currentShader w' = restored w /\ defaultShader w' = defaultShader w.
Proof.
  intros Hbody Hafter.
  destruct (with_TemporaryAttacher_inv shader body w _ eq_refl)
    as [Hundef|(w1 & w2 & w3 & _ & Hdata1 & Hdtor & Hdata2 & Hcases)].
  { by rewrite Hundef in Hafter. }
  assert (Hw' : w' = w3 /\ after (body w1) = Some w2).
  { destruct Hcases as [(a & Hb & Hr)|(e & Hb & Hr)];
      rewrite Hr in Hafter; injection Hafter as <-; by rewrite Hb. }
  destruct Hw' as [-> Hbody12].
  assert (Hd1 : defaultShader w1 = defaultShader w)
    by by apply same_data_defaultShader.
  assert (Hd2 : defaultShader w2 = defaultShader w1) by by apply Hbody.
  assert (Hd3 : defaultShader w3 = defaultShader w2)
    by by apply same_data_defaultShader.
  split; [|congruence].
  rewrite (TemporaryAttacher_dtor_Ok_inv _ _ _ Hdtor). unfold restored.
  destruct (currentShader w); congruence.
Qed.

Lemma getUniformLocation_same_defaultShader this name unsafe drv :
  preserves same_defaultShader (getUniformLocation this name unsafe drv).
Proof. unfold getUniformLocation. preserves_steps. all: by intros. Qed.

Lemma getTextureUnit_same_defaultShader this name :
  preserves same_defaultShader (getTextureUnit this name).
Proof. unfold getTextureUnit. preserves_steps. all: by intros. Qed.

(** X10.  [sendFloat], [sendMatrix] and [sendTexture], whether they return
    or throw, leave [defaultShader] as it was and leave current the shader
    that was current when they were called; when none was current, they
    leave the default shader current, if there is one. *)
Theorem sends_restore_the_current_shader this name w w' :
  (forall size vec count drv,
     after (sendFloat this name size vec count drv w) = Some w' ->
     currentShader w' = restored w /\ defaultShader w' = defaultShader w) /\
  (forall size m count drv,
     after (sendMatrix this name size m count drv w) = Some w' ->
     currentShader w' = restored w /\ defaultShader w' = defaultShader w) /\
  (forall texture drv,
     after (sendTexture this name texture drv w) = Some w' ->
     currentShader w' = restored w /\ defaultShader w' = defaultShader w).
Proof.
  split_and!; intros *; apply with_TemporaryAttacher_restores;
    unfold checkSetUniformError; preserves_steps;
    first [ apply getUniformLocation_same_defaultShader
          | apply getTextureUnit_same_defaultShader
          | by intros ].
Qed.

(** *** Destruction and the current shader *)

(** What [delete this] leaves: the other objects, [defaultShader], and as
    current shader the default shader when the object was current. *)
Lemma Shader_delete_after this w w' :
  after (Shader_delete this w) = Some w' ->
  objects w' = delete this (objects w) /\
  defaultShader w' = defaultShader w /\
  currentShader w'
  = (if bool_decide (currentShader w = Some this)
     then defaultShader w else currentShader w) /\
  (currentShader w = Some this ->
   forall p, defaultShader w = Some p -> is_Some (objects w !! p)).
Proof.
  unfold Shader_delete.
  intros [(s & w0 & Hderef & Hafter)|(e & Hderef)]%bind_after_inv.
  2: { unfold deref in Hderef. by destruct (objects w !! this). }
  unfold deref in Hderef. destruct (objects w !! this) as [s'|] eqn:Hs; [|done].
  injection Hderef as <- <-.
  rewrite (bind_Ok _ _ w (currentShader w) w) in Hafter by done.
  apply bind_after_inv in Hafter as [([] & w1 & Hdetach & Hafter)|(e & Hdetach)].
  2: { unfold when in Hdetach. destruct (bool_decide _); [|done].
       by destruct (detach_not_Throw _ _ _ Hdetach). }
  assert (Hw1 : same_data w w1 /\
                currentShader w1
                = (if bool_decide (currentShader w = Some this)
                   then defaultShader w else currentShader w) /\
                (currentShader w = Some this ->
                 forall p, defaultShader w = Some p -> is_Some (objects w !! p))).
  { unfold when in Hdetach. case_bool_decide as Hcur.
    - apply detach_Ok_inv in Hdetach as (? & ? & ?). done.
    - injection Hdetach as <-. done. }
  destruct Hw1 as ((Ho1 & Hd1 & _) & Hcur1 & Hdflt).
  apply bind_after_inv in Hafter as [([] & w2 & Hunload & Hafter)|(e & Hunload)].
  - injection Hafter as <-.
    rewrite (unloadVolatile_cases this w1 s') in Hunload by by rewrite Ho1.
    destruct (release_from _ _ _) as [counters|]; [|done].
    injection Hunload as <-. cbn.
    rewrite delete_insert_eq, Ho1, Hd1, Hcur1. done.
  - rewrite (unloadVolatile_cases this w1 s') in Hunload by by rewrite Ho1.
    by destruct (release_from _ _ _).
Qed.

(** X11.  [delete this], when its behaviour is defined, leaves the other
    objects and [defaultShader] as they were.  When the object is not the
    default shader, [currentShader] does not point to it afterwards, and
    [currentShader] and [defaultShader], if they were null or pointed to
    objects, still are or do.  When the object is both the default shader
    and the current shader, [currentShader] still points to it afterwards,
    although no object is there any more. *)
Theorem delete_and_the_current_shader this w w' :
  after (Shader_delete this w) = Some w' ->
  objects w' = delete this (objects w) /\
  defaultShader w' = defaultShader w /\
  (defaultShader w <> Some this ->
   currentShader w' <> Some this /\
   (pointers_valid w -> pointers_valid w')) /\
  (defaultShader w = Some this -> currentShader w = Some this ->
   currentShader w' = Some this /\ objects w' !! this = None).
Proof.
  intros (Ho & Hd & Hc & Hlive)%Shader_delete_after. split_and!; [done|done| |].
  - intros Hne.
    assert (Hcur : currentShader w' <> Some this).
    { rewrite Hc. case_bool_decide; congruence. }
    split; [done|]. intros [Hvc Hvd]. split; intros p Hp.
    + assert (p <> this) by congruence.
      rewrite Ho, lookup_delete_ne by done.
      rewrite Hc in Hp. case_bool_decide; [by apply Hvd|by apply Hvc].
    + rewrite Hd in Hp. assert (p <> this) by congruence.
      rewrite Ho, lookup_delete_ne by done. by apply Hvd.
  - intros Hdflt Hcur. split.
    + rewrite Hc, bool_decide_eq_true_2 by done. done.
    + rewrite Ho. apply lookup_delete_eq.
Qed.

(** *** The cache of uniform locations *)

(** [getUniformLocation] in closed form. *)
Lemma getUniformLocation_eq this name unsafe drv w s :
  objects w !! this = Some s ->
  getUniformLocation this name unsafe drv w
  = (if match uniforms s !! name with
        | Some cached => negb (cached =? -1) || unsafe
        | None => false
        end
     then Ok (default 0 (uniforms s !! name)) w
     else if (answer_glGetUniformLocation drv (program s) name =? -1)
             && negb unsafe
     then Throw {| what_format := "Cannot get location of shader variable `%s'.
A common error is to define but not use the variable.";
                   what_args := [ArgStr name] |} w
     else Ok (answer_glGetUniformLocation drv (program s) name)
            (with_uniforms this s
               (<[name := answer_glGetUniformLocation drv (program s) name]>
                  (uniforms s)) w)).
Proof.
  intros Hs. unfold getUniformLocation.
  rewrite (bind_Ok _ _ _ _ _ (deref_Ok _ _ _ Hs)).
  assert (Hquery :
    (if (answer_glGetUniformLocation drv (program s) name =? -1) && negb unsafe
     then throw "Cannot get location of shader variable `%s'.
A common error is to define but not use the variable." [ArgStr name]
     else
       assign this (fun s0 =>
         set_uniforms
           (<[name := answer_glGetUniformLocation drv (program s) name]>
              (uniforms s0)) s0);;
       mret (answer_glGetUniformLocation drv (program s) name)) w
    = (if (answer_glGetUniformLocation drv (program s) name =? -1)
          && negb unsafe
       then Throw {| what_format := "Cannot get location of shader variable `%s'.
A common error is to define but not use the variable.";
                     what_args := [ArgStr name] |} w
       else Ok (answer_glGetUniformLocation drv (program s) name)
              (with_uniforms this s
                 (<[name := answer_glGetUniformLocation drv (program s) name]>
                    (uniforms s)) w))).
  { destruct (_ && _); [done|].
    by rewrite (bind_Ok _ _ _ _ _ (assign_Ok _ _ _ _ Hs)). }
  cbv zeta. destruct (uniforms s !! name) as [cached|]; cbn [default].
  - destruct (negb (cached =? -1) || unsafe); [done|exact Hquery].
  - exact Hquery.
Qed.

(** X12.  When [getUniformLocation], called without [unsafe], returns a
    location, the location is not -1, and every later lookup of the name in
    the state it leaves, with or without [unsafe], returns the same location
    and changes nothing, whatever the driver would answer then. *)
Theorem uniform_location_is_cached this name drv w location w1 :
  getUniformLocation this name false drv w = Ok location w1 ->
  location <> -1 /\
  forall unsafe drv',
    getUniformLocation this name unsafe drv' w1 = Ok location w1.
Proof.
  destruct (objects w !! this) as [s|] eqn:Hs.
  2: { unfold getUniformLocation, deref. run_monad. by rewrite Hs. }
  rewrite (getUniformLocation_eq _ _ _ _ _ _ Hs).
  destruct (uniforms s !! name) as [cached|] eqn:Hcached;
    cbn [default negb]; rewrite ?orb_false_r, ?andb_true_r.
  - destruct (Z.eqb_spec cached (-1)) as [->|Hne]; cbn [negb].
    + destruct (Z.eqb_spec (answer_glGetUniformLocation drv (program s) name) (-1))
        as [|Ha]; [done|].
      intros [= <- <-]. split; [done|]. intros unsafe drv'.
      erewrite getUniformLocation_eq by apply lookup_insert_eq.
      cbn. rewrite lookup_insert_eq. cbn.
      by destruct (Z.eqb_spec (answer_glGetUniformLocation drv (program s) name) (-1)).
    + intros [= <- <-]. split; [done|]. intros unsafe drv'.
      rewrite (getUniformLocation_eq _ _ _ _ _ _ Hs), Hcached. cbn.
      by destruct (Z.eqb_spec cached (-1)).
  - destruct (Z.eqb_spec (answer_glGetUniformLocation drv (program s) name) (-1))
      as [|Ha]; [done|].
    intros [= <- <-]. split; [done|]. intros unsafe drv'.
    erewrite getUniformLocation_eq by apply lookup_insert_eq.
    cbn. rewrite lookup_insert_eq. cbn.
    by destruct (Z.eqb_spec (answer_glGetUniformLocation drv (program s) name) (-1)).
Qed.

(** X13.  [hasUniform] on an object never throws.  It answers whether the
    location cached for the name, or, when none is cached, the location the
    driver reports, is 0 or more; and every later call for the name in the
    state it leaves gives the same answer and changes nothing, whatever the
    driver would answer then. *)
Theorem hasUniform_answer_is_kept this name drv w s :
  objects w !! this = Some s ->
  exists w',
    hasUniform this name drv w
    = Ok (0 <=? default (answer_glGetUniformLocation drv (program s) name)
                  (uniforms s !! name)) w' /\
    forall drv',
      hasUniform this name drv' w'
      = Ok (0 <=? default (answer_glGetUniformLocation drv (program s) name)
                    (uniforms s !! name)) w'.
Proof.
  intros Hs. unfold hasUniform.
  destruct (uniforms s !! name) as [cached|] eqn:Hcached; cbn [default].
  - exists w.
    assert (Heq : forall drv',
      getUniformLocation this name true drv' w = Ok cached w).
    { intros drv'. rewrite (getUniformLocation_eq _ _ _ _ _ _ Hs), Hcached.
      cbn. by rewrite orb_true_r. }
    split; [|intros drv']; by rewrite (bind_Ok _ _ _ _ _ (Heq _)).
  - eexists. split.
    + erewrite bind_Ok; [reflexivity|].
      rewrite (getUniformLocation_eq _ _ _ _ _ _ Hs), Hcached.
      by rewrite andb_false_r.
    + intros drv'. erewrite bind_Ok; [reflexivity|].
      erewrite getUniformLocation_eq by apply lookup_insert_eq.
      cbn. rewrite lookup_insert_eq. cbn. by rewrite orb_true_r.
Qed.

(** *** Sending to a name that has no location *)

Lemma keeps_alive_refl w : keeps_alive w w.
Proof. by split. Qed.

Lemma getUniformLocation_unknown this name drv w s :
  objects w !! this = Some s -> ~ resolves s name drv ->
  getUniformLocation this name false drv w
  = Throw {| what_format := "Cannot get location of shader variable `%s'.
A common error is to define but not use the variable.";
             what_args := [ArgStr name] |} w.
Proof.
  intros Hs Hnot. rewrite (getUniformLocation_eq _ _ _ _ _ _ Hs).
  assert (Ha : answer_glGetUniformLocation drv (program s) name = -1).
  { destruct (decide (answer_glGetUniformLocation drv (program s) name = -1));
      [done|]. destruct Hnot. by right. }
  rewrite Ha. cbn.
  destruct (uniforms s !! name) as [cached|] eqn:Hcached; [|done].
  destruct (Z.eqb_spec cached (-1)); [done|].
  destruct Hnot. left. by exists cached.
Qed.

(** A body that starts with the lookup of a name that has no location,
    under a [TemporaryAttacher]. *)
Lemma send_unknown {A} this name drv (k : Z -> M A) w s :
  pointers_valid w -> objects w !! this = Some s -> ~ resolves s name drv ->
  exists w',
    with_TemporaryAttacher this (getUniformLocation this name false drv ≫= k) w
    = Throw {| what_format := "Cannot get location of shader variable `%s'.
A common error is to define but not use the variable.";
               what_args := [ArgStr name] |} w' /\
    same_data w w'.
Proof.
  intros Hvalid Hs Hnot.
  destruct (with_TemporaryAttacher_returns this
              (getUniformLocation this name false drv ≫= k) w Hvalid)
    as (w1 & _ & Hdata1 & _ & Hbody); [by rewrite Hs|].
  assert (Hs1 : objects w1 !! this = Some s) by by destruct Hdata1 as [-> _].
  pose proof (bind_Throw _ k _ _ _ (getUniformLocation_unknown _ _ _ _ _ Hs1 Hnot))
    as Hthrow.
  destruct (Hbody _ w1 Hthrow eq_refl (keeps_alive_refl w1))
    as (w' & Hdata2 & _ & _ & Heq).
  exists w'. split; [done|]. by transitivity w1.
Qed.

(** X14.  For a shader of a process whose [currentShader] and
    [defaultShader] point to objects or are null, and a name for which no
    location other than -1 is cached and the driver reports -1:
    [sendFloat], [sendMatrix] and [sendTexture] throw "Cannot get location
    of shader variable", whatever the size and the values, also for a size
    that is itself invalid; and they leave every object, with its cache and its
    unit assignments, and every counter as they were. *)
Theorem send_to_a_name_without_location this name drv w s :
  pointers_valid w -> objects w !! this = Some s -> ~ resolves s name drv ->
  (forall size vec count, exists w',
     sendFloat this name size vec count drv w
     = Throw {| what_format := "Cannot get location of shader variable `%s'.
A common error is to define but not use the variable.";
                what_args := [ArgStr name] |} w' /\
     objects w' = objects w /\ textureCounters w' = textureCounters w) /\
  (forall size m count, exists w',
     sendMatrix this name size m count drv w
     = Throw {| what_format := "Cannot get location of shader variable `%s'.
A common error is to define but not use the variable.";
                what_args := [ArgStr name] |} w' /\
     objects w' = objects w /\ textureCounters w' = textureCounters w) /\
  (forall texture, exists w',
     sendTexture this name texture drv w
     = Throw {| what_format := "Cannot get location of shader variable `%s'.
A common error is to define but not use the variable.";
                what_args := [ArgStr name] |} w' /\
     objects w' = objects w /\ textureCounters w' = textureCounters w).
Proof.
  intros Hvalid Hs Hnot. split_and!; intros *.
  - unfold sendFloat.
    match goal with
    | |- context [with_TemporaryAttacher this (_ ≫= ?k)] =>
        destruct (send_unknown this name drv k w s Hvalid Hs Hnot)
          as (w' & Heq & Ho & _ & _ & Hc & _)
    end.
    exists w'. by rewrite Heq.
  - unfold sendMatrix.
    match goal with
    | |- context [with_TemporaryAttacher this (_ ≫= ?k)] =>
        destruct (send_unknown this name drv k w s Hvalid Hs Hnot)
          as (w' & Heq & Ho & _ & _ & Hc & _)
    end.
    exists w'. by rewrite Heq.
  - unfold sendTexture.
    match goal with
    | |- context [with_TemporaryAttacher this (_ ≫= ?k)] =>
        destruct (send_unknown this name drv k w s Hvalid Hs Hnot)
          as (w' & Heq & Ho & _ & _ & Hc & _)
    end.
    exists w'. by rewrite Heq.
Qed.

(** *** Sending a texture, in general *)

Lemma int_Some z : INT_MIN <= z <= INT_MAX -> int z = Some z.
Proof.
  intros [Hmin Hmax]. unfold int.
  destruct (Z.leb_spec INT_MIN z); [|lia].
  destruct (Z.leb_spec z INT_MAX); [done|lia].
Qed.

(** In a consistent state, [sendTexture] returns for a name that resolves,
    unless no unit is left for the name or a counter would overflow. *)
Lemma sendTexture_returns n w this s name texture drv :
  consistent n w -> pointers_valid w ->
  objects w !! this = Some s -> resolves s name drv ->
  (forall textureunit counter,
     chosen (textureUnitPool s) (textureCounters w) (activeTextureUnits s)
       name textureunit ->
     activeTextureUnits s !! Z.to_nat (textureunit - 1) = Some 0%N ->
     textureCounters w !! Z.to_nat (textureunit - 1) = Some counter ->
     counter < INT_MAX) ->
  is_Some (textureUnitPool s !! name) \/ 0 ∈ textureCounters w \/
    0%N ∈ activeTextureUnits s ->
  exists w', sendTexture this name texture drv w = Ok tt w' /\
             pointers_valid w'.
Proof.
  intros Hw Hvalid Hs Hres Hroom Havail. unfold sendTexture.
  match goal with
  | |- context [with_TemporaryAttacher this ?body] =>
      destruct (with_TemporaryAttacher_returns this body w Hvalid)
        as (w1 & _ & Hw1 & _ & Hbody); [done|]
  end.
  destruct Hw1 as (Ho1 & _ & _ & Hc1 & _).
  assert (Hs1 : objects w1 !! this = Some s) by by rewrite Ho1.
  destruct (getUniformLocation_cases this name false drv w1 s Hs1)
    as [(location & cache & Hloc & _)|(e & _ & _ & Hnot)]; [|done].
  rewrite (bind_Ok _ _ _ _ _ Hloc) in Hbody.
  set (su := set_uniforms cache s) in *.
  assert (Hsu : objects (with_uniforms this s cache w1) !! this = Some su)
    by apply lookup_insert_eq.
  destruct (getTextureUnit_cases this name _ su Hsu)
    as [(textureunit & Hunit & Hchosen)|(_ & Hnone & Hnot & Hfull)].
  2: { cbn in Hnone, Hnot, Hfull. rewrite Hc1 in Hnot.
       destruct Havail as [[u Hu]|[?|?]]; [congruence|done|done]. }
  rewrite (bind_Ok _ _ _ _ _ Hunit) in Hbody.
  cbn in Hchosen. rewrite Hc1 in Hchosen.
  pose proof (chosen_in_range n w this s name textureunit Hw Hs Hchosen)
    as Hrange.
  destruct (lookup_lt_is_Some_2 (activeTextureUnits s) (Z.to_nat (textureunit - 1)))
    as [bound Hbound].
  { rewrite (consistent_records _ _ Hw this _ (records_lookup _ _ _ Hs)). lia. }
  destruct (lookup_lt_is_Some_2 (textureCounters w) (Z.to_nat (textureunit - 1)))
    as [counter Hcounter].
  { rewrite (consistent_counters _ _ Hw). lia. }
  assert (Hint : bound = 0%N -> int (counter + 1) = Some (counter + 1)).
  { intros ->. apply int_Some. pose proof (consistent_int _ _ Hw) as Hall.
    rewrite Forall_lookup in Hall.
    pose proof (Hall _ _ Hcounter).
    pose proof (Hroom _ _ Hchosen Hbound Hcounter).
    unfold INT_MIN, INT_MAX in *. lia. }
  assert (Heval : exists w2,
    (emit (bindTextureToUnit texture textureunit false);;
     emit (glUniform1i location textureunit);;
     emit (setActiveTextureUnit 0);;
     checkSetUniformError;;
     s0 ← deref this;
     bound0 ← defined (vector_at (activeTextureUnits s0) (textureunit - 1));
     when (bool_decide (bound0 = 0%N))
       (counters ← gets textureCounters;
        counter0 ← defined (vector_at counters (textureunit - 1));
        counter1 ← defined (int (counter0 + 1));
        modify (set_textureCounters
                  (<[Z.to_nat (textureunit - 1) := counter1]> counters)));;
     assign this (fun s0 =>
       set_activeTextureUnits
         (<[Z.to_nat (textureunit - 1) := texture]> (activeTextureUnits s0)) s0))
      (with_unit this su name textureunit (with_uniforms this s cache w1))
    = Ok tt w2 /\
    keeps_alive w1 w2).
  { unfold with_unit, with_uniforms, checkSetUniformError. run_monad. cbn.
    rewrite lookup_insert_eq. cbn. unfold vector_at.
    destruct (Z.ltb_spec (textureunit - 1) 0) as [|_]; [lia|].
    rewrite Hbound. cbn.
    assert (Halive : forall x (w2 : World),
      objects w2 = <[this := x]> (objects w1) ->
      defaultShader w2 = defaultShader w1 -> keeps_alive w1 w2).
    { intros x w2 Ho2 Hd2. split; [|done]. intros p Hp. rewrite Ho2.
      destruct (decide (p = this)) as [->|Hne].
      - by rewrite lookup_insert_eq.
      - by rewrite lookup_insert_ne. }
    destruct (decide (bound = 0%N)) as [->|Hne].
    - rewrite bool_decide_eq_true_2 by done. cbn. rewrite Hc1, Hcounter. cbn.
      rewrite Hint by done. cbn. rewrite lookup_insert_eq. cbn.
      eexists. split; [reflexivity|].
      eapply Halive; cbn; [|done]. by rewrite !insert_insert_eq.
    - rewrite bool_decide_eq_false_2 by done. cbn.
      rewrite lookup_insert_eq. cbn.
      eexists. split; [reflexivity|].
      eapply Halive; cbn; [|done]. by rewrite !insert_insert_eq. }
  destruct Heval as (w2 & Heval & Halive).
  destruct (Hbody _ w2 Heval eq_refl Halive) as (w' & _ & _ & Hvalid' & Heq).
  exists w'. by split.
Qed.

(** X15.  In every state of the process whose [currentShader] and
    [defaultShader] point to objects or are null: sending a texture to a
    name that resolves and whose unit the shader already holds a texture
    for returns, records the new handle, whatever it is, in place of the old
    one, and changes no counter and no assignment. *)
Theorem sending_to_a_held_unit_keeps_the_counters n w this s name textureunit
    texture drv :
  reachable n w -> pointers_valid w -> objects w !! this = Some s ->
  resolves s name drv ->
  textureUnitPool s !! name = Some textureunit ->
  holds (Z.to_nat (textureunit - 1)) (activeTextureUnits s) ->
  exists w',
    sendTexture this name texture drv w = Ok tt w' /\
    textureCounters w' = textureCounters w /\
    records w'
    = <[this := <[Z.to_nat (textureunit - 1) := texture]> (activeTextureUnits s)]>
        (records w) /\
    pools w' = pools w.
Proof.
  intros Hreach Hvalid Hs Hres Hname (held & Hheld & Hne).
  pose proof (reachable_consistent n w Hreach) as Hw.
  destruct (sendTexture_returns n w this s name texture drv Hw Hvalid Hs Hres)
    as (w' & Hsend & _).
  { intros u counter Hchosen Hzero _. unfold chosen in Hchosen.
    rewrite Hname in Hchosen. subst u. congruence. }
  { left. by rewrite Hname. }
  exists w'. split; [done|].
  destruct (sendTexture_Ok this name texture drv w w' s Hs Hsend)
    as (u & bound & Hchosen & _ & Hbound & Hrecords & Hpools & _ & _ & _ & _
        & Hkeep & _).
  unfold chosen in Hchosen. rewrite Hname in Hchosen. subst u.
  assert (bound = held) as -> by congruence.
  split_and!; [by apply Hkeep|done|].
  rewrite Hpools, (insert_id (textureUnitPool s)) by done.
  apply insert_id. by apply pools_lookup.
Qed.

(** X16.  In every state of the process whose [currentShader] and
    [defaultShader] point to objects or are null, take a shader that holds
    no texture, a name it has no unit for and that resolves, and a counter
    that is zero.  Sending a texture returns and sets the counter of the
    lowest free unit to 1.  Unloading the shader next returns; it puts the
    counters back as they were before the texture was sent when the handle
    was not 0, and leaves the counter at 1 when the handle was 0. *)
Theorem send_then_unload n w this s name texture drv :
  reachable n w -> pointers_valid w -> objects w !! this = Some s ->
  resolves s name drv ->
  textureUnitPool s !! name = None -> 0 ∈ textureCounters w ->
  (forall j, ~ holds j (activeTextureUnits s)) ->
  exists w1 w2 i,
    sendTexture this name texture drv w = Ok tt w1 /\
    unloadVolatile this w1 = Ok tt w2 /\
    lowest 0 (textureCounters w) i /\
    textureCounters w1 = <[i := 1]> (textureCounters w) /\
    (texture <> 0%N -> textureCounters w2 = textureCounters w) /\
    (texture = 0%N -> textureCounters w2 = <[i := 1]> (textureCounters w)).
Proof.
  intros Hreach Hvalid Hs Hres Hname Hfree Hnone.
  pose proof (reachable_consistent n w Hreach) as Hw.
  destruct (sendTexture_returns_free n w this s name texture drv
              Hw Hvalid Hs Hres Hname Hfree) as (w1 & Hsend & _).
  destruct (sendTexture_free n w this s name texture drv w1
              Hw Hs Hname Hfree Hsend) as (i & Hlow & Hassigned & Hc1).
  destruct (sendTexture_Ok this name texture drv w w1 s Hs Hsend)
    as (u & bound & Hchosen & _ & _ & Hrecords & _).
  assert (u = Z.of_nat i + 1) as ->.
  { unfold chosen in Hchosen. rewrite Hname in Hchosen.
    destruct Hchosen as (i' & -> & [Hi'|[Hnot _]]); [|done].
    by rewrite (lowest_unique _ _ _ _ Hi' Hlow). }
  replace (Z.to_nat (Z.of_nat i + 1 - 1)) with i in Hrecords by lia.
  assert (Hw1 : consistent n w1).
  { apply (sendTexture_consistent n this name texture drv w); [done|].
    by rewrite Hsend. }
  assert (Hlive1 : exists s1, objects w1 !! this = Some s1 /\
            activeTextureUnits s1 = <[i := texture]> (activeTextureUnits s)).
  { assert (Hr : records w1 !! this
                 = Some (<[i := texture]> (activeTextureUnits s)))
      by (rewrite Hrecords; apply lookup_insert_eq).
    unfold records in Hr. rewrite lookup_fmap in Hr.
    destruct (objects w1 !! this) as [s1|]; [|done].
    injection Hr as Hr. by exists s1. }
  destruct Hlive1 as (s1 & Hs1 & Hactive1).
  destruct (unloadVolatile_returns n this w1 s1 Hw1 Hs1)
    as (counters & _ & Hunload & Hlen & _ & Hcounters).
  exists w1, (unloaded this s1 counters w1), i.
  assert (Hi : (i < length (textureCounters w))%nat)
    by (destruct Hlow as [Hi _]; by apply lookup_lt_Some in Hi).
  assert (Hi' : (i < length (activeTextureUnits s))%nat).
  { rewrite (consistent_records _ _ Hw this _ (records_lookup _ _ _ Hs)).
    by rewrite <- (consistent_counters _ _ Hw). }
  assert (Hall : counters
                 = <[i := if decide (texture = 0%N) then 1 else 0]>
                     (textureCounters w)).
  { apply list_eq. intros j.
    destruct (textureCounters w1 !! j) as [c|] eqn:Hj.
    - rewrite (Hcounters j c Hj), Hactive1. rewrite Hc1 in Hj.
      destruct (decide (j = i)) as [->|Hji].
      + rewrite list_lookup_insert_eq in Hj by done. injection Hj as <-.
        rewrite list_lookup_insert_eq by done.
        destruct (decide (texture = 0%N)) as [->|Hne];
          destruct (decide (holds i (<[i := _]> (activeTextureUnits s))))
            as [Hh|Hh]; try done.
        * apply holds_insert in Hh as [[_ ?]|[? _]]; done.
        * destruct Hh. apply holds_insert; [done|]. by left.
      + rewrite list_lookup_insert_ne in Hj by done.
        rewrite list_lookup_insert_ne by done.
        destruct (decide (holds j (<[i := texture]> (activeTextureUnits s))))
          as [Hh|Hh]; [|done].
        apply holds_insert in Hh as [[? _]|[_ Hh]]; [done| |done].
        by destruct (Hnone j).
    - apply lookup_ge_None_1 in Hj.
      rewrite Hc1, length_insert in Hj.
      rewrite !lookup_ge_None_2; [done| |].
      + by rewrite length_insert.
      + by rewrite Hlen, Hc1, length_insert. }
  split_and!; [done|done|done|done| |]; intros Htexture; cbn; rewrite Hall.
  - destruct (decide (texture = 0%N)); [done|].
    apply list_insert_id. by destruct Hlow.
  - by destruct (decide (texture = 0%N)).
Qed.

(** X17.  In every state of the process, when a shader sends a texture to a
    name it has no unit for and the call returns, the unit assigned to the
    name is one the shader itself held no texture for. *)
Theorem a_new_name_gets_a_unit_the_shader_does_not_hold n w this s name
    texture drv w' :
  reachable n w -> objects w !! this = Some s ->
  textureUnitPool s !! name = None ->
  sendTexture this name texture drv w = Ok tt w' ->
  exists textureunit,
    assigned this name textureunit w' /\
    1 <= textureunit <= Z.of_nat (maxTextureUnits w) /\
    ~ holds (Z.to_nat (textureunit - 1)) (activeTextureUnits s).
Proof.
  intros Hreach Hs Hname Hsend.
  pose proof (reachable_consistent n w Hreach) as Hw.
  destruct (sendTexture_Ok this name texture drv w w' s Hs Hsend)
    as (u & bound & Hchosen & _ & _ & _ & Hpools & _).
  pose proof (chosen_in_range n w this s name u Hw Hs Hchosen) as Hrange.
  exists u. split; [|split; [exact Hrange|]].
  - exists (<[name := u]> (textureUnitPool s)).
    rewrite Hpools. split; apply lookup_insert_eq.
  - clear Hrange. unfold chosen in Hchosen. rewrite Hname in Hchosen.
    destruct Hchosen as (i & -> & [[Hi _]|[_ [Hi _]]]);
      replace (Z.to_nat (Z.of_nat i + 1 - 1)) with i by lia.
    + by apply (free_unit_has_no_holder n w i this s).
    + intros (t & Ht & Hne). congruence.
Qed.

(** *** When no unit is free *)

(** A shader that holds a texture for every unit, while no counter is zero,
    is refused a unit for a new name. *)
Lemma sendTexture_exhausted this name texture drv w s :
  pointers_valid w -> objects w !! this = Some s -> resolves s name drv ->
  textureUnitPool s !! name = None ->
  0 ∉ textureCounters w -> 0%N ∉ activeTextureUnits s ->
  exists w',
    sendTexture this name texture drv w
    = Throw {| what_format := "No more texture units available for shader.";
               what_args := [] |} w' /\
    same_core w w'.
Proof.
  intros Hvalid Hs Hres Hname Hcounters Hactive.
  assert (Hthrow : exists w',
    sendTexture this name texture drv w
    = Throw {| what_format := "No more texture units available for shader.";
               what_args := [] |} w').
  { unfold sendTexture.
    match goal with
    | |- context [with_TemporaryAttacher this ?body] =>
        destruct (with_TemporaryAttacher_returns this body w Hvalid)
          as (w1 & _ & Hw1 & _ & Hbody); [done|]
    end.
    destruct Hw1 as (Ho1 & _ & _ & Hc1 & _).
    assert (Hs1 : objects w1 !! this = Some s) by by rewrite Ho1.
    destruct (getUniformLocation_resolves this name drv w1 s Hs1 Hres)
      as (location & cache & Hloc).
    rewrite (bind_Ok _ _ _ _ _ Hloc) in Hbody.
    set (su := set_uniforms cache s) in *.
    assert (Hsu : objects (with_uniforms this s cache w1) !! this = Some su)
      by apply lookup_insert_eq.
    destruct (getTextureUnit_cases this name _ su Hsu)
      as [(textureunit & _ & Hchosen)|(Hunit & _)].
    { unfold chosen in Hchosen. cbn in Hchosen. rewrite Hname, Hc1 in Hchosen.
      destruct Hchosen as (i & _ & [[Hi _]|[_ [Hi _]]]).
      - destruct Hcounters. by eapply list_elem_of_lookup_2.
      - destruct Hactive. by eapply list_elem_of_lookup_2. }
    pose proof (bind_Throw _
      (fun textureunit : Z =>
         emit (bindTextureToUnit texture textureunit false);;
         emit (glUniform1i location textureunit);;
         emit (setActiveTextureUnit 0);;
         checkSetUniformError;;
         s0 ← deref this;
         bound ← defined (vector_at (activeTextureUnits s0) (textureunit - 1));
         when (bool_decide (bound = 0%N))
           (counters ← gets textureCounters;
            counter ← defined (vector_at counters (textureunit - 1));
            counter ← defined (int (counter + 1));
            modify (set_textureCounters
                      (<[Z.to_nat (textureunit - 1) := counter]> counters)));;
         assign this (fun s0 =>
           set_activeTextureUnits
             (<[Z.to_nat (textureunit - 1) := texture]> (activeTextureUnits s0))
             s0)) _ _ _ Hunit) as Hthrow.
    destruct (Hbody _ _ Hthrow eq_refl (with_uniforms_keeps_alive _ _ _ _ Hs1))
      as (w' & _ & _ & _ & Heq).
    by exists w'. }
  destruct Hthrow as (w' & Heq). exists w'. split; [done|].
  by eapply sendTexture_Throw_same_core.
Qed.

(** X18.  For a shader of a process whose [currentShader] and
    [defaultShader] point to objects or are null, a name that resolves and
    that the shader has no unit for: when no counter is zero and the shader
    holds a texture for every unit, [sendTexture] throws "No more texture
    units available for shader." and leaves every binding record, every
    assignment of units and every counter as they were. *)
Theorem no_unit_left this name texture drv w s :
  pointers_valid w -> objects w !! this = Some s -> resolves s name drv ->
  textureUnitPool s !! name = None ->
  0 ∉ textureCounters w -> 0%N ∉ activeTextureUnits s ->
  exists w',
    sendTexture this name texture drv w
    = Throw {| what_format := "No more texture units available for shader.";
               what_args := [] |} w' /\
    records w' = records w /\ pools w' = pools w /\
    textureCounters w' = textureCounters w.
Proof.
  intros Hvalid Hs Hres Hname Hcounters Hactive.
  destruct (sendTexture_exhausted this name texture drv w s
              Hvalid Hs Hres Hname Hcounters Hactive)
    as (w' & Heq & Hr & Hp & _ & Hc & _).
  by exists w'.
Qed.

(** X19.  When the context reports at most one texture unit, no shader of
    the process can send a texture: in every state whose [currentShader]
    and [defaultShader] point to objects or are null, [sendTexture] for a
    name that resolves throws "No more texture units available for
    shader.", and no shader has a unit assigned to any name. *)
Theorem no_texture_without_units n w this s name texture drv :
  n <= 1 -> reachable n w -> pointers_valid w ->
  objects w !! this = Some s -> resolves s name drv ->
  textureUnitPool s = ∅ /\
  exists w',
    sendTexture this name texture drv w
    = Throw {| what_format := "No more texture units available for shader.";
               what_args := [] |} w' /\
    textureCounters w' = [] /\ records w' = records w.
Proof.
  intros Hn Hreach Hvalid Hs Hres.
  pose proof (reachable_consistent n w Hreach) as Hw.
  assert (Hmax : maxTextureUnits w = O).
  { destruct (consistent_max _ _ Hw) as [->|[? _]]; [|done].
    unfold units_of. lia. }
  assert (Hcounters : textureCounters w = []).
  { apply length_zero_iff_nil. by rewrite (consistent_counters _ _ Hw). }
  assert (Hactive : activeTextureUnits s = []).
  { apply length_zero_iff_nil.
    by rewrite (consistent_records _ _ Hw this _ (records_lookup _ _ _ Hs)). }
  assert (Hpool : textureUnitPool s = ∅).
  { apply map_empty. intros name'.
    destruct (textureUnitPool s !! name') as [u|] eqn:Hu; [|done].
    pose proof (consistent_pools _ _ Hw this _ name' u
                  (pools_lookup _ _ _ Hs) Hu). lia. }
  split; [done|].
  destruct (sendTexture_exhausted this name texture drv w s Hvalid Hs Hres)
    as (w' & Heq & Hr & _ & _ & Hc & _).
  - by rewrite Hpool.
  - rewrite Hcounters. apply not_elem_of_nil.
  - rewrite Hactive. apply not_elem_of_nil.
  - exists w'. split_and!; [done| |done]. by rewrite Hc.
Qed.

(** X20.  In every state of the process whose [currentShader] and
    [defaultShader] point to objects or are null, when no counter is zero,
    a shader that sends a texture to a name it has no unit for, and that
    resolves, is given the lowest unit it holds no texture for itself,
    whoever else uses that unit: the counter of the unit, which was 1 or
    more, goes up by one (provided it is below [INT_MAX]). *)
Theorem units_are_shared_when_none_is_free n w this s name texture drv i counter :
  reachable n w -> pointers_valid w -> objects w !! this = Some s ->
  resolves s name drv -> textureUnitPool s !! name = None ->
  0 ∉ textureCounters w -> lowest 0%N (activeTextureUnits s) i ->
  textureCounters w !! i = Some counter -> counter < INT_MAX ->
  1 <= counter /\
  exists w',
    sendTexture this name texture drv w = Ok tt w' /\
    assigned this name (Z.of_nat i + 1) w' /\
    textureCounters w' = <[i := counter + 1]> (textureCounters w).
Proof.
  intros Hreach Hvalid Hs Hres Hname Hnot Hlow Hcounter Hroom.
  pose proof (reachable_consistent n w Hreach) as Hw.
  assert (Hselected : forall u,
    chosen (textureUnitPool s) (textureCounters w) (activeTextureUnits s) name u ->
    u = Z.of_nat i + 1).
  { intros u Hchosen. unfold chosen in Hchosen. rewrite Hname in Hchosen.
    destruct Hchosen as (i' & -> & [[Hi' _]|[_ Hi']]).
    - destruct Hnot. by eapply list_elem_of_lookup_2.
    - by rewrite (lowest_unique _ _ _ _ Hi' Hlow). }
  split.
  { pose proof (consistent_int _ _ Hw) as Hall. rewrite Forall_lookup in Hall.
    pose proof (Hall _ _ Hcounter).
    assert (counter <> 0); [|lia].
    intros ->. destruct Hnot. by eapply list_elem_of_lookup_2. }
  destruct (sendTexture_returns n w this s name texture drv Hw Hvalid Hs Hres)
    as (w' & Hsend & _).
  { intros u c Hchosen _ Hc. rewrite (Hselected u Hchosen) in Hc.
    replace (Z.to_nat (Z.of_nat i + 1 - 1)) with i in Hc by lia. congruence. }
  { right. right. destruct Hlow as [Hi _]. by eapply list_elem_of_lookup_2. }
  exists w'. split; [done|].
  destruct (sendTexture_Ok this name texture drv w w' s Hs Hsend)
    as (u & bound & Hchosen & _ & Hbound & _ & Hpools & _ & _ & _ & _ & _
        & Hincr & _).
  rewrite (Hselected u Hchosen) in *.
  replace (Z.to_nat (Z.of_nat i + 1 - 1)) with i in * by lia.
  split.
  - exists (<[name := Z.of_nat i + 1]> (textureUnitPool s)).
    rewrite Hpools. split; apply lookup_insert_eq.
  - destruct Hlow as [Hi _]. assert (bound = 0%N) as -> by congruence.
    destruct (Hincr eq_refl) as (c & Hc & _ & ->). congruence.
Qed.

(** *** Loading: what a failure leaves behind *)

(** X21.  [loadVolatile], whether it returns or throws, changes no counter
    and no assignment of units; it replaces the binding record of the
    object by one that holds no texture, also when the record held textures
    that the counters count. *)
Theorem loadVolatile_clears_the_record_only this drv w w' s :
  objects w !! this = Some s ->
  after (loadVolatile this drv w) = Some w' ->
  textureCounters w' = textureCounters w /\
  records w' = <[this := replicate (maxTextureUnits w) 0%N]> (records w) /\
  pools w' = pools w /\
  maxTextureUnits w' = maxTextureUnits w.
Proof.
  intros Hs Hafter.
  destruct (loadVolatile_after this drv w w' s Hs Hafter)
    as (Hr & Hp & _ & Hc & Hm & _).
  cbn in Hr, Hp, Hc, Hm. split_and!; [done| |rewrite Hp|done].
  - rewrite Hr. unfold records. cbn. by rewrite fmap_insert.
  - unfold pools. cbn. rewrite fmap_insert. cbn.
    apply insert_id. by rewrite lookup_fmap, Hs.
Qed.

Lemma loadVolatile_start this drv w s :
  objects w !! this = Some s ->
  loadVolatile this drv w
  = (shaderids ← compile_sources (entries (shaderSources s)) drv;
     if bool_decide (shaderids = [])
     then throw "Cannot create shader: no valid source code!" []
     else
       createProgram this shaderids drv;;
       cur ← gets currentShader;
       when (bool_decide (cur = Some this))
         (modify (set_currentShader None);; attach this false);;
       mret true)
      (set_objects
         (<[this := set_activeTextureUnits (replicate (maxTextureUnits w) 0%N) s]>
            (objects w)) w).
Proof.
  intros Hs. unfold loadVolatile.
  rewrite (bind_Ok _ _ w (maxTextureUnits w) w) by done.
  rewrite (bind_Ok _ _ _ _ _ (assign_Ok _ _ _ _ Hs)).
  erewrite bind_Ok; [|apply deref_Ok; apply lookup_insert_eq].
  reflexivity.
Qed.

(** X22.  For an object with a vertex and a pixel source and a driver that
    compiles the vertex source and rejects the pixel source:
    [loadVolatile] throws "Cannot compile pixel shader code" with the
    driver's log; the commands it has issued are the creation and
    compilation of the vertex shader, the creation and compilation of the
    pixel shader and the deletion of the pixel shader: the vertex shader
    object is not deleted.  The object keeps its program and has its
    binding record cleared; [currentShader] is as it was. *)
Theorem pixel_compile_failure this drv w s v p :
  objects w !! this = Some s ->
  shaderSources s !! TYPE_VERTEX = Some v ->
  shaderSources s !! TYPE_PIXEL = Some p ->
  shaderSources s !! TYPE_MAX_ENUM = None ->
  answer_glCreateShader drv GL_VERTEX_SHADER <> 0%N ->
  answer_glCreateShader drv GL_FRAGMENT_SHADER <> 0%N ->
  answer_COMPILE_STATUS drv (answer_glCreateShader drv GL_VERTEX_SHADER) = true ->
  answer_COMPILE_STATUS drv (answer_glCreateShader drv GL_FRAGMENT_SHADER) = false ->
  exists w',
    loadVolatile this drv w
    = Throw {| what_format := "Cannot compile %s shader code:
%s";
               what_args :=
                 [ArgStr "pixel";
                  ArgStr (answer_ShaderInfoLog drv
                            (answer_glCreateShader drv GL_FRAGMENT_SHADER))] |}
        w' /\
    issued w'
    = issued w
      ++ [glCreateShader GL_VERTEX_SHADER;
          glShaderSource (answer_glCreateShader drv GL_VERTEX_SHADER) v;
          glCompileShader (answer_glCreateShader drv GL_VERTEX_SHADER);
          glCreateShader GL_FRAGMENT_SHADER;
          glShaderSource (answer_glCreateShader drv GL_FRAGMENT_SHADER) p;
          glCompileShader (answer_glCreateShader drv GL_FRAGMENT_SHADER);
          glDeleteShader (answer_glCreateShader drv GL_FRAGMENT_SHADER)] /\
    objects w'
    = <[this := set_activeTextureUnits (replicate (maxTextureUnits w) 0%N) s]>
        (objects w) /\
    currentShader w' = currentShader w.
Proof.
  intros Hs Hv Hp Hm Hvid Hfid Hcv Hcf.
  apply N.eqb_neq in Hvid, Hfid.
  rewrite (loadVolatile_start _ _ _ _ Hs), (entries_both _ v p) by done.
  cbn [compile_sources]. unfold compileCode. run_monad. cbn.
  rewrite Hvid, Hcv. cbn. rewrite Hfid, Hcf. cbn.
  eexists. split; [reflexivity|]. cbn. rewrite <- !app_assoc. done.
Qed.

Lemma release_from_cleared i n counters :
  release_from i (replicate n 0%N) counters = Some counters.
Proof. revert i. induction n as [|n IH]; intros i; cbn; [done|apply IH]. Qed.

(** What [loadVolatile] leaves when the driver compiles both stages and
    fails to link them. *)
Lemma loadVolatile_link_failure this drv w s v p :
  objects w !! this = Some s ->
  shaderSources s !! TYPE_VERTEX = Some v ->
  shaderSources s !! TYPE_PIXEL = Some p ->
  shaderSources s !! TYPE_MAX_ENUM = None ->
  answer_glCreateShader drv GL_VERTEX_SHADER <> 0%N ->
  answer_glCreateShader drv GL_FRAGMENT_SHADER <> 0%N ->
  answer_COMPILE_STATUS drv (answer_glCreateShader drv GL_VERTEX_SHADER) = true ->
  answer_COMPILE_STATUS drv (answer_glCreateShader drv GL_FRAGMENT_SHADER) = true ->
  answer_glCreateProgram drv <> 0%N ->
  answer_LINK_STATUS drv (answer_glCreateProgram drv) = false ->
  exists w' cs,
    loadVolatile this drv w
    = Throw {| what_format := "Cannot link shader program object:
%s";
               what_args :=
                 [ArgStr (answer_ProgramInfoLog drv (answer_glCreateProgram drv))] |}
        w' /\
    objects w'
    = <[this := set_program (answer_glCreateProgram drv)
                  (set_activeTextureUnits (replicate (maxTextureUnits w) 0%N) s)]>
        (objects w) /\
    issued w' = issued w ++ cs ++ [glDeleteProgram (answer_glCreateProgram drv)] /\
    currentShader w' = currentShader w /\
    textureCounters w' = textureCounters w.
Proof.
  intros Hs Hv Hp Hm Hvid Hfid Hcv Hcf Hprogram Hlink.
  apply N.eqb_neq in Hvid, Hfid, Hprogram.
  rewrite (loadVolatile_start _ _ _ _ Hs), (entries_both _ v p) by done.
  cbn [compile_sources]. unfold compileCode. run_monad. cbn.
  rewrite Hvid, Hcv. cbn. rewrite Hfid, Hcf. cbn.
  unfold createProgram, bindVertexAttribs, getWarnings.
  run_monad. cbn. rewrite !lookup_insert_eq. cbn.
  rewrite Hprogram. cbn. rewrite !lookup_insert_eq. cbn.
  rewrite Hprogram, Hlink. cbn. rewrite !lookup_insert_eq. cbn.
  rewrite !insert_insert_eq.
  eexists _,
    ([glCreateShader GL_VERTEX_SHADER;
      glShaderSource (answer_glCreateShader drv GL_VERTEX_SHADER) v;
      glCompileShader (answer_glCreateShader drv GL_VERTEX_SHADER);
      glCreateShader GL_FRAGMENT_SHADER;
      glShaderSource (answer_glCreateShader drv GL_FRAGMENT_SHADER) p;
      glCompileShader (answer_glCreateShader drv GL_FRAGMENT_SHADER);
      glCreateProgram;
      glAttachShader (answer_glCreateProgram drv)
        (answer_glCreateShader drv GL_VERTEX_SHADER);
      glAttachShader (answer_glCreateProgram drv)
        (answer_glCreateShader drv GL_FRAGMENT_SHADER)]
     ++ flat_map (fun '(attrib, name) =>
          if (0 <=? answer_getVertexAttribID drv attrib)
             && answer_isGenericVertexAttrib drv attrib
          then [glBindAttribLocation (answer_glCreateProgram drv)
                  (answer_getVertexAttribID drv attrib) name]
          else []) (vertexAttribNames s)
     ++ [glLinkProgram (answer_glCreateProgram drv);
         glDeleteShader (answer_glCreateShader drv GL_VERTEX_SHADER);
         glDeleteShader (answer_glCreateShader drv GL_FRAGMENT_SHADER)]).
  split; [reflexivity|]. cbn. split_and!; [done| |done|done].
  rewrite <- !app_assoc. reflexivity.
Qed.

(** X23.  For an object with a vertex and a pixel source and a driver that
    compiles both, creates a program and fails to link it: [loadVolatile]
    throws "Cannot link shader program object" with the driver's log, and
    the last command it has issued deletes the program; yet the object has
    that program as its [program] member afterwards, so that
    [unloadVolatile], called next, returns having issued the deletion of
    the same program once more. *)
Theorem link_failure_keeps_the_deleted_program this drv w s v p :
  objects w !! this = Some s ->
  shaderSources s !! TYPE_VERTEX = Some v ->
  shaderSources s !! TYPE_PIXEL = Some p ->
  shaderSources s !! TYPE_MAX_ENUM = None ->
  answer_glCreateShader drv GL_VERTEX_SHADER <> 0%N ->
  answer_glCreateShader drv GL_FRAGMENT_SHADER <> 0%N ->
  answer_COMPILE_STATUS drv (answer_glCreateShader drv GL_VERTEX_SHADER) = true ->
  answer_COMPILE_STATUS drv (answer_glCreateShader drv GL_FRAGMENT_SHADER) = true ->
  answer_glCreateProgram drv <> 0%N ->
  answer_LINK_STATUS drv (answer_glCreateProgram drv) = false ->
  exists w' s' cs w'',
    loadVolatile this drv w
    = Throw {| what_format := "Cannot link shader program object:
%s";
               what_args :=
                 [ArgStr (answer_ProgramInfoLog drv (answer_glCreateProgram drv))] |}
        w' /\
    issued w' = issued w ++ cs ++ [glDeleteProgram (answer_glCreateProgram drv)] /\
    objects w' !! this = Some s' /\
    program s' = answer_glCreateProgram drv /\
    currentShader w' = currentShader w /\
    unloadVolatile this w' = Ok tt w'' /\
    issued w''
    = issued w'
      ++ (if bool_decide (currentShader w = Some this)
          then [glUseProgram 0] else [])
      ++ [glDeleteProgram (answer_glCreateProgram drv)].
Proof.
  intros Hs Hv Hp Hm Hvid Hfid Hcv Hcf Hprogram Hlink.
  destruct (loadVolatile_link_failure this drv w s v p)
    as (w' & cs & Hload & Hobjects & Hissued & Hcurrent & _); try done.
  set (s' := set_program (answer_glCreateProgram drv)
               (set_activeTextureUnits (replicate (maxTextureUnits w) 0%N) s))
    in *.
  assert (Hs' : objects w' !! this = Some s')
    by (rewrite Hobjects; apply lookup_insert_eq).
  exists w', s', cs,
    (unloaded this s' (textureCounters w') w').
  split_and!; [done|done|done|done|done| |].
  - rewrite (unloadVolatile_cases this w' s' Hs').
    subst s'. cbn [activeTextureUnits set_program set_activeTextureUnits].
    by rewrite release_from_cleared.
  - unfold unloaded. cbn [issued set_objects set_textureCounters set_issued].
    rewrite Hcurrent. subst s'. cbn [program set_program].
    by rewrite (bool_decide_eq_true_2 (answer_glCreateProgram drv <> 0%N)).
Qed.

(** *** Unloading twice *)

(** X24.  In every state of the process, unloading an object twice in a row
    returns both times; the second call changes no object and no counter,
    and issues nothing but [glUseProgram(0)], once more, when the object is
    the current shader. *)
Theorem unloading_twice n w this s :
  reachable n w -> objects w !! this = Some s ->
  exists w1 w2,
    unloadVolatile this w = Ok tt w1 /\
    unloadVolatile this w1 = Ok tt w2 /\
    objects w2 = objects w1 /\
    textureCounters w2 = textureCounters w1 /\
    currentShader w2 = currentShader w /\
    issued w2
    = issued w1
      ++ (if bool_decide (currentShader w = Some this)
          then [glUseProgram 0] else []).
Proof.
  intros Hreach Hs.
  pose proof (reachable_consistent n w Hreach) as Hw.
  destruct (unloadVolatile_returns n this w s Hw Hs)
    as (counters & _ & Hunload & _).
  set (w1 := unloaded this s counters w) in *.
  set (s1 := set_uniforms ∅
               (set_activeTextureUnits (replicate (maxTextureUnits w) 0%N)
                  (set_program 0%N s))).
  assert (Hs1 : objects w1 !! this = Some s1) by apply lookup_insert_eq.
  exists w1, (unloaded this s1 counters w1).
  split_and!; [done| | | | |].
  - rewrite (unloadVolatile_cases this w1 s1 Hs1).
    subst s1. cbn [activeTextureUnits set_uniforms set_activeTextureUnits].
    by rewrite release_from_cleared.
  - subst w1 s1. unfold unloaded. cbn. by rewrite insert_insert_eq.
  - done.
  - done.
  - subst w1 s1. unfold unloaded. cbn. by rewrite app_nil_r.
Qed.

(** *** Construction *)

Lemma compileCode_same_data type code drv :
  preserves same_data (compileCode type code drv).
Proof. unfold compileCode. preserves_steps; by intros. Qed.

Lemma compile_sources_same_data sources drv :
  preserves same_data (compile_sources sources drv).
Proof.
  induction sources as [|[type code] sources IH]; cbn [compile_sources];
    preserves_steps; first [apply compileCode_same_data | apply IH].
Qed.

(** When [createProgram] returns, the driver has created and linked a
    program, which is the [program] member of the object; nothing else of
    the objects has changed. *)
Lemma createProgram_Ok_inv this shaderids drv w w' s :
  objects w !! this = Some s ->
  createProgram this shaderids drv w = Ok tt w' ->
  answer_glCreateProgram drv <> 0%N /\
  answer_LINK_STATUS drv (answer_glCreateProgram drv) = true /\
  objects w' = <[this := set_program (answer_glCreateProgram drv) s]> (objects w) /\
  currentShader w' = currentShader w /\
  textureCounters w' = textureCounters w /\
  maxTextureUnits w' = maxTextureUnits w.
Proof.
  intros Hs. unfold createProgram, bindVertexAttribs, getWarnings.
  run_monad. cbn. rewrite Hs. cbn.
  destruct (N.eqb_spec (answer_glCreateProgram drv) 0) as [|Hne]; cbn; [done|].
  rewrite !lookup_insert_eq. cbn.
  destruct (N.eqb_spec (answer_glCreateProgram drv) 0) as [|_]; cbn; [done|].
  destruct (answer_LINK_STATUS drv (answer_glCreateProgram drv)) eqn:Hlink; cbn.
  - intros [= <-]. done.
  - rewrite !lookup_insert_eq. cbn. done.
Qed.

(** When [loadVolatile] returns, the object has the program the driver
    created and linked and a cleared binding record; its other members, the
    other objects and the counters are as they were. *)
Lemma loadVolatile_Ok_inv this drv w b w' s :
  objects w !! this = Some s ->
  loadVolatile this drv w = Ok b w' ->
  answer_glCreateProgram drv <> 0%N /\
  answer_LINK_STATUS drv (answer_glCreateProgram drv) = true /\
  objects w'
  = <[this := set_program (answer_glCreateProgram drv)
                (set_activeTextureUnits (replicate (maxTextureUnits w) 0%N) s)]>
      (objects w) /\
  textureCounters w' = textureCounters w /\
  maxTextureUnits w' = maxTextureUnits w.
Proof.
  intros Hs. rewrite (loadVolatile_start _ _ _ _ Hs).
  set (s0 := set_activeTextureUnits (replicate (maxTextureUnits w) 0%N) s).
  set (w0 := set_objects (<[this := s0]> (objects w)) w).
  intros (shaderids & w1 & Hcompile & Hrest)%bind_Ok_inv.
  assert (Hw1 : same_data w0 w1)
    by (eapply compile_sources_same_data; by rewrite Hcompile).
  destruct Hw1 as (Ho1 & _ & _ & Hc1 & Hm1 & _).
  assert (Hs1 : objects w1 !! this = Some s0)
    by (rewrite Ho1; apply lookup_insert_eq).
  case_bool_decide; [done|].
  apply bind_Ok_inv in Hrest as ([] & w2 & Hcreate & Hrest).
  destruct (createProgram_Ok_inv _ _ _ _ _ _ Hs1 Hcreate)
    as (Hne & Hlink & Ho2 & _ & Hc2 & Hm2).
  rewrite (bind_Ok _ _ w2 (currentShader w2) w2) in Hrest by done.
  apply bind_Ok_inv in Hrest as ([] & w3 & Hwhen & Hrest).
  injection Hrest as <- <-.
  assert (Hw3 : objects w3 = objects w2 /\
                textureCounters w3 = textureCounters w2 /\
                maxTextureUnits w3 = maxTextureUnits w2).
  { unfold when in Hwhen. case_bool_decide.
    - apply bind_Ok_inv in Hwhen as ([] & w2' & Hmodify & Hattach).
      injection Hmodify as <-.
      apply attach_Ok_inv in Hattach as (_ & _ & (? & _ & _ & ? & ? & _)).
      done.
    - by injection Hwhen as <-. }
  destruct Hw3 as (Ho3 & Hc3 & Hm3).
  split_and!; [done|done| | |].
  - rewrite Ho3, Ho2, Ho1. subst w0. cbn. by rewrite insert_insert_eq.
  - by rewrite Hc3, Hc2, Hc1.
  - by rewrite Hm3, Hm2, Hm1.
Qed.

(** X25.  What a constructor that returns leaves, in every state of the
    process: one more object, at [this]; the object has the program the
    driver created, which is not 0, no uniform location cached, no unit
    assigned, a binding record of [max (n - 1) 0] empty entries for a
    context of [n] texture units, every source it was given, and for a
    vertex or pixel source it was not given, the default source.  The
    counters are as they were, extended by zeroes to that number of
    entries. *)
Theorem a_new_shader n w this sources drv w' :
  reachable n w -> objects w !! this = None ->
  Shader_new this sources drv w = Ok tt w' ->
  exists s',
    objects w' = <[this := s']> (objects w) /\
    program s' = answer_glCreateProgram drv /\ program s' <> 0%N /\
    uniforms s' = ∅ /\ textureUnitPool s' = ∅ /\
    activeTextureUnits s' = replicate (units_of n) 0%N /\
    (forall type code,
       sources !! type = Some code -> shaderSources s' !! type = Some code) /\
    (sources !! TYPE_VERTEX = None ->
     shaderSources s' !! TYPE_VERTEX = defaultSources w !! TYPE_VERTEX) /\
    (sources !! TYPE_PIXEL = None ->
     shaderSources s' !! TYPE_PIXEL = defaultSources w !! TYPE_PIXEL) /\
    is_Some (shaderSources s' !! TYPE_VERTEX) /\
    is_Some (shaderSources s' !! TYPE_PIXEL) /\
    textureCounters w'
    = textureCounters w
      ++ replicate (units_of n - length (textureCounters w)) 0.
Proof.
  intros Hreach Hfresh Hnew.
  pose proof (reachable_consistent n w Hreach) as Hw.
  rewrite (Shader_new_cases _ _ _ _ Hfresh) in Hnew.
  case_bool_decide as Hempty; [done|].
  set (w1 := set_objects (<[this := constructing sources]> (objects w)) (resized w)) in *.
  assert (Hs1 : objects w1 !! this = Some (constructing sources))
    by apply lookup_insert_eq.
  destruct ((checkCodeCompleteness this;; loadVolatile this drv;; mret tt) w1)
    as [[] w2|e w2|] eqn:E; [|done|done]. injection Hnew as <-.
  apply bind_Ok_inv in E as ([] & wc & Hcheck & E).
  apply bind_Ok_inv in E as (b & wl & Hload & E). injection E as <-.
  rewrite (checkCodeCompleteness_cases this w1 _ Hs1) in Hcheck.
  destruct (fill TYPE_VERTEX _ _) as [sources1|] eqn:Hfill1; [|done].
  destruct (fill TYPE_PIXEL _ _) as [sources2|] eqn:Hfill2; [|done].
  injection Hcheck as <-.
  set (sc := set_shaderSources sources2 (constructing sources)) in *.
  assert (Hsc : objects (with_sources this (constructing sources) sources2 w1)
                !! this = Some sc) by apply lookup_insert_eq.
  destruct (loadVolatile_Ok_inv _ _ _ _ _ _ Hsc Hload)
    as (Hne & _ & Ho & Hc & _).
  assert (Hmax : maxTextureUnits (with_sources this (constructing sources) sources2 w1)
                 = units_of n).
  { cbn. by rewrite (consistent_num _ _ Hw). }
  rewrite Hmax in Ho.
  eexists. split_and!.
  - rewrite Ho. unfold with_sources, w1. cbn. by rewrite !insert_insert_eq.
  - done.
  - done.
  - done.
  - done.
  - done.
  - intros type code Hcode. cbn.
    unfold fill in Hfill1, Hfill2. cbn in Hfill1, Hfill2.
    destruct (sources !! TYPE_VERTEX) as [v|] eqn:Hv.
    + injection Hfill1 as <-.
      destruct (sources !! TYPE_PIXEL) as [p|] eqn:Hp.
      * by injection Hfill2 as <-.
      * destruct (defaultSources w !! TYPE_PIXEL) as [p|]; [|done].
        injection Hfill2 as <-.
        rewrite lookup_insert_ne; [done|]. intros <-. congruence.
    + destruct (defaultSources w !! TYPE_VERTEX) as [v|]; [|done].
      injection Hfill1 as <-.
      assert (type <> TYPE_VERTEX) by (intros ->; congruence).
      destruct (decide (type = TYPE_PIXEL)) as [->|Hnp].
      * rewrite lookup_insert_ne, Hcode in Hfill2 by done.
        injection Hfill2 as <-. by rewrite lookup_insert_ne.
      * destruct (<[TYPE_VERTEX := v]> sources !! TYPE_PIXEL) as [p|].
        -- injection Hfill2 as <-. by rewrite lookup_insert_ne.
        -- destruct (defaultSources w !! TYPE_PIXEL) as [p|]; [|done].
           injection Hfill2 as <-. by rewrite !lookup_insert_ne.
  - intros Hv. cbn. unfold fill in Hfill1, Hfill2. cbn in Hfill1, Hfill2.
    rewrite Hv in Hfill1.
    destruct (defaultSources w !! TYPE_VERTEX) as [v|]; [|done].
    injection Hfill1 as <-.
    destruct (<[TYPE_VERTEX := v]> sources !! TYPE_PIXEL) as [p|].
    + injection Hfill2 as <-. by rewrite lookup_insert_eq.
    + destruct (defaultSources w !! TYPE_PIXEL) as [p|]; [|done].
      injection Hfill2 as <-. rewrite lookup_insert_ne by done.
      by rewrite lookup_insert_eq.
  - intros Hp. cbn. unfold fill in Hfill1, Hfill2. cbn in Hfill1, Hfill2.
    assert (Hp1 : sources1 !! TYPE_PIXEL = None).
    { destruct (sources !! TYPE_VERTEX) as [v|].
      - by injection Hfill1 as <-.
      - destruct (defaultSources w !! TYPE_VERTEX) as [v|]; [|done].
        injection Hfill1 as <-. by rewrite lookup_insert_ne. }
    rewrite Hp1 in Hfill2.
    destruct (defaultSources w !! TYPE_PIXEL) as [p|]; [|done].
    injection Hfill2 as <-. by rewrite lookup_insert_eq.
  - cbn. apply fill_Some in Hfill1 as [Hv1 _].
    apply fill_Some in Hfill2 as [_ Hother]. by rewrite Hother.
  - cbn. by apply fill_Some in Hfill2 as [? _].
  - rewrite Hc. cbn -[Nat.ltb]. rewrite (consistent_num _ _ Hw).
    destruct (Nat.ltb_spec (length (textureCounters w)) (units_of n)); [done|].
    replace (units_of n - length (textureCounters w))%nat with O
      by (unfold units_of in *; lia).
    by rewrite app_nil_r.
Qed.

(** X26.  The errors of the constructor, for storage that holds no object.
    Without any source it throws "no source code" and changes nothing, not
    even the statics.  With sources that lack a vertex source, when there is
    no default vertex source, it throws "no default vertex shader code",
    whether or not a pixel source is there.  With a vertex source, given or
    default, but no pixel source, given or default, it throws "no default
    pixel shader code".  In both cases no object is left and the other
    objects are as they were. *)
Theorem construction_errors this sources drv w :
  objects w !! this = None ->
  (sources = ∅ ->
   Shader_new this sources drv w
   = Throw {| what_format := "Cannot create shader: no source code!";
              what_args := [] |} w) /\
  (sources <> ∅ -> sources !! TYPE_VERTEX = None ->
   defaultSources w !! TYPE_VERTEX = None ->
   exists w',
     Shader_new this sources drv w
     = Throw {| what_format := "Cannot create shader: no default vertex shader code!";
                what_args := [] |} w' /\
     objects w' = objects w) /\
  (sources <> ∅ ->
   is_Some (sources !! TYPE_VERTEX) \/ is_Some (defaultSources w !! TYPE_VERTEX) ->
   sources !! TYPE_PIXEL = None -> defaultSources w !! TYPE_PIXEL = None ->
   exists w',
     Shader_new this sources drv w
     = Throw {| what_format := "Cannot create shader: no default pixel shader code!";
                what_args := [] |} w' /\
     objects w' = objects w).
Proof.
  intros Hfresh. rewrite (Shader_new_cases _ _ _ _ Hfresh).
  set (w1 := set_objects (<[this := constructing sources]> (objects w)) (resized w)).
  assert (Hs1 : objects w1 !! this = Some (constructing sources))
    by apply lookup_insert_eq.
  split_and!.
  - intros ->. by rewrite bool_decide_eq_true_2.
  - intros Hne Hv Hdv. rewrite bool_decide_eq_false_2 by done.
    erewrite bind_Throw.
    2: { rewrite (checkCodeCompleteness_cases this w1 _ Hs1).
         unfold fill. cbn. rewrite Hv, Hdv. cbn. reflexivity. }
    eexists. split; [reflexivity|]. cbn. by apply delete_insert_id.
  - intros Hne Hvertex Hp Hdp. rewrite bool_decide_eq_false_2 by done.
    assert (Hfill : exists sources1,
      fill TYPE_VERTEX (defaultSources w) sources = Some sources1 /\
      sources1 !! TYPE_PIXEL = None).
    { unfold fill. destruct (sources !! TYPE_VERTEX) as [v|] eqn:Hv.
      - by exists sources.
      - destruct Hvertex as [[? ?]|[v Hdv]]; [done|]. rewrite Hdv. cbn.
        eexists. split; [done|]. by rewrite lookup_insert_ne. }
    destruct Hfill as (sources1 & Hfill1 & Hp1).
    erewrite bind_Throw.
    2: { rewrite (checkCodeCompleteness_cases this w1 _ Hs1). cbn.
         rewrite Hfill1. unfold fill. rewrite Hp1, Hdp. cbn. reflexivity. }
    eexists. split; [reflexivity|]. cbn. rewrite insert_insert_eq.
    by apply delete_insert_id.
Qed.

(** *** The order in which free units are given out *)

(** X27.  In every state of the process, take two requests in a row, by the
    same shader or by two shaders, each for a name the shader has no unit
    for, each made while some counter is zero, and both returning.  The unit
    given to the second request is higher than the unit given to the first,
    which keeps its unit. *)
Theorem free_units_are_given_in_increasing_order n w a b sa sb name_a name_b
    texture_a texture_b drv_a drv_b w1 w2 :
  reachable n w ->
  objects w !! a = Some sa -> textureUnitPool sa !! name_a = None ->
  0 ∈ textureCounters w ->
  sendTexture a name_a texture_a drv_a w = Ok tt w1 ->
  objects w1 !! b = Some sb -> textureUnitPool sb !! name_b = None ->
  0 ∈ textureCounters w1 ->
  sendTexture b name_b texture_b drv_b w1 = Ok tt w2 ->
  exists unit_a unit_b,
    assigned a name_a unit_a w2 /\ assigned b name_b unit_b w2 /\
    1 <= unit_a < unit_b.
Proof.
  intros Hreach Ha Hname_a Hfree Hsend_a Hb Hname_b Hfree1 Hsend_b.
  pose proof (reachable_consistent n w Hreach) as Hw.
  assert (Hw1 : consistent n w1).
  { apply (sendTexture_consistent n a name_a texture_a drv_a w); [done|].
    by rewrite Hsend_a. }
  destruct (sendTexture_free n w a sa name_a texture_a drv_a w1
              Hw Ha Hname_a Hfree Hsend_a) as (i & Hi & Hassigned_a & Hc1).
  destruct (sendTexture_free n w1 b sb name_b texture_b drv_b w2
              Hw1 Hb Hname_b Hfree1 Hsend_b) as (j & Hj & Hassigned_b & _).
  exists (Z.of_nat i + 1), (Z.of_nat j + 1). split_and!.
  - apply (call_keeps (CallSendTexture b name_b texture_b drv_b) w1 w2);
      [cbn; by rewrite Hsend_b|done|done].
  - done.
  - lia.
  - assert (i < j)%nat; [|lia].
    destruct Hi as [Hi Hbelow_i]. destruct Hj as [Hj Hbelow_j].
    assert (Hlen : (i < length (textureCounters w))%nat)
      by by apply lookup_lt_Some in Hi.
    rewrite Hc1 in Hj.
    destruct (lt_eq_lt_dec i j) as [[Hlt | ->] | Hgt]; [done| |].
    + by rewrite list_lookup_insert_eq in Hj.
    + rewrite list_lookup_insert_ne in Hj by lia.
      by destruct (Hbelow_i j Hgt).
Qed.

(** *** What attach binds *)

Lemma rebind_from_spec active : forall i0 texture textureunit restoreprev,
  bindTextureToUnit texture textureunit restoreprev ∈ rebind_from i0 active <->
  exists i, active !! i = Some texture /\ texture <> 0%N /\
            textureunit = Z.of_nat (i0 + i) + 1 /\ restoreprev = false.
Proof.
  induction active as [|t active IH]; intros i0 texture textureunit restoreprev;
    cbn [rebind_from].
  - split; [by intros ?%elem_of_nil|]. by intros (i & ? & _).
  - rewrite elem_of_app, IH. split.
    + intros [Hhere|(i & Hi & Hne & -> & ->)].
      * destruct (N.ltb_spec 0 t) as [Hpos|_]; [|by apply elem_of_nil in Hhere].
        apply list_elem_of_singleton in Hhere. injection Hhere as -> -> ->.
        exists O. split_and!; [done|lia| |done].
        f_equal. f_equal. lia.
      * exists (S i). split_and!; [done|done| |done]. f_equal. f_equal. lia.
    + intros ([|i] & Hi & Hne & -> & ->).
      * left. injection Hi as ->.
        destruct (N.ltb_spec 0 texture) as [_|]; [|lia].
        apply list_elem_of_singleton. f_equal. f_equal. f_equal. lia.
      * right. exists i. split_and!; [done|done| |done]. f_equal. f_equal. lia.
Qed.

(** X28.  [attach], called on an object without [temporary], returns and
    makes the object the current shader.  Among the commands it issues,
    there is a [bindTextureToUnit] of a texture to a unit exactly when the
    object's binding record holds that texture, which is not 0, at the
    index one below the unit; [glUseProgram] is issued, with the program of
    the object, exactly when the object was not the current shader
    already; the last command resets the active unit to 0.  Called with
    [temporary] it binds no texture. *)
Theorem attach_binds_the_held_textures this w s :
  objects w !! this = Some s ->
  exists w' cs,
    attach this false w = Ok tt w' /\
    currentShader w' = Some this /\ objects w' = objects w /\
    issued w'
    = issued w
      ++ (if bool_decide (currentShader w <> Some this)
          then [glUseProgram (program s)] else [])
      ++ cs ++ [setActiveTextureUnit 0] /\
    (forall texture textureunit restoreprev,
       bindTextureToUnit texture textureunit restoreprev ∈ cs <->
       1 <= textureunit /\ restoreprev = false /\
       activeTextureUnits s !! Z.to_nat (textureunit - 1) = Some texture /\
       texture <> 0%N) /\
    (forall c, c ∈ cs -> exists texture textureunit,
       c = bindTextureToUnit texture textureunit false) /\
    exists w'',
      attach this true w = Ok tt w'' /\
      issued w''
      = issued w
        ++ (if bool_decide (currentShader w <> Some this)
            then [glUseProgram (program s)] else []).
Proof.
  intros Hs. exists
    (set_issued
       (issued w
        ++ (if bool_decide (currentShader w <> Some this)
            then [glUseProgram (program s)] else [])
        ++ rebind_from 0 (activeTextureUnits s) ++ [setActiveTextureUnit 0])
       (set_currentShader (Some this) w)),
    (rebind_from 0 (activeTextureUnits s)).
  split_and!.
  - unfold attach. rewrite (bind_Ok _ _ _ _ _ (deref_Ok _ _ _ Hs)).
    run_monad. case_bool_decide; cbn; by rewrite <- ?app_assoc, ?app_nil_r.
  - done.
  - done.
  - done.
  - intros texture textureunit restoreprev. rewrite rebind_from_spec. split.
    + intros (i & Hi & Hne & -> & ->). split_and!; [lia|done| |done].
      by replace (Z.to_nat (Z.of_nat (0 + i) + 1 - 1)) with i by lia.
    + intros (Hunit & -> & Hi & Hne).
      exists (Z.to_nat (textureunit - 1)). split_and!; [done|done|lia|done].
  - intros c Hc.
    assert (Hshape : forall active i0, c ∈ rebind_from i0 active ->
              exists texture textureunit,
                c = bindTextureToUnit texture textureunit false).
    { clear. induction active as [|t active IH]; intros i0; cbn [rebind_from].
      - by intros ?%elem_of_nil.
      - rewrite elem_of_app. intros [Hhere|Hrest]; [|by eapply IH].
        destruct (0 <? t)%N; [|by apply elem_of_nil in Hhere].
        apply list_elem_of_singleton in Hhere. eauto. }
    by eapply Hshape.
  - exists (set_issued
              (issued w
               ++ (if bool_decide (currentShader w <> Some this)
                   then [glUseProgram (program s)] else []))
              (set_currentShader (Some this) w)).
    split; [|done].
    unfold attach. rewrite (bind_Ok _ _ _ _ _ (deref_Ok _ _ _ Hs)).
    run_monad. case_bool_decide; cbn; [done|]. by rewrite app_nil_r.
Qed.

(** *** getTextureUnit alone *)

Lemma records_with_unit this s name textureunit w :
  objects w !! this = Some s ->
  records (with_unit this s name textureunit w) = records w.
Proof.
  intros Hs. unfold records, with_unit. cbn. rewrite fmap_insert. cbn.
  apply insert_id. by rewrite lookup_fmap, Hs.
Qed.

(** X29.  [getTextureUnit] assigns a unit without marking it as used: it
    changes no counter and no binding record.  So two calls in a row for two
    names the shader has no unit for, while some counter is zero, return the
    same unit for both names. *)
Theorem getTextureUnit_does_not_reserve this w s name_a name_b :
  objects w !! this = Some s -> name_a <> name_b ->
  textureUnitPool s !! name_a = None -> textureUnitPool s !! name_b = None ->
  0 ∈ textureCounters w ->
  exists textureunit w1 w2,
    getTextureUnit this name_a w = Ok textureunit w1 /\
    getTextureUnit this name_b w1 = Ok textureunit w2 /\
    assigned this name_a textureunit w2 /\
    assigned this name_b textureunit w2 /\
    textureCounters w2 = textureCounters w /\
    records w2 = records w.
Proof.
  intros Hs Hne Ha Hb Hfree.
  assert (Hselected : forall pool active u,
    pool !! name_a = None \/ pool !! name_b = None ->
    forall name, pool !! name = None ->
    chosen pool (textureCounters w) active name u ->
    u = Z.of_nat (std_find (textureCounters w) 0) + 1).
  { intros pool active u _ name Hname Hchosen. unfold chosen in Hchosen.
    rewrite Hname in Hchosen.
    destruct Hchosen as (i & -> & [Hi|[Hnot _]]); [|done].
    by rewrite (lowest_unique _ _ _ _ Hi (lowest_exists 0 _ Hfree)). }
  destruct (getTextureUnit_cases this name_a w s Hs)
    as [(u & Hfirst & Hchosen)|(_ & _ & Hnot & _)]; [|done].
  pose proof (Hselected _ _ u (or_introl Ha) name_a Ha Hchosen) as ->.
  clear Hchosen.
  set (u0 := Z.of_nat (std_find (textureCounters w) 0) + 1) in *.
  set (w1 := with_unit this s name_a u0 w) in *.
  set (s1 := set_textureUnitPool (<[name_a := u0]> (textureUnitPool s)) s).
  assert (Hs1 : objects w1 !! this = Some s1) by apply lookup_insert_eq.
  assert (Hb1 : textureUnitPool s1 !! name_b = None)
    by (cbn; by rewrite lookup_insert_ne).
  destruct (getTextureUnit_cases this name_b w1 s1 Hs1)
    as [(u & Hsecond & Hchosen)|(_ & _ & Hnot & _)]; [|done].
  cbn [textureCounters w1 with_unit set_objects] in Hchosen.
  pose proof (Hselected _ _ u (or_intror Hb1) name_b Hb1 Hchosen) as ->.
  fold u0 in Hsecond.
  exists u0, w1, (with_unit this s1 name_b u0 w1).
  split_and!; [done|done| | |done|].
  - eexists. split; [unfold pools; cbn; rewrite lookup_fmap, lookup_insert_eq; done|].
    cbn. rewrite lookup_insert_ne by done. apply lookup_insert_eq.
  - eexists. split; [unfold pools; cbn; rewrite lookup_fmap, lookup_insert_eq; done|].
    cbn. apply lookup_insert_eq.
  - rewrite (records_with_unit _ _ _ _ _ Hs1). by apply records_with_unit.
Qed.

(** *** A shader that sends several textures while units are free *)

#[local] Instance same_programs_refl : Reflexive same_programs.
Proof. by intros w. Qed.

#[local] Instance same_programs_trans : Transitive same_programs.
Proof. unfold same_programs. intros w1 w2 w3 ? ?. congruence. Qed.

Lemma same_data_programs w w' : same_data w w' -> same_programs w w'.
Proof. intros (Ho & _). unfold same_programs. by rewrite Ho. Qed.

Lemma same_programs_assign (f : Shader -> Shader) this s w :
  (forall s, program (f s) = program s) ->
  objects w !! this = Some s ->
  same_programs w (set_objects (<[this := f s]> (objects w)) w).
Proof.
  intros Hf Hs. unfold same_programs. cbn. rewrite fmap_insert, Hf.
  apply insert_id. by rewrite lookup_fmap, Hs.
Qed.

Lemma attach_same_programs this temporary :
  preserves same_programs (attach this temporary).
Proof.
  intros w w' Hafter. apply same_data_programs.
  by apply (attach_same_data this temporary).
Qed.

Lemma TemporaryAttacher_dtor_same_programs prev :
  preserves same_programs (TemporaryAttacher_dtor prev).
Proof.
  intros w w' Hafter. apply same_data_programs.
  by apply (TemporaryAttacher_dtor_same_data prev).
Qed.

Lemma getUniformLocation_same_programs this name unsafe drv :
  preserves same_programs (getUniformLocation this name unsafe drv).
Proof.
  unfold getUniformLocation. preserves_steps.
  all: intros; by apply same_programs_assign.
Qed.

Lemma getTextureUnit_same_programs this name :
  preserves same_programs (getTextureUnit this name).
Proof.
  unfold getTextureUnit. preserves_steps.
  all: intros; by apply same_programs_assign.
Qed.

Lemma sendTexture_same_programs this name texture drv :
  preserves same_programs (sendTexture this name texture drv).
Proof.
  unfold sendTexture, checkSetUniformError.
  preserves_steps;
    first [ apply attach_same_programs
          | apply TemporaryAttacher_dtor_same_programs
          | apply getUniformLocation_same_programs
          | apply getTextureUnit_same_programs
          | by intros; apply same_programs_assign
          | by intros ].
Qed.

Lemma lowest_zero_after_ones j k i :
  lowest 0 (replicate j 1 ++ replicate k 0) i -> i = j.
Proof.
  intros [Hi Hbelow].
  destruct (lt_eq_lt_dec i j) as [[Hlt | Heq] | Hgt]; [|done|].
  - rewrite lookup_app_l, lookup_replicate_2 in Hi
      by (rewrite ?length_replicate; lia). done.
  - destruct (Hbelow j Hgt).
    assert (j < i)%nat as Hj by done. apply lookup_lt_Some in Hi.
    rewrite length_app, !length_replicate in Hi.
    rewrite lookup_app_r by (rewrite length_replicate; lia).
    rewrite length_replicate. apply lookup_replicate_2. lia.
Qed.

Lemma one_more_in_use j k :
  <[j := 1]> (replicate j 1 ++ replicate (S k) 0)
  = replicate (S j) 1 ++ replicate k 0.
Proof.
  induction j as [|j IH]; [done|]. cbn. f_equal. exact IH.
Qed.

Lemma sends_in_order n drv this : forall sends w s j0,
  reachable n w -> pointers_valid w -> objects w !! this = Some s ->
  textureCounters w = replicate j0 1 ++ replicate (units_of n - j0) 0 ->
  (j0 + length sends <= units_of n)%nat ->
  NoDup sends.*1 ->
  (forall name, name ∈ sends.*1 ->
     textureUnitPool s !! name = None /\
     answer_glGetUniformLocation drv (program s) name <> -1) ->
  exists w',
    run (send_textures this drv sends) w = Some w' /\
    textureCounters w'
    = replicate (j0 + length sends) 1
      ++ replicate (units_of n - (j0 + length sends)) 0 /\
    forall j name texture,
      sends !! j = Some (name, texture) ->
      assigned this name (Z.of_nat (j0 + j) + 1) w'.
Proof.
  induction sends as [|[name texture] sends IH];
    intros w s j0 Hreach Hvalid Hs Hcounters Hlen Hnodup Hnames.
  - exists w. cbn. split_and!; [done| |by intros ? ? ? ?].
    by rewrite Nat.add_0_r.
  - cbn [length fmap list_fmap fst] in Hlen, Hnodup, Hnames.
    apply NoDup_cons in Hnodup as [Hfresh Hnodup].
    destruct (Hnames name) as [Hname Hlocation]; [apply list_elem_of_here|].
    pose proof (reachable_consistent n w Hreach) as Hw.
    assert (Hk : exists k, (units_of n - j0 = S k)%nat)
      by (exists (units_of n - j0 - 1)%nat; lia).
    destruct Hk as [k Hk]. rewrite Hk in Hcounters.
    assert (Hfree : 0 ∈ textureCounters w).
    { rewrite Hcounters. apply elem_of_app. right. cbn. apply list_elem_of_here. }
    assert (Hres : resolves s name drv) by by right.
    destruct (sendTexture_returns_free n w this s name texture drv
                Hw Hvalid Hs Hres Hname Hfree) as (w1 & Hsend & Hvalid1).
    destruct (sendTexture_free n w this s name texture drv w1
                Hw Hs Hname Hfree Hsend) as (i & Hi & Hassigned & Hc1).
    rewrite Hcounters in Hi. apply lowest_zero_after_ones in Hi as ->.
    rewrite Hcounters, one_more_in_use in Hc1.
    assert (Hcall : after (call (CallSendTexture this name texture drv) w)
                    = Some w1) by (cbn; by rewrite Hsend).
    assert (Hreach1 : reachable n w1) by by eapply reachable_call.
    destruct (sendTexture_Ok this name texture drv w w1 s Hs Hsend)
      as (u & _ & _ & _ & _ & _ & Hpools & _).
    assert (Hprograms : same_programs w w1).
    { apply (sendTexture_same_programs this name texture drv). by rewrite Hsend. }
    assert (Hs1 : exists s1, objects w1 !! this = Some s1 /\
              program s1 = program s /\
              textureUnitPool s1 = <[name := u]> (textureUnitPool s)).
    { assert (Hp : pools w1 !! this = Some (<[name := u]> (textureUnitPool s)))
        by (rewrite Hpools; apply lookup_insert_eq).
      unfold pools in Hp. rewrite lookup_fmap in Hp.
      assert (Hg : (program <$> objects w1) !! this = (program <$> objects w) !! this)
        by by rewrite Hprograms.
      rewrite !lookup_fmap, Hs in Hg.
      destruct (objects w1 !! this) as [s1|]; [|done].
      injection Hp as Hp. injection Hg as Hg. by exists s1. }
    destruct Hs1 as (s1 & Hs1 & Hprogram1 & Hpool1).
    destruct (IH w1 s1 (S j0) Hreach1 Hvalid1 Hs1) as (w' & Hrun & Hc' & Hall).
    + rewrite Hc1. f_equal. f_equal. lia.
    + lia.
    + done.
    + intros name' Hname'. destruct (Hnames name') as [Hnone Hloc];
        [by apply list_elem_of_further|].
      split; [|by rewrite Hprogram1].
      rewrite Hpool1, lookup_insert_ne; [done|]. by intros ->.
    + exists w'. split_and!.
      * cbn [send_textures map run]. cbn [fst snd]. rewrite Hcall. exact Hrun.
      * rewrite Hc'. cbn [length]. f_equal; f_equal; lia.
      * intros [|j] name' texture' Hj.
        -- injection Hj as <- <-. rewrite Nat.add_0_r.
           apply (run_keeps (send_textures this drv sends) this name _ w1 w');
             [done| |done].
           unfold send_textures. intros (send & Heq & _)%list_elem_of_fmap.
           done.
        -- replace (j0 + S j)%nat with (S j0 + j)%nat by lia.
           by apply (Hall j name' texture').
Qed.

(** X30.  In a state of the process in which no unit is in use (every
    counter is zero) and whose [currentShader] and [defaultShader] point to
    objects or are null, let a shader send textures, whatever their
    handles, to distinct names that it has no unit for and that the driver
    has locations for, no more names than there are units.  Every call
    returns; the names get the units 1, 2, 3, ... in the order of the calls;
    and afterwards the counters of the units given out are 1 and the others
    0. *)
Theorem a_shader_fills_the_units_in_order n drv this sends w s :
  reachable n w -> pointers_valid w -> objects w !! this = Some s ->
  textureCounters w = replicate (units_of n) 0 ->
  (length sends <= units_of n)%nat ->
  NoDup sends.*1 ->
  (forall name, name ∈ sends.*1 ->
     textureUnitPool s !! name = None /\
     answer_glGetUniformLocation drv (program s) name <> -1) ->
  exists w',
    run (send_textures this drv sends) w = Some w' /\
    textureCounters w'
    = replicate (length sends) 1 ++ replicate (units_of n - length sends) 0 /\
    forall j name texture,
      sends !! j = Some (name, texture) ->
      assigned this name (Z.of_nat j + 1) w'.
Proof.
  intros Hreach Hvalid Hs Hcounters Hlen Hnodup Hnames.
  destruct (sends_in_order n drv this sends w s O Hreach Hvalid Hs)
    as (w' & Hrun & Hc & Hall); try done.
  - by rewrite Nat.sub_0_r.
  - by exists w'.
Qed.

(** *** The further properties at example inputs *)

Lemma example_states :
  reachable 3 (state_after one_shader) /\
  reachable 3 (state_after one_bound_shader) /\
  reachable 3 (state_after two_shaders) /\
  reachable 3 (state_after one_full_shader) /\
  reachable 3 (state_after full_and_new) /\
  reachable 1 state_without_units.
Proof.
  split_and!; try (apply state_after_reachable; vm_compute; eauto).
  apply (run_reachable 1 one_shader (initial_World 1));
    [apply reachable_initial|vm_compute; reflexivity].
Qed.

Lemma counters_cover_the_users_witness :
  length (textureCounters (state_after one_bound_shader))
  = maxTextureUnits (state_after one_bound_shader).
Proof.
  refine (proj1 (counters_cover_the_users 3 (state_after one_bound_shader) _)).
  apply example_states.
Defined.

Lemma default_sources_are_all_or_nothing_witness :
  defaultSources (state_after one_shader) = ∅ \/
  (is_Some (defaultSources (state_after one_shader) !! TYPE_VERTEX) /\
   is_Some (defaultSources (state_after one_shader) !! TYPE_PIXEL)).
Proof.
  refine (default_sources_are_all_or_nothing 3 (state_after one_shader) _).
  apply example_states.
Defined.

Lemma sends_restore_the_current_shader_witness :
  currentShader
    (state_after (one_shader ++ [CallSendFloat 0 "x" 1 [] 1 example_driver]))
  = restored (state_after one_shader).
Proof.
  refine (proj1 (proj1
    (sends_restore_the_current_shader 0 "x" (state_after one_shader)
       (state_after (one_shader ++ [CallSendFloat 0 "x" 1 [] 1 example_driver])))
    1 [] 1 example_driver _)).
  vm_compute. reflexivity.
Defined.

Lemma delete_and_the_current_shader_witness :
  objects (state_after (one_shader ++ [CallDelete 0]))
  = delete 0%nat (objects (state_after one_shader)).
Proof.
  refine (proj1 (delete_and_the_current_shader 0 (state_after one_shader)
                   (state_after (one_shader ++ [CallDelete 0])) _)).
  vm_compute. reflexivity.
Defined.

Lemma uniform_location_is_cached_witness :
  exists location w1,
    getUniformLocation 0 "x" false example_driver (state_after one_shader)
    = Ok location w1 /\ location <> -1.
Proof.
  assert (Hlookup : exists location w1,
    getUniformLocation 0 "x" false example_driver (state_after one_shader)
    = Ok location w1) by (vm_compute; eauto).
  destruct Hlookup as (location & w1 & Hlookup).
  exists location, w1. split; [exact Hlookup|].
  exact (proj1 (uniform_location_is_cached 0 "x" example_driver
                  (state_after one_shader) location w1 Hlookup)).
Defined.

Lemma hasUniform_answer_is_kept_witness :
  exists w',
    hasUniform 0 "x" example_driver (state_after one_shader)
    = Ok (0 <=? default
                  (answer_glGetUniformLocation example_driver
                     (program (object_at 0 (state_after one_shader))) "x")
                  (uniforms (object_at 0 (state_after one_shader)) !! "x")) w'.
Proof.
  destruct (hasUniform_answer_is_kept 0 "x" example_driver
              (state_after one_shader) (object_at 0 (state_after one_shader)))
    as (w' & Hanswer & _).
  - vm_compute. reflexivity.
  - exists w'. exact Hanswer.
Defined.

Lemma no_uniform_resolves this w name :
  uniforms (object_at this w) !! name = None ->
  ~ resolves (object_at this w) name driver_without_uniforms.
Proof. intros Hnone [(location & Hl & _)|Hne]; [congruence|by apply Hne]. Qed.

Lemma send_to_a_name_without_location_witness :
  exists w',
    sendFloat 0 "x" 9 [] 1 driver_without_uniforms (state_after one_shader)
    = Throw {| what_format := "Cannot get location of shader variable `%s'.
A common error is to define but not use the variable.";
               what_args := [ArgStr "x"] |} w'.
Proof.
  destruct (send_to_a_name_without_location 0 "x" driver_without_uniforms
              (state_after one_shader) (object_at 0 (state_after one_shader)))
    as (Hfloat & _).
  - apply no_pointers_valid; vm_compute; reflexivity.
  - vm_compute. reflexivity.
  - apply no_uniform_resolves. vm_compute. reflexivity.
  - destruct (Hfloat 9 [] 1) as (w' & Hthrow & _). exists w'. exact Hthrow.
Defined.

Lemma sending_to_a_held_unit_keeps_the_counters_witness :
  exists w',
    sendTexture 0 "tex" 9 example_driver (state_after one_bound_shader)
    = Ok tt w' /\
    textureCounters w' = textureCounters (state_after one_bound_shader).
Proof.
  destruct (sending_to_a_held_unit_keeps_the_counters 3
              (state_after one_bound_shader) 0
              (object_at 0 (state_after one_bound_shader)) "tex" 1 9
              example_driver)
    as (w' & Hsend & Hcounters & _).
  - apply example_states.
  - apply no_pointers_valid; vm_compute; reflexivity.
  - vm_compute. reflexivity.
  - apply example_driver_resolves.
  - vm_compute. reflexivity.
  - exists 7%N. split; [vm_compute; reflexivity|discriminate].
  - exists w'. split; [exact Hsend|exact Hcounters].
Defined.

Lemma new_shader_holds_nothing j :
  ~ holds j (activeTextureUnits (object_at 0 (state_after one_shader))).
Proof.
  intros (texture & Hj & Hne).
  change (activeTextureUnits (object_at 0 (state_after one_shader)))
    with [0%N; 0%N] in Hj.
  destruct j as [|[|j]]; by simplify_eq/=.
Qed.

Lemma send_then_unload_witness :
  exists w1 w2,
    sendTexture 0 "tex" 7 example_driver (state_after one_shader) = Ok tt w1 /\
    unloadVolatile 0 w1 = Ok tt w2 /\
    textureCounters w2 = textureCounters (state_after one_shader).
Proof.
  destruct (send_then_unload 3 (state_after one_shader) 0
              (object_at 0 (state_after one_shader)) "tex" 7 example_driver)
    as (w1 & w2 & i & Hsend & Hunload & _ & _ & Hrestored & _).
  - apply example_states.
  - apply no_pointers_valid; vm_compute; reflexivity.
  - vm_compute. reflexivity.
  - apply example_driver_resolves.
  - vm_compute. reflexivity.
  - vm_compute. constructor.
  - apply new_shader_holds_nothing.
  - exists w1, w2. split_and!; [exact Hsend|exact Hunload|].
    apply Hrestored. discriminate.
Defined.

Lemma a_new_name_gets_a_unit_the_shader_does_not_hold_witness :
  exists textureunit,
    assigned 0 "b" textureunit
      (state_after (one_bound_shader ++ [CallSendTexture 0 "b" 8 example_driver])) /\
    ~ holds (Z.to_nat (textureunit - 1))
        (activeTextureUnits (object_at 0 (state_after one_bound_shader))).
Proof.
  destruct (a_new_name_gets_a_unit_the_shader_does_not_hold 3
              (state_after one_bound_shader) 0
              (object_at 0 (state_after one_bound_shader)) "b" 8 example_driver
              (state_after (one_bound_shader
                            ++ [CallSendTexture 0 "b" 8 example_driver])))
    as (textureunit & Hassigned & _ & Hfree).
  - apply example_states.
  - vm_compute. reflexivity.
  - vm_compute. reflexivity.
  - vm_compute. reflexivity.
  - exists textureunit. split; [exact Hassigned|exact Hfree].
Defined.

Lemma not_in_pair {A} (x a b : A) : x <> a -> x <> b -> x ∉ [a; b].
Proof.
  intros Ha Hb Hin. apply elem_of_cons in Hin as [?|Hin]; [done|].
  apply elem_of_cons in Hin as [?|Hin]; [done|]. by apply elem_of_nil in Hin.
Qed.

Lemma no_unit_left_witness :
  exists w',
    sendTexture 0 "c" 9 example_driver (state_after one_full_shader)
    = Throw {| what_format := "No more texture units available for shader.";
               what_args := [] |} w'.
Proof.
  destruct (no_unit_left 0 "c" 9 example_driver (state_after one_full_shader)
              (object_at 0 (state_after one_full_shader)))
    as (w' & Hthrow & _).
  - apply no_pointers_valid; vm_compute; reflexivity.
  - vm_compute. reflexivity.
  - apply example_driver_resolves.
  - vm_compute. reflexivity.
  - change (textureCounters (state_after one_full_shader)) with [1; 1].
    apply not_in_pair; discriminate.
  - change (activeTextureUnits (object_at 0 (state_after one_full_shader)))
      with [7%N; 8%N].
    apply not_in_pair; discriminate.
  - exists w'. exact Hthrow.
Defined.

Lemma no_texture_without_units_witness :
  textureUnitPool (object_at 0 state_without_units) = ∅.
Proof.
  refine (proj1 (no_texture_without_units 1 state_without_units 0
                   (object_at 0 state_without_units) "x" 7 example_driver
                   _ _ _ _ _)).
  - lia.
  - apply example_states.
  - apply no_pointers_valid; vm_compute; reflexivity.
  - vm_compute. reflexivity.
  - apply example_driver_resolves.
Defined.

Lemma units_are_shared_when_none_is_free_witness :
  exists w',
    sendTexture 1 "x" 9 example_driver (state_after full_and_new) = Ok tt w' /\
    assigned 1 "x" 1 w' /\
    textureCounters w' = [2; 1].
Proof.
  destruct (units_are_shared_when_none_is_free 3 (state_after full_and_new) 1
              (object_at 1 (state_after full_and_new)) "x" 9 example_driver
              0 1)
    as (_ & w' & Hsend & Hassigned & Hcounters).
  - apply example_states.
  - apply no_pointers_valid; vm_compute; reflexivity.
  - vm_compute. reflexivity.
  - apply example_driver_resolves.
  - vm_compute. reflexivity.
  - change (textureCounters (state_after full_and_new)) with [1; 1].
    apply not_in_pair; discriminate.
  - split; [vm_compute; reflexivity|]. intros j Hj. lia.
  - vm_compute. reflexivity.
  - vm_compute. reflexivity.
  - exists w'. split_and!; [exact Hsend|exact Hassigned|exact Hcounters].
Defined.

Lemma loadVolatile_clears_the_record_only_witness :
  exists w',
    after (loadVolatile 0 example_driver (state_after one_bound_shader))
    = Some w' /\
    textureCounters w' = textureCounters (state_after one_bound_shader).
Proof.
  assert (Hload : exists w',
    after (loadVolatile 0 example_driver (state_after one_bound_shader))
    = Some w') by (vm_compute; eauto).
  destruct Hload as (w' & Hload). exists w'. split; [exact Hload|].
  refine (proj1 (loadVolatile_clears_the_record_only 0 example_driver
                   (state_after one_bound_shader) w'
                   (object_at 0 (state_after one_bound_shader)) _ Hload)).
  vm_compute. reflexivity.
Defined.

Lemma pixel_compile_failure_witness :
  exists w',
    loadVolatile 0 driver_rejecting_pixel (state_after one_shader)
    = Throw {| what_format := "Cannot compile %s shader code:
%s";
               what_args := [ArgStr "pixel"; ArgStr "syntax error"] |} w'.
Proof.
  destruct (pixel_compile_failure 0 driver_rejecting_pixel
              (state_after one_shader) (object_at 0 (state_after one_shader))
              "v" "p")
    as (w' & Hthrow & _).
  - vm_compute. reflexivity.
  - vm_compute. reflexivity.
  - vm_compute. reflexivity.
  - vm_compute. reflexivity.
  - vm_compute. discriminate.
  - vm_compute. discriminate.
  - vm_compute. reflexivity.
  - vm_compute. reflexivity.
  - exists w'. exact Hthrow.
Defined.

Lemma link_failure_keeps_the_deleted_program_witness :
  exists w' s',
    objects w' !! 0%nat = Some s' /\ program s' = 3%N /\
    exists e, loadVolatile 0 driver_failing_link (state_after one_shader)
              = Throw e w'.
Proof.
  destruct (link_failure_keeps_the_deleted_program 0 driver_failing_link
              (state_after one_shader) (object_at 0 (state_after one_shader))
              "v" "p")
    as (w' & s' & cs & w'' & Hthrow & _ & Hs' & Hprogram & _).
  - vm_compute. reflexivity.
  - vm_compute. reflexivity.
  - vm_compute. reflexivity.
  - vm_compute. reflexivity.
  - vm_compute. discriminate.
  - vm_compute. discriminate.
  - vm_compute. reflexivity.
  - vm_compute. reflexivity.
  - vm_compute. discriminate.
  - vm_compute. reflexivity.
  - exists w', s'. split_and!; [exact Hs'|exact Hprogram|]. eexists. exact Hthrow.
Defined.

Lemma unloading_twice_witness :
  exists w1 w2,
    unloadVolatile 0 (state_after one_bound_shader) = Ok tt w1 /\
    unloadVolatile 0 w1 = Ok tt w2 /\
    textureCounters w2 = textureCounters w1.
Proof.
  destruct (unloading_twice 3 (state_after one_bound_shader) 0
              (object_at 0 (state_after one_bound_shader)))
    as (w1 & w2 & Hfirst & Hsecond & _ & Hcounters & _).
  - apply example_states.
  - vm_compute. reflexivity.
  - exists w1, w2. split_and!; [exact Hfirst|exact Hsecond|exact Hcounters].
Defined.

Lemma a_new_shader_witness :
  exists s',
    objects (state_after one_shader) = <[0%nat := s']> (objects (initial_World 3)) /\
    program s' = 3%N.
Proof.
  destruct (a_new_shader 3 (initial_World 3) 0 example_sources example_driver
              (state_after one_shader))
    as (s' & Hobjects & Hprogram & _).
  - apply reachable_initial.
  - reflexivity.
  - vm_compute. reflexivity.
  - exists s'. split; [exact Hobjects|exact Hprogram].
Defined.

Lemma construction_errors_witness :
  Shader_new 0 ∅ example_driver (initial_World 3)
  = Throw {| what_format := "Cannot create shader: no source code!";
             what_args := [] |} (initial_World 3).
Proof.
  refine (proj1 (construction_errors 0 ∅ example_driver (initial_World 3) _) _);
    reflexivity.
Defined.

Lemma free_units_are_given_in_increasing_order_witness :
  exists unit_a unit_b,
    assigned 0 "a" unit_a
      (state_after (two_shaders ++ [CallSendTexture 0 "a" 7 example_driver;
                                    CallSendTexture 1 "b" 8 example_driver])) /\
    assigned 1 "b" unit_b
      (state_after (two_shaders ++ [CallSendTexture 0 "a" 7 example_driver;
                                    CallSendTexture 1 "b" 8 example_driver])) /\
    1 <= unit_a < unit_b.
Proof.
  refine (free_units_are_given_in_increasing_order 3 (state_after two_shaders)
            0 1 (object_at 0 (state_after two_shaders))
            (object_at 1
               (state_after (two_shaders
                             ++ [CallSendTexture 0 "a" 7 example_driver])))
            "a" "b" 7 8 example_driver example_driver
            (state_after (two_shaders ++ [CallSendTexture 0 "a" 7 example_driver]))
            _ _ _ _ _ _ _ _ _ _).
  - apply example_states.
  - vm_compute. reflexivity.
  - vm_compute. reflexivity.
  - vm_compute. constructor.
  - vm_compute. reflexivity.
  - vm_compute. reflexivity.
  - vm_compute. reflexivity.
  - vm_compute. constructor. constructor.
  - vm_compute. reflexivity.
Defined.

Lemma attach_binds_the_held_textures_witness :
  exists w',
    attach 0 false (state_after one_bound_shader) = Ok tt w' /\
    currentShader w' = Some 0%nat.
Proof.
  destruct (attach_binds_the_held_textures 0 (state_after one_bound_shader)
              (object_at 0 (state_after one_bound_shader)))
    as (w' & cs & Hattach & Hcurrent & _).
  - vm_compute. reflexivity.
  - exists w'. split; [exact Hattach|exact Hcurrent].
Defined.

Lemma getTextureUnit_does_not_reserve_witness :
  exists textureunit w1 w2,
    getTextureUnit 0 "a" (state_after one_shader) = Ok textureunit w1 /\
    getTextureUnit 0 "b" w1 = Ok textureunit w2.
Proof.
  destruct (getTextureUnit_does_not_reserve 0 (state_after one_shader)
              (object_at 0 (state_after one_shader)) "a" "b")
    as (textureunit & w1 & w2 & Hfirst & Hsecond & _).
  - vm_compute. reflexivity.
  - discriminate.
  - vm_compute. reflexivity.
  - vm_compute. reflexivity.
  - vm_compute. constructor.
  - exists textureunit, w1, w2. split; [exact Hfirst|exact Hsecond].
Defined.

Lemma a_shader_fills_the_units_in_order_witness :
  exists w',
    run (send_textures 0 example_driver [("a", 7%N); ("b", 8%N)])
      (state_after one_shader) = Some w' /\
    assigned 0 "b" 2 w'.
Proof.
  destruct (a_shader_fills_the_units_in_order 3 example_driver 0
              [("a", 7%N); ("b", 8%N)] (state_after one_shader)
              (object_at 0 (state_after one_shader)))
    as (w' & Hrun & _ & Hall).
  - apply example_states.
  - apply no_pointers_valid; vm_compute; reflexivity.
  - vm_compute. reflexivity.
  - vm_compute. reflexivity.
  - vm_compute. lia.
  - apply (bool_decide_unpack _). vm_compute. exact I.
  - intros name Hname. split; [|discriminate].
    cbn in Hname. apply elem_of_cons in Hname as [->|Hname];
      [vm_compute; reflexivity|].
    apply elem_of_cons in Hname as [->|Hname]; [vm_compute; reflexivity|].
    by apply elem_of_nil in Hname.
  - exists w'. split; [exact Hrun|]. exact (Hall 1%nat "b" 8%N eq_refl).
Defined.
End ShaderManager.

(* ===================================================================== *)
(** * Part V: further properties of the input bridge                      *)
(* ===================================================================== *)

Section InputBridgeFurther.

Import ppapi.

Variable KEY_CODE_MAX : N.

#[local] Abbreviation EnqueueEvent := (ppapi.EnqueueEvent KEY_CODE_MAX).
#[local] Abbreviation UpdateInputState := (ppapi.UpdateInputState KEY_CODE_MAX).
#[local] Abbreviation IsKeyPressed := (ppapi.IsKeyPressed KEY_CODE_MAX).
#[local] Abbreviation call := (ppapi.call KEY_CODE_MAX).
#[local] Abbreviation run := (ppapi.run KEY_CODE_MAX).
#[local] Abbreviation dequeued := (ppapi.dequeued KEY_CODE_MAX).
#[local] Abbreviation sized := (ppapi.sized KEY_CODE_MAX).

(** *** Conservation of events *)

(** X1.  Whatever the interleaving of [EnqueueEvent], [DequeueEvent] and
    [DequeueAllEvents] calls, and whatever the queue held before, the events
    handed to the callers, followed by the events still queued, are the
    events queued before followed by the events enqueued, in that order: no
    event is lost, duplicated or reordered. *)
Theorem events_are_conserved (cs : list Call) (g : Globals) :
  dequeued cs g ++ g_InputEventQueue (run cs g)
  = g_InputEventQueue g ++ enqueued cs.
Proof.
  revert g. induction cs as [|c cs IH]; intros g.
  - cbn. by rewrite app_nil_r.
  - rewrite run_cons. cbn [ppapi.dequeued enqueued].
    rewrite <- app_assoc, IH.
    destruct c as [event stack|out_event|out_events]; cbn [ppapi.call handed_over].
    + rewrite EnqueueEvent_queue. cbn. by rewrite <- app_assoc.
    + unfold DequeueEvent.
      destruct (g_InputEventQueue g) as [|front rest] eqn:Hq; cbn.
      * by rewrite Hq.
      * reflexivity.
    + rewrite DequeueAllEvents_spec. reflexivity.
Qed.

(** *** What the converted event depends on *)

Lemma strncpy_written_length src : forall n, length (strncpy_written src n) = n.
Proof.
  revert src. intros src n. revert src.
  induction n as [|n IH]; intros src; [done|]. cbn.
  destruct src as [|c src]; cbn; [by rewrite IH|].
  destruct (Ascii.eqb c zero); cbn; by rewrite IH.
Qed.

Lemma take_strncpy dst src n :
  take n (strncpy dst src n) = strncpy_written (list_ascii_of_string src) n.
Proof.
  unfold strncpy. apply take_app_length'. by rewrite strncpy_written_length.
Qed.

(** X2.  For a host event of one of the ten types [ConvertEvent] has a case
    for, the tag, the modifiers and the variant of the tag (for a character
    event: the five bytes of the text field) of the event enqueued are the
    same whatever the storage of the locals held before: they are read from
    the host event alone.  So is the update of the persistent state. *)
Theorem handled_event_ignores_stack event stack1 stack2 :
  GetType event <> PP_INPUTEVENT_TYPE_UNHANDLED ->
  type (converted event stack1) = type (converted event stack2) /\
  modifiers (converted event stack1) = GetModifiers event /\
  match type (converted event stack1) with
  | INPUT_MOUSE => mouse (converted event stack1) = mouse (converted event stack2)
  | INPUT_WHEEL => wheel (converted event stack1) = wheel (converted event stack2)
  | INPUT_KEY => key (converted event stack1) = key (converted event stack2)
  | INPUT_CHARACTER =>
      take CHARACTER_TEXT_CAPACITY
        (character_text (character (converted event stack1)))
      = take CHARACTER_TEXT_CAPACITY
          (character_text (character (converted event stack2)))
  end /\
  forall g,
    UpdateInputState (converted event stack1) g
    = UpdateInputState (converted event stack2) g.
Proof.
  intros Hhandled. unfold converted, ConvertEvent.
  destruct (GetType event); try done; cbn -[strncpy take];
    split_and!; try reflexivity.
  unfold CHARACTER_TEXT_CAPACITY. by rewrite !take_strncpy.
Qed.


(** *** Which events change which part of the persistent state *)

(** X4.  Enqueuing a wheel, raw-key-down or character event changes nothing
    but the queue.  Enqueuing a mouse move, enter or leave event sets the
    mouse position and changes no button and no key.  Enqueuing a key down
    or key up event changes neither the mouse position nor a button.
    Enqueuing a mouse down or up event changes no key. *)
Theorem EnqueueEvent_changes event stack g :
  (GetType event = PP_INPUTEVENT_TYPE_WHEEL \/
   GetType event = PP_INPUTEVENT_TYPE_RAWKEYDOWN \/
   GetType event = PP_INPUTEVENT_TYPE_CHAR ->
   EnqueueEvent event stack g
   = set_queue (g_InputEventQueue g ++ [converted event stack]) g) /\
  (GetType event = PP_INPUTEVENT_TYPE_MOUSEMOVE \/
   GetType event = PP_INPUTEVENT_TYPE_MOUSEENTER \/
   GetType event = PP_INPUTEVENT_TYPE_MOUSELEAVE ->
   EnqueueEvent event stack g
   = set_queue (g_InputEventQueue g ++ [converted event stack])
       (set_mouse_position (fst (GetPosition event)) (snd (GetPosition event)) g)) /\
  (GetType event = PP_INPUTEVENT_TYPE_KEYDOWN \/
   GetType event = PP_INPUTEVENT_TYPE_KEYUP ->
   GetMouseX (EnqueueEvent event stack g) = GetMouseX g /\
   GetMouseY (EnqueueEvent event stack g) = GetMouseY g /\
   g_MouseButton (EnqueueEvent event stack g) = g_MouseButton g) /\
  (GetType event = PP_INPUTEVENT_TYPE_MOUSEDOWN \/
   GetType event = PP_INPUTEVENT_TYPE_MOUSEUP ->
   g_Keys (EnqueueEvent event stack g) = g_Keys g).
Proof.
  unfold ppapi.EnqueueEvent, ppapi.UpdateInputState, converted, ConvertEvent.
  split_and!.
  - by intros [-> | [-> | ->]].
  - by intros [-> | [-> | ->]].
  - intros [-> | ->]; cbn;
      destruct (GetKeyCode event <? KEY_CODE_MAX)%N; by cbn.
  - by intros [-> | ->].
Qed.

(** *** Codes and buttons outside the tables *)

(** X5.  For a key code that is [KEY_CODE_MAX] or more: [IsKeyPressed]
    answers false in every state, and enqueuing a key down or key up event
    with that code changes nothing but the queue.  [IsMouseButtonPressed]
    answers false for [MOUSE_NONE] in every state. *)
Theorem codes_outside_the_tables event stack g :
  (KEY_CODE_MAX <= GetKeyCode event)%N ->
  IsKeyPressed (GetKeyCode event) g = false /\
  IsMouseButtonPressed MOUSE_NONE g = false /\
  (GetType event = PP_INPUTEVENT_TYPE_KEYDOWN \/
   GetType event = PP_INPUTEVENT_TYPE_KEYUP ->
   EnqueueEvent event stack g
   = set_queue (g_InputEventQueue g ++ [converted event stack]) g).
Proof.
  intros Hcode. split_and!.
  - unfold ppapi.IsKeyPressed.
    destruct (N.leb_spec KEY_CODE_MAX (GetKeyCode event)); [done|lia].
  - reflexivity.
  - unfold ppapi.EnqueueEvent, ppapi.UpdateInputState, converted, ConvertEvent.
    intros [-> | ->]; cbn;
      destruct (N.ltb_spec (GetKeyCode event) KEY_CODE_MAX); (done || lia).
Qed.

End InputBridgeFurther.

(** *** The text of a character event *)

Section CharacterTextFurther.

Import ppapi.

Lemma strlen_le_length bytes : (strlen bytes <= length bytes)%nat.
Proof.
  induction bytes as [|c bytes IH]; cbn; [lia|].
  destruct (Ascii.eqb c zero); lia.
Qed.

Lemma strlen_terminated src rest :
  strlen (take (strlen src) src ++ zero :: rest) = strlen src.
Proof.
  induction src as [|c src IH]; cbn; [done|].
  destruct (Ascii.eqb c zero) eqn:Hc; cbn; [done|]. by rewrite Hc, IH.
Qed.

Lemma strlen_no_NUL src : zero ∉ src -> strlen src = length src.
Proof.
  induction src as [|c src IH]; intros Hnot; cbn; [done|].
  apply not_elem_of_cons in Hnot as [Hc Hnot].
  destruct (Ascii.eqb_spec c zero) as [->|_]; [done|]. by rewrite IH.
Qed.

(** X6.  For a character event whose text, up to its first NUL byte, has at
    most four bytes: the C string held in the text field of the converted
    event is that text, whatever the field held before; when the text has
    no NUL byte at all, reading the field back as a C string gives the text
    of the host event. *)
Theorem short_text_round_trip in_event type0 out_event :
  GetType in_event = PP_INPUTEVENT_TYPE_CHAR ->
  (strlen (list_ascii_of_string (GetCharacterText in_event)) <= 4)%nat ->
  strlen (character_text (character (ConvertEvent in_event type0 out_event)))
  = strlen (list_ascii_of_string (GetCharacterText in_event)) /\
  take (strlen (character_text (character (ConvertEvent in_event type0 out_event))))
    (character_text (character (ConvertEvent in_event type0 out_event)))
  = take (strlen (list_ascii_of_string (GetCharacterText in_event)))
      (list_ascii_of_string (GetCharacterText in_event)) /\
  (zero ∉ list_ascii_of_string (GetCharacterText in_event) ->
   string_of_list_ascii
     (take (strlen (character_text (character (ConvertEvent in_event type0 out_event))))
        (character_text (character (ConvertEvent in_event type0 out_event))))
   = GetCharacterText in_event).
Proof.
  intros Htype Hshort.
  set (src := list_ascii_of_string (GetCharacterText in_event)) in *.
  assert (Htext :
    exists rest,
      character_text (character (ConvertEvent in_event type0 out_event))
      = take (strlen src) src ++ zero :: rest).
  { unfold ConvertEvent. rewrite Htype. cbn -[strncpy]. unfold strncpy.
    fold src. rewrite strncpy_written_spec.
    rewrite Nat.min_r by lia.
    destruct (5 - strlen src)%nat as [|k] eqn:Hk; [lia|]. cbn [replicate].
    rewrite <- app_assoc. cbn. eauto. }
  destruct Htext as [rest ->].
  assert (Hlen : strlen (take (strlen src) src ++ zero :: rest) = strlen src)
    by apply strlen_terminated.
  assert (Htake : take (strlen src) (take (strlen src) src ++ zero :: rest)
                  = take (strlen src) src).
  { apply take_app_length'. rewrite length_take.
    pose proof (strlen_le_length src). lia. }
  rewrite Hlen. split_and!; [done|done|].
  intros Hnot. rewrite Htake, (strlen_no_NUL _ Hnot), firstn_all.
  apply string_of_list_ascii_of_string.
Qed.

(** X6 at an example: the text "ab". *)
Lemma short_text_round_trip_witness :
  strlen (character_text (character
            (ConvertEvent
               (host_event PP_INPUTEVENT_TYPE_CHAR 0 PP_INPUTEVENT_MOUSEBUTTON_NONE
                  (0, 0) "ab") INPUT_MOUSE InputEvent_zero)))
  = 2%nat.
Proof.
  refine (proj1 (short_text_round_trip
    (host_event PP_INPUTEVENT_TYPE_CHAR 0 PP_INPUTEVENT_MOUSEBUTTON_NONE
       (0, 0) "ab") INPUT_MOUSE InputEvent_zero _ _)).
  - reflexivity.
  - vm_compute. lia.
Defined.

End CharacterTextFurther.

(** X4 at an example: a wheel event. *)
Lemma EnqueueEvent_changes_witness :
  ppapi.EnqueueEvent 256
    (ppapi.host_event ppapi.PP_INPUTEVENT_TYPE_WHEEL 0
       ppapi.PP_INPUTEVENT_MOUSEBUTTON_NONE (0, 0) "x")
    ppapi.zeroed_stack (ppapi.initial_Globals 256)
  = ppapi.set_queue
      (ppapi.g_InputEventQueue (ppapi.initial_Globals 256)
       ++ [ppapi.converted
             (ppapi.host_event ppapi.PP_INPUTEVENT_TYPE_WHEEL 0
                ppapi.PP_INPUTEVENT_MOUSEBUTTON_NONE (0, 0) "x")
             ppapi.zeroed_stack])
      (ppapi.initial_Globals 256).
Proof.
  refine (proj1 (EnqueueEvent_changes 256
    (ppapi.host_event ppapi.PP_INPUTEVENT_TYPE_WHEEL 0
       ppapi.PP_INPUTEVENT_MOUSEBUTTON_NONE (0, 0) "x")
    ppapi.zeroed_stack (ppapi.initial_Globals 256)) _).
  left. reflexivity.
Defined.


Lemma handled_event_ignores_stack_witness :
  ppapi.type (ppapi.converted ppapi.char_abcde ppapi.zeroed_stack)
  = ppapi.type (ppapi.converted ppapi.char_abcde ppapi.key_down_stack).
Proof.
  refine (proj1 (handled_event_ignores_stack 256 ppapi.char_abcde
                   ppapi.zeroed_stack ppapi.key_down_stack _)).
  discriminate.
Defined.

Lemma codes_outside_the_tables_witness :
  ppapi.IsKeyPressed 256 300 (ppapi.initial_Globals 256) = false.
Proof.
  refine (proj1 (codes_outside_the_tables 256
    (ppapi.host_event ppapi.PP_INPUTEVENT_TYPE_KEYDOWN 300
       ppapi.PP_INPUTEVENT_MOUSEBUTTON_NONE (0, 0) "x")
    ppapi.zeroed_stack (ppapi.initial_Globals 256) _)).
  vm_compute. discriminate.
Defined.
